(** * Tasklytics: the history engine and the flow engine

    A shallow embedding of the two stateful cores of the workspace
    application,

    - [src/flows/FlowEngine.js]: dotted-path lookup, [{{path}}]
      interpolation, condition evaluation, the four action executors and
      [executeFlow] with its bounded execution log;
    - the [useHistory] hook: [applyChange], [undo], [redo], [commit] and
      [jump] over a list of snapshots,

    and of what is built around them: the handlers of the history
    panel, the [useFlows] hook that binds flows to targets and fires
    them, the two role tables with [roleHas], [toggleTheme], and the
    path of a task dropped on the board into the [MoveTask] command;
    followed by the properties proved about them.

    JavaScript data is modelled in two ways.  The flow engine only reads
    its inputs, so there the event payload, the snapshot and the action
    configurations are immutable trees ([value]).  The history engine
    clones and hands out objects that its callers may mutate, so there
    objects live in a store of cells addressed by references ([hval],
    [store]) and aliasing is explicit.

    What the data does not hold is left to a [Realm]: the members a
    value inherits from its prototype chain, the built-in functions
    these lead to, and the numeric conversions the model does not
    evaluate.  Exceptions are [Error] objects or thrown values of any
    kind.  The operations of the hook are closures of one render: each
    takes the state of the render that made it and the pending state its
    updaters transform, so that calls made by one event handler and
    calls made from successive renders are both expressed. *)

From Stdlib Require Import Ascii String ZArith Lia.
From stdpp Require Import base list strings numbers pretty gmap.

Open Scope string_scope.
Open Scope list_scope.

(** * JavaScript values *)

(** Data trees.  Numbers are the integers that a double holds exactly
    (identifiers, counts, indexes and offsets of the workspace data);
    non-integral doubles and the infinities are outside the model.  A
    string is the sequence of its UTF-16 code units, one [ascii] per unit:
    the model holds the strings whose units are below 256.  An object is
    its list of own properties in enumeration order; what it inherits is
    not data and is answered by the realm (see [get_member]). *)
#[warnings="-register-all"]
Inductive value : Type :=
| VUndefined
| VNull
| VBool (b : bool)
| VNum (n : Z)
| VStr (s : string)
| VArr (xs : list value)
| VObj (props : list (string * value)).

(** What a [throw] throws: an [Error] object, with its constructor name
    and its message, or any other value. *)
Inductive exn :=
| JsError (name message : string)
| Thrown (v : value).

(** The completion of an expression: a value, or a thrown exception. *)
Inductive result (A : Type) : Type :=
| Ok (a : A)
| Throw (e : exn).
Arguments Ok {A} a.
Arguments Throw {A} e.

Definition result_bind {A B} (r : result A) (k : A -> result B) : result B :=
  match r with
  | Ok a => k a
  | Throw e => Throw e
  end.

Declare Scope js_scope.
Delimit Scope js_scope with js.
Notation "'let?' x ':=' e 'in' k" := (result_bind e (fun x => k))
  (at level 10, x pattern, e at level 100, k at level 200) : js_scope.
Open Scope js_scope.

(** [assoc k props]: the own property [k] of a property list. *)
Fixpoint assoc {A} (k : string) (props : list (string * A)) : option A :=
  match props with
  | [] => None
  | (k', v) :: rest => if String.eqb k k' then Some v else assoc k rest
  end.

(** [obj[k] = v] on a property list: overwrite in place, or append. *)
Fixpoint set_assoc {A} (k : string) (v : A) (props : list (string * A))
  : list (string * A) :=
  match props with
  | [] => [(k, v)]
  | (k', v') :: rest =>
      if String.eqb k k' then (k, v) :: rest else (k', v') :: set_assoc k v rest
  end.

(** ToBoolean. *)
Definition truthy (v : value) : bool :=
  match v with
  | VUndefined | VNull => false
  | VBool b => b
  | VNum n => negb (n =? 0)%Z
  | VStr s => negb (String.eqb s "")
  | VArr _ | VObj _ => true
  end.

(** [v === undefined || v === null]. *)
Definition is_nullish (v : value) : bool :=
  match v with
  | VUndefined | VNull => true
  | _ => false
  end.

Definition is_undefined (v : value) : bool :=
  match v with
  | VUndefined => true
  | _ => false
  end.

(** [a || b] on already evaluated operands. *)
Definition js_or (a b : value) : value := if truthy a then a else b.

(** ** Numbers as text

    [Number::toString] prints the shortest digits that read back as the
    same double, followed by zeros up to 21 digits and by an exponent
    beyond.  Up to [2^53] these are the digits of the integer. *)

(** The doubles from [2^53] on are the integers [m * 2^e] with
    [2^52 <= m < 2^53] and [1 <= e]. *)
Definition double_exponent (x : Z) : Z := (Z.log2 x - 52)%Z.

(** The integer [v] rounds to the double [x]: to the nearest double, and
    to the even significand on a tie.  (Quarters of the gap to the next
    double below are integers once scaled by four.) *)
Definition rounds_to (x v : Z) : bool :=
  (let e := double_exponent x in
   let m := x / 2 ^ e in
   let above := 2 ^ (e + 1) in
   let below := if m =? 2 ^ 52 then 2 ^ e else 2 ^ (e + 1) in
   let lo := 4 * x - below in
   let hi := 4 * x + above in
   if Z.even m then (lo <=? 4 * v) && (4 * v <=? hi)
   else (lo <? 4 * v) && (4 * v <? hi))%Z.

(** The candidates with [k] digits for a double of [n] digits: the two
    multiples of [10^(n-k)] around [x].  The answer is the one that
    rounds to [x], the closer one of two, as its digits [s] and the
    number of digits of [s * 10^(n-k)]. *)
Definition candidate (x n k : Z) : option (Z * Z) :=
  (let p := 10 ^ (n - k) in
   let s1 := x / p in
   let s2 := s1 + 1 in
   let ok s := rounds_to x (s * p) && (10 ^ (k - 1) <=? s) in
   let pick s := if s <? 10 ^ k then Some (s, n) else Some (1, n + 1) in
   match ok s1, ok s2 with
   | true, true =>
       if x - s1 * p <? s2 * p - x then pick s1
       else if s2 * p - x <? x - s1 * p then pick s2
       else if Z.even s1 then pick s1 else pick s2
   | true, false => pick s1
   | false, true => pick s2
   | false, false => None
   end)%Z.

(** The least number of digits that has a candidate; 17 always do. *)
Fixpoint shortest (x n k : Z) (fuel : nat) : Z * Z :=
  match fuel with
  | O => (x, n)
  | S fuel' =>
      match candidate x n k with
      | Some r => r
      | None => shortest x n (k + 1)%Z fuel'
      end
  end.

(** [String(x)] for an integer double [x] above [2^53]. *)
Definition long_number_text (x : Z) : string :=
  let n0 := Z.of_nat (String.length (pretty x)) in
  let '(s, n) := shortest x n0 1 17 in
  let digits := pretty s in
  let k := Z.of_nat (String.length digits) in
  if (n <=? 21)%Z
  then digits +:+ string_of_list_ascii (replicate (Z.to_nat (n - k)) "0"%char)
  else
    match digits with
    | String d EmptyString => String d ("e+" +:+ pretty (n - 1)%Z)
    | String d rest => String d ("." +:+ rest +:+ "e+" +:+ pretty (n - 1)%Z)
    | EmptyString => EmptyString
    end.

(** [String(n)] for an integer [n]. *)
Definition number_text (n : Z) : string :=
  if (Z.abs n <=? 2 ^ 53)%Z then pretty n
  else if (n <? 0)%Z then "-" +:+ long_number_text (- n)
  else long_number_text n.

(** ToString.  [Array.prototype.join] prints [null] and [undefined]
    elements as the empty string; a plain object prints as
    ["[object Object]"]. *)
Fixpoint to_string (v : value) : string :=
  match v with
  | VUndefined => "undefined"
  | VNull => "null"
  | VBool true => "true"
  | VBool false => "false"
  | VNum n => number_text n
  | VStr s => s
  | VArr xs =>
      String.concat ","
        ((fix elems (l : list value) : list string :=
            match l with
            | [] => []
            | x :: r => (if is_nullish x then "" else to_string x) :: elems r
            end) xs)
  | VObj _ => "[object Object]"
  end.

(** ToString of an object calls its [toString].  On an object of the
    data, an own property [toString] is a value, not a function: the
    conversion skips it, gets the object itself from the inherited
    [valueOf], and throws a [TypeError].  [printable v]: the conversion
    of [v] meets no such object.  [String(v)], a template literal, the
    concatenation to a string and the use as a property name convert
    alike. *)
Fixpoint printable (v : value) : bool :=
  match v with
  | VArr xs => forallb printable xs
  | VObj props =>
      match assoc "toString" props with
      | None => true
      | Some _ => false
      end
  | _ => true
  end.

(** Decimal digits. *)
Definition digit_of_ascii (c : ascii) : option Z :=
  let n := Z.of_nat (nat_of_ascii c) in
  if ((48 <=? n) && (n <=? 57))%Z then Some (n - 48)%Z else None.

Fixpoint digits_value (acc : Z) (s : string) : option Z :=
  match s with
  | EmptyString => Some acc
  | String c s' =>
      match digit_of_ascii c with
      | Some d => digits_value (10 * acc + d)%Z s'
      | None => None
      end
  end.

(** A canonical array index: the decimal numeral of a natural number, with
    no sign and no leading zero. *)
Definition array_index (key : string) : option nat :=
  match key with
  | EmptyString => None
  | _ =>
      match digits_value 0 key with
      | Some n => if String.eqb (pretty n) key then Some (Z.to_nat n) else None
      | None => None
      end
  end.

(** White space and line terminators, skipped by the numeric conversion
    of a string (those below 256). *)
Definition is_blank (c : ascii) : bool :=
  let n := nat_of_ascii c in
  (n =? 32)%nat || (n =? 9)%nat || (n =? 10)%nat || (n =? 11)%nat
  || (n =? 12)%nat || (n =? 13)%nat || (n =? 160)%nat.

Fixpoint trim_left (s : string) : string :=
  match s with
  | String c s' => if is_blank c then trim_left s' else s
  | EmptyString => EmptyString
  end.

Definition trim (s : string) : string :=
  String.rev (trim_left (String.rev (trim_left s))).

(** ** Numeric conversion

    ToNumber as far as the model evaluates it: [NaN], an integer, or a
    conversion the model leaves to the realm (a fraction, an exponent, a
    hex literal, an infinity, digits beyond [2^53], which a double
    rounds, and any other text with a digit in it). *)
Inductive number :=
| NaN
| Int (n : Z)
| Unmodelled.

Fixpoint has_digit (s : string) : bool :=
  match s with
  | EmptyString => false
  | String c s' =>
      match digit_of_ascii c with
      | Some _ => true
      | None => has_digit s'
      end
  end.

Definition exact (n : option Z) : number :=
  match n with
  | Some z => if (Z.abs z <=? 2 ^ 53)%Z then Int z else Unmodelled
  | None => Unmodelled
  end.

(** StringToNumber: blanks are trimmed, the empty string is [0], an
    optional sign precedes the digits of an integer literal.  A text
    without a digit that is not an infinity is [NaN]. *)
Definition string_to_number (s : string) : number :=
  let t := trim s in
  if String.eqb t "" then Int 0
  else if negb (has_digit t) then
    if bool_decide (t ∈ ["Infinity"; "+Infinity"; "-Infinity"])
    then Unmodelled else NaN
  else
    match t with
    | String "-" r => exact (Z.opp <$> digits_value 0 r)
    | String "+" r => exact (digits_value 0 r)
    | _ => exact (digits_value 0 t)
    end.

(** ToNumber of data.  A plain object converts through
    [Object.prototype.toString] to [NaN]; one with a [toString] or
    [valueOf] of its own, and an array that holds one, is left to the
    realm. *)
Definition to_number (v : value) : number :=
  match v with
  | VUndefined => NaN
  | VNull => Int 0
  | VBool b => Int (if b then 1 else 0)
  | VNum n => Int n
  | VStr s => string_to_number s
  | VArr _ =>
      if printable v then string_to_number (to_string v) else Unmodelled
  | VObj props =>
      match assoc "toString" props, assoc "valueOf" props with
      | None, None => NaN
      | _, _ => Unmodelled
      end
  end.

(** [a === b].  Primitives compare by value.  Two objects are equal only
    when they are the same object; in the tree model the two operands of
    the engine's comparisons (a value read from the event or the snapshot,
    and the value written in a flow definition) are never the same
    object. *)
Definition strict_eq (a b : value) : bool :=
  match a, b with
  | VUndefined, VUndefined => true
  | VNull, VNull => true
  | VBool x, VBool y => Bool.eqb x y
  | VNum x, VNum y => (x =? y)%Z
  | VStr x, VStr y => String.eqb x y
  | _, _ => false
  end.

(** [hay.includes(needle)] *)
Fixpoint includes (hay needle : string) : bool :=
  String.prefix needle hay
  || match hay with
     | EmptyString => false
     | String _ hay' => includes hay' needle
     end.

(** [s.split('.')] *)
Fixpoint split_dot (s : string) : list string :=
  match s with
  | EmptyString => [EmptyString]
  | String c s' =>
      if Ascii.eqb c "."%char then EmptyString :: split_dot s'
      else match split_dot s' with
           | [] => [String c EmptyString]
           | p :: ps => String c p :: ps
           end
  end.

Definition type_error (msg : string) : exn := JsError "TypeError" msg.

Definition not_primitive : exn :=
  type_error "Cannot convert object to primitive value".

(** ToString of data. *)
Definition text_of (v : value) : result string :=
  if printable v then Ok (to_string v) else Throw not_primitive.

(** ** Reading properties *)

(** The own property [key] of a data value: a property of an object, an
    element or the [length] of an array or a string. *)
Definition own_member (v : value) (key : string) : option value :=
  match v with
  | VStr s =>
      if String.eqb key "length" then Some (VNum (Z.of_nat (String.length s)))
      else match array_index key with
           | Some i =>
               match String.get i s with
               | Some c => Some (VStr (String c EmptyString))
               | None => None
               end
           | None => None
           end
  | VArr xs =>
      if String.eqb key "length" then Some (VNum (Z.of_nat (length xs)))
      else match array_index key with
           | Some i => xs !! i
           | None => None
           end
  | VObj props => assoc key props
  | _ => None
  end.

Definition cannot_read (v : value) (key : string) : exn :=
  type_error ("Cannot read properties of " +:+ to_string v
              +:+ " (reading '" +:+ key +:+ "')").

(** [v.name] for the names the code reads by name ([message], [title],
    [eventType], [id], ...): no prototype defines one of them
    ([get_member_field]), so that the read answers the own property, and
    [undefined] when there is none.  Reading a property of [undefined]
    or [null] throws a [TypeError]. *)
Definition get_field (v : value) (name : string) : result value :=
  if is_nullish v then Throw (cannot_read v name)
  else Ok (default VUndefined (own_member v name)).

(** ** Objects of the engine

    A read of a name the value does not own goes up the prototype chain,
    to objects that are not data: built-in functions and prototype
    objects.  The model names them and leaves to the realm what they
    are. *)
Definition native := string.

(** The property names every plain object inherits from
    [Object.prototype]: all of them functions, except the accessor
    [__proto__], which answers [Object.prototype] itself. *)
Definition Object_prototype_members : list string :=
  ["constructor"; "__defineGetter__"; "__defineSetter__"; "hasOwnProperty";
   "__lookupGetter__"; "__lookupSetter__"; "isPrototypeOf";
   "propertyIsEnumerable"; "toString"; "valueOf"; "__proto__";
   "toLocaleString"].

(** The names of [Array.prototype], [String.prototype] and
    [Number.prototype], as the language definition and its annex have
    them.  ([Boolean.prototype] has [constructor], [toString] and
    [valueOf] only.) *)
Definition Array_prototype_names : list string :=
  ["length"; "constructor"; "at"; "concat"; "copyWithin"; "entries"; "every";
   "fill"; "filter"; "find"; "findIndex"; "findLast"; "findLastIndex";
   "flat"; "flatMap"; "forEach"; "includes"; "indexOf"; "join"; "keys";
   "lastIndexOf"; "map"; "pop"; "push"; "reduce"; "reduceRight"; "reverse";
   "shift"; "slice"; "some"; "sort"; "splice"; "toLocaleString";
   "toReversed"; "toSorted"; "toSpliced"; "toString"; "unshift"; "values";
   "with"].

Definition String_prototype_names : list string :=
  ["length"; "constructor"; "anchor"; "at"; "big"; "blink"; "bold"; "charAt";
   "charCodeAt"; "codePointAt"; "concat"; "endsWith"; "fixed"; "fontcolor";
   "fontsize"; "includes"; "indexOf"; "isWellFormed"; "italics";
   "lastIndexOf"; "link"; "localeCompare"; "match"; "matchAll"; "normalize";
   "padEnd"; "padStart"; "repeat"; "replace"; "replaceAll"; "search";
   "slice"; "small"; "split"; "startsWith"; "strike"; "sub"; "substr";
   "substring"; "sup"; "toLocaleLowerCase"; "toLocaleUpperCase";
   "toLowerCase"; "toString"; "toUpperCase"; "toWellFormed"; "trim";
   "trimEnd"; "trimLeft"; "trimRight"; "trimStart"; "valueOf"].

Definition Number_prototype_names : list string :=
  ["constructor"; "toExponential"; "toFixed"; "toLocaleString";
   "toPrecision"; "toString"; "valueOf"].

(** The names the prototype chain of a data value defines.  What a name
    of the list holds is the realm's to say; a name outside the list is
    not inherited. *)
Definition prototype_names (v : value) : list string :=
  match v with
  | VUndefined | VNull => []
  | VArr _ => Array_prototype_names ++ Object_prototype_members
  | VStr _ => String_prototype_names ++ Object_prototype_members
  | VNum _ => Number_prototype_names ++ Object_prototype_members
  | VBool _ | VObj _ => Object_prototype_members
  end.

(** What a read answers: data, or an object of the engine. *)
Inductive jsval :=
| Data (v : value)
| Native (n : native).

(** The outcome of an operation of the engine: what the engine raises is
    an [Error] object. *)
Inductive outcome (A : Type) : Type :=
| Returns (a : A)
| Raises (name message : string).
Arguments Returns {A} a.
Arguments Raises {A} name message.

Definition of_outcome {A} (o : outcome A) : result A :=
  match o with
  | Returns a => Ok a
  | Raises name message => Throw (JsError name message)
  end.

(** The realm the code runs in. *)
Class Realm := {
  (** [v[key]] for data [v] that has no own property [key] and a [key]
      of [prototype_names v]: what the prototype chain of [v] answers *)
  inherited : value -> string -> outcome jsval;
  (** [n[key]] *)
  native_member : native -> string -> outcome jsval;
  (** [String(n)] *)
  native_text : native -> outcome string;
  (** [Number(a) < Number(b)] where the model does not evaluate both
      conversions *)
  numeric_lt : jsval -> jsval -> outcome bool
}.

Section Reads.
Context {realm : Realm}.

(** [current[key]] *)
Definition get_member (current : jsval) (key : string) : result jsval :=
  match current with
  | Data v =>
      if is_nullish v then Throw (cannot_read v key)
      else
        match own_member v key with
        | Some x => Ok (Data x)
        | None =>
            if bool_decide (key ∈ prototype_names v)
            then of_outcome (inherited v key)
            else Ok (Data VUndefined)
        end
  | Native n => of_outcome (native_member n key)
  end.

(** [String(v)] *)
Definition to_text (v : jsval) : result string :=
  match v with
  | Data d => text_of d
  | Native n => of_outcome (native_text n)
  end.

(** [Number(a) < Number(b)]: false as soon as one side is [NaN]. *)
Definition number_lt (a b : jsval) : result bool :=
  let number_of v :=
    match v with
    | Data d => to_number d
    | Native _ => Unmodelled
    end in
  match number_of a, number_of b with
  | Unmodelled, _ | _, Unmodelled => of_outcome (numeric_lt a b)
  | Int x, Int y => Ok (x <? y)%Z
  | _, _ => Ok false
  end.

End Reads.

Definition truthy_js (v : jsval) : bool :=
  match v with
  | Data d => truthy d
  | Native _ => true
  end.

Definition is_nullish_js (v : jsval) : bool :=
  match v with
  | Data d => is_nullish d
  | Native _ => false
  end.

Definition is_undefined_js (v : jsval) : bool :=
  match v with
  | Data d => is_undefined d
  | Native _ => false
  end.

(** [a === b] for a value read and a value of a flow definition. *)
Definition strict_eq_js (a : jsval) (b : value) : bool :=
  match a with
  | Data d => strict_eq d b
  | Native _ => false
  end.

(** [e.message || String(e)] for a caught [e].  For an [Error],
    [String(e)] is ["name: message"], and just the name when the message
    is empty.  For [null] and [undefined] the read of [message] throws,
    and so does the conversion of an object that is not printable. *)
Definition error_text (e : exn) : result value :=
  match e with
  | JsError name message =>
      Ok (VStr (if String.eqb message "" then name else message))
  | Thrown v =>
      let? message := get_field v "message" in
      if truthy message then Ok message
      else let? text := text_of v in Ok (VStr text)
  end.

(** * The flow engine ([src/flows/FlowEngine.js]) *)

Module FlowEngine.

(** ** Dotted paths and interpolation *)

(** What the engine is handed by its caller next to the event: the
    current snapshot and two optional callbacks.  A callback answers
    [None] when it returns and [Some e] when it throws [e].
    [addAiSystemMessage] is handed a bell sign and a blank followed by a
    text; the model hands the callback the text. *)
Record Context := {
  currentSnapshot : value;
  context_runCommand : option (value -> option exn);
  addAiSystemMessage : option (string -> option exn)
}.

(** The longest prefix of [s] without a closing brace, and what follows. *)
Fixpoint span_no_brace (s : string) : string * string :=
  match s with
  | EmptyString => (EmptyString, EmptyString)
  | String c s' =>
      if Ascii.eqb c "}"%char then (EmptyString, s)
      else let '(p, r) := span_no_brace s' in (String c p, r)
  end.

(** One match of [/\{\{([^}]+)\}\}/] anchored at the start of [s]: the
    captured path.  The class [[^}]+] is greedy and what follows it must
    be a brace, so there is nothing to backtrack to. *)
Definition match_token (s : string) : option string :=
  match s with
  | String "{" (String "{" r) =>
      match span_no_brace r with
      | (EmptyString, _) => None
      | (path, String "}" (String "}" _)) => Some path
      | _ => None
      end
  | _ => None
  end.

(** [s.replace(/\{\{([^}]+)\}\}/g, f)]: a left-to-right scan; [skip]
    counts the code units of the current match that are still to be
    passed over. *)
Fixpoint replace_tokens (f : string -> string -> result string) (skip : nat)
    (s : string) : result string :=
  match s with
  | EmptyString => Ok EmptyString
  | String c s' =>
      match skip with
      | S k => replace_tokens f k s'
      | O =>
          match match_token s with
          | Some path =>
              let? r := f ("{{" +:+ path +:+ "}}") path in
              let? rest := replace_tokens f (String.length path + 3) s' in
              Ok (r +:+ rest)
          | None =>
              let? rest := replace_tokens f 0 s' in
              Ok (String c rest)
          end
      end
  end.

Section Lookup.
Context {realm : Realm}.

(** The [for (const part of parts)] loop of [getValueFromPath]. *)
Fixpoint getValueFromPath_loop (current : jsval) (parts : list string)
  : result jsval :=
  match parts with
  | [] => Ok current
  | part :: rest =>
      if is_nullish_js current then Ok (Data VUndefined)
      else let? next := get_member current part in
           getValueFromPath_loop next rest
  end.

Definition getValueFromPath (obj : value) (path : string) : result jsval :=
  if negb (truthy obj) || String.eqb path "" then Ok (Data VUndefined)
  else getValueFromPath_loop (Data obj) (split_dot path).

(** [getValueFromPath(eventPayload, path) ||
     getValueFromPath(context.currentSnapshot, path)],
    the expression shared by [interpolateVariables] and
    [evaluateConditions]; the right operand is evaluated only when the
    left one is falsy. *)
Definition payload_or_snapshot (eventPayload : value) (context : Context)
    (path : string) : result jsval :=
  let? fromPayload := getValueFromPath eventPayload path in
  if truthy_js fromPayload then Ok fromPayload
  else getValueFromPath (currentSnapshot context) path.

(** The callback of the replacement:
    [value !== undefined ? String(value) : match]. *)
Definition substitute (eventPayload : value) (context : Context)
    (match_ path : string) : result string :=
  let? v := payload_or_snapshot eventPayload context path in
  if is_undefined_js v then Ok match_ else to_text v.

Definition interpolateVariables (str : value) (eventPayload : value)
    (context : Context) : result value :=
  match str with
  | VStr s =>
      let? r := replace_tokens (substitute eventPayload context) 0 s in
      Ok (VStr r)
  | _ => Ok str
  end.

End Lookup.

(** ** Conditions *)

Record Condition := {
  field : string;
  operator : string;
  expected : value   (* the [value] property *)
}.

(** [l.every(f)] *)
Fixpoint every {A} (f : A -> result bool) (l : list A) : result bool :=
  match l with
  | [] => Ok true
  | x :: rest => let? b := f x in if b then every f rest else Ok false
  end.

Section Conditions.
Context {realm : Realm}.

(** The callback of [conditions.every]: the field is read first, then the
    operator decides. *)
Definition holds (eventPayload : value) (context : Context)
    (condition : Condition) : result bool :=
  let expectedValue := expected condition in
  let? actualValue :=
    payload_or_snapshot eventPayload context (field condition) in
  let op := operator condition in
  if String.eqb op "equals" then
    Ok (strict_eq_js actualValue expectedValue)
  else if String.eqb op "not_equals" then
    Ok (negb (strict_eq_js actualValue expectedValue))
  else if String.eqb op "contains" then
    let? text := to_text actualValue in
    let? searched := text_of expectedValue in
    Ok (includes text searched)
  else if String.eqb op "greater_than" then
    number_lt (Data expectedValue) actualValue
  else if String.eqb op "less_than" then
    number_lt actualValue (Data expectedValue)
  else if String.eqb op "exists" then
    Ok (negb (is_nullish_js actualValue))
  else if String.eqb op "not_exists" then
    Ok (is_nullish_js actualValue)
  else Ok false.

Definition evaluateConditions (conditions : option (list Condition))
    (eventPayload : value) (context : Context) : result bool :=
  match conditions with
  | None | Some [] => Ok true
  | Some cs => every (holds eventPayload context) cs
  end.

End Conditions.

(** ** Effects of the action executors *)

(** What [console[level]] is: missing (or falsy), a function, or
    something truthy that cannot be called. *)
Inductive console_member := CAbsent | CFunction | COther.

(** The host the engine runs in. *)
Record Host := {
  (** [typeof Notification !== 'undefined' &&
       Notification.permission === 'granted'] *)
  notification_granted : bool;
  console_member_of : string -> console_member;
  (** [window.TasklyticsFlowClient.send], when it is a function *)
  flow_client_send : option (value -> option exn)
}.

(** The observable calls made by the engine, in the order made. *)
Inductive Effect :=
| ENotification (title body : value)
| EConsole (method : string) (args : list value)
| EConsoleError (prefix : string) (e : exn)
| EAiSystemMessage (text : string)   (* the bell sign, a blank and [text] *)
| ECommand (command : value)
| EBackendSend (message : value).

(** Executors run in a state-and-exception monad over the trace of
    effects; what was emitted before a throw stays emitted. *)
Definition M (A : Type) : Type := list Effect -> result A * list Effect.

Definition ret {A} (a : A) : M A := fun t => (Ok a, t).
Definition throw {A} (e : exn) : M A := fun t => (Throw e, t).
Definition lift {A} (r : result A) : M A := fun t => (r, t).
Definition emit (e : Effect) : M unit := fun t => (Ok tt, t ++ [e]).
Definition bind {A B} (m : M A) (k : A -> M B) : M B :=
  fun t =>
    match m t with
    | (Ok a, t') => k a t'
    | (Throw e, t') => (Throw e, t')
    end.

Notation "'let!' x ':=' m 'in' k" := (bind m (fun x => k))
  (at level 10, x pattern, m at level 100, k at level 200) : js_scope.
Notation "'seq!' m 'in' k" := (bind m (fun _ => k))
  (at level 10, m at level 100, k at level 200) : js_scope.

(** Calling a callback: the call is observed, then it returns or throws. *)
Definition call {A} (observe : A -> Effect) (f : A -> option exn) (a : A)
  : M unit :=
  seq! emit (observe a) in
  match f a with
  | None => ret tt
  | Some e => throw e
  end.

(** ** Action executors *)

Definition result_object (success : bool) (rest : list (string * value))
  : value :=
  VObj (("success", VBool success) :: rest).

Section Executors.
Context {realm : Realm}.

Definition showNotification (host : Host) (config eventPayload : value)
    (context : Context) : M value :=
  let! m := lift (get_field config "message") in
  let! message := lift (interpolateVariables m eventPayload context) in
  let! t := lift (get_field config "title") in
  let! title :=
    if truthy t then lift (interpolateVariables t eventPayload context)
    else ret (VStr "Flow Notification") in
  seq! (if notification_granted host then
          (* [new Notification(title, { body: message })] converts its
             title and its body to strings *)
          let! _ := lift (text_of title) in
          let! _ := lift (text_of message) in
          emit (ENotification title message)
        else emit (EConsole "log"
                     [VStr "[Flow Notification]"; title; VStr "-"; message])) in
  seq! (match addAiSystemMessage context with
        | Some f =>
            let! text := lift (text_of message) in
            call EAiSystemMessage f text
        | None => ret tt
        end) in
  ret (result_object true [("message", message)]).

(** The own enumerable properties visited by [for (key in v)]. *)
Definition own_entries (v : value) : list (string * value) :=
  match v with
  | VObj props => props
  | VArr xs => imap (fun i x => (pretty i, x)) xs
  | VStr s =>
      imap (fun i c => (pretty i, VStr (String c EmptyString)))
           (list_ascii_of_string s)
  | _ => []
  end.

(** The [for ... in] loop of [runCommand], filling [interpolatedParams]. *)
Fixpoint interpolate_params (entries : list (string * value))
    (eventPayload : value) (context : Context)
    (interpolatedParams : list (string * value))
  : result (list (string * value)) :=
  match entries with
  | [] => Ok interpolatedParams
  | (key, v) :: rest =>
      let? v' := interpolateVariables v eventPayload context in
      interpolate_params rest eventPayload context
        (set_assoc key v' interpolatedParams)
  end.

(** [{ ...props }] copied onto [target]. *)
Definition spread (target props : list (string * value))
  : list (string * value) :=
  fold_left (fun acc kv => set_assoc kv.1 kv.2 acc) props target.

Definition runCommand (config eventPayload : value) (context : Context)
  : M value :=
  match context_runCommand context with
  | None =>
      ret (result_object false
             [("reason", VStr "No runCommand function available")])
  | Some dispatch =>
      let! commandType := lift (get_field config "commandType") in
      let! p := lift (get_field config "params") in
      let params := if is_undefined p then VObj [] else p in
      let! interpolatedParams :=
        lift (interpolate_params (own_entries params) eventPayload context []) in
      let command := VObj (spread [("type", commandType)] interpolatedParams) in
      seq! call ECommand dispatch command in
      ret (result_object true [("command", command)])
  end.

Definition updateField (config eventPayload : value) (context : Context)
  : M value :=
  let! targetType := lift (get_field config "targetType") in
  let! fld := lift (get_field config "field") in
  let! tid := lift (get_field config "targetId") in
  let! targetId := lift (interpolateVariables tid eventPayload context) in
  let! v := lift (get_field config "value") in
  let! val := lift (interpolateVariables v eventPayload context) in
  match strict_eq targetType (VStr "task"), context_runCommand context with
  | true, Some dispatch =>
      seq! call ECommand dispatch
             (VObj [("type", VStr "UpdateTaskField"); ("taskId", targetId);
                    ("field", fld); ("value", val)]) in
      ret (result_object true
             [("updated",
               VObj [("targetId", targetId); ("field", fld); ("value", val)])])
  | _, _ =>
      let! text := lift (text_of targetType) in
      ret (result_object false
             [("reason", VStr ("Unsupported target type: " +:+ text))])
  end.

Definition logMessage (host : Host) (config eventPayload : value)
    (context : Context) : M value :=
  let! m := lift (get_field config "message") in
  let! message := lift (interpolateVariables m eventPayload context) in
  let! l := lift (get_field config "level") in
  let level := js_or l (VStr "info") in
  (* [console[level]]: the level is converted to a property name *)
  let! name := lift (text_of level) in
  seq! (match console_member_of host name with
        | CAbsent => ret tt
        | CFunction => emit (EConsole name [VStr "[Flow]"; message])
        | COther =>
            throw (type_error ("console[" +:+ name +:+ "] is not a function"))
        end) in
  ret (result_object true [("message", message); ("level", level)]).

End Executors.

Record Action := {
  action_type : string;   (* the [type] property *)
  config : value          (* [VUndefined] when the action has none *)
}.

Section Dispatch.
Context {realm : Realm}.

Definition executeAction (host : Host) (action : Action)
    (eventPayload : value) (context : Context) : M value :=
  let type := action_type action in
  let config := if is_undefined (config action) then VObj [] else config action in
  if String.eqb type "show_notification" then
    showNotification host config eventPayload context
  else if String.eqb type "run_command" then
    runCommand config eventPayload context
  else if String.eqb type "update_field" then
    updateField config eventPayload context
  else if String.eqb type "log_message" then
    logMessage host config eventPayload context
  else
    seq! emit (EConsole "warn"
                 [VStr "[FlowEngine] Unknown action type:"; VStr type]) in
    ret (result_object false
           [("reason", VStr ("Unknown action type: " +:+ type))]).

End Dispatch.

(** ** Flows and the execution log *)

Record Flow := {
  flow_id : string;                    (* [id] *)
  flow_name : string;                  (* [name] *)
  enabled : bool;
  flow_sendToBackend : option bool;    (* [sendToBackend], [None] when unset *)
  conditions : option (list Condition);
  actions : option (list Action)
}.

Inductive Status :=
| running | skipped | completed | completed_with_errors | failed.

Definition Status_eqb (a b : Status) : bool :=
  match a, b with
  | running, running | skipped, skipped | completed, completed
  | completed_with_errors, completed_with_errors | failed, failed => true
  | _, _ => false
  end.

(** An entry of [actionsPerformed]: [{ index, type, result }]. *)
Record Performed := {
  index : nat;
  performed_type : string;
  performed_result : value
}.

(** An entry of [errors]: [{ actionIndex, error }], or [{ error }] when
    pushed by the outer [catch]. *)
Record ErrorEntry := {
  actionIndex : option nat;
  error : value
}.

(** The Execution Record. *)
Record ExecutionLog := {
  id : string;
  flowId : string;
  flowName : string;
  eventType : value;
  startTime : string;
  status : Status;
  reason : option string;
  actionsPerformed : list Performed;
  errors : list ErrorEntry;
  duration : option Z
}.

Definition set_status (s : Status) (l : ExecutionLog) : ExecutionLog :=
  {| id := id l; flowId := flowId l; flowName := flowName l;
     eventType := eventType l; startTime := startTime l; status := s;
     reason := reason l; actionsPerformed := actionsPerformed l;
     errors := errors l; duration := duration l |}.

Definition set_reason (r : string) (l : ExecutionLog) : ExecutionLog :=
  {| id := id l; flowId := flowId l; flowName := flowName l;
     eventType := eventType l; startTime := startTime l; status := status l;
     reason := Some r; actionsPerformed := actionsPerformed l;
     errors := errors l; duration := duration l |}.

Definition set_duration (d : Z) (l : ExecutionLog) : ExecutionLog :=
  {| id := id l; flowId := flowId l; flowName := flowName l;
     eventType := eventType l; startTime := startTime l; status := status l;
     reason := reason l; actionsPerformed := actionsPerformed l;
     errors := errors l; duration := Some d |}.

(** [executionLog.actionsPerformed.push(p)] *)
Definition push_performed (p : Performed) (l : ExecutionLog) : ExecutionLog :=
  {| id := id l; flowId := flowId l; flowName := flowName l;
     eventType := eventType l; startTime := startTime l; status := status l;
     reason := reason l; actionsPerformed := actionsPerformed l ++ [p];
     errors := errors l; duration := duration l |}.

(** [executionLog.errors.push(e)] *)
Definition push_error (e : ErrorEntry) (l : ExecutionLog) : ExecutionLog :=
  {| id := id l; flowId := flowId l; flowName := flowName l;
     eventType := eventType l; startTime := startTime l; status := status l;
     reason := reason l; actionsPerformed := actionsPerformed l;
     errors := errors l ++ [e]; duration := duration l |}.

(** What one call reads from the clock and the random generator:
    [Date.now()] and [Math.random().toString(16).slice(2)] for the
    execution id, [Date.now()] and [new Date().toISOString()] at the
    start, the time stamp of the relay and [Date.now()] at the end. *)
Record Readings := {
  id_ms : Z;
  id_random : string;
  start_ms : Z;
  start_iso : string;
  relay_iso : string;
  end_ms : Z
}.

Definition sendToBackend (host : Host) (rd : Readings) (flow : Flow)
    (eventPayload : value) (executionLog : ExecutionLog) : M unit :=
  let! et := lift (get_field eventPayload "eventType") in
  let! tk := lift (get_field eventPayload "targetKey") in
  let message :=
    VObj [("flowId", VStr (flow_id flow)); ("flowName", VStr (flow_name flow));
          ("eventType", et); ("targetKey", tk); ("payload", eventPayload);
          ("executionId", VStr (id executionLog));
          ("timestamp", VStr (relay_iso rd))] in
  match flow_client_send host with
  | Some send =>
      seq! emit (EBackendSend message) in
      match send message with
      | None => ret tt
      | Some e => emit (EConsoleError "[FlowEngine] Backend send error:" e)
      end
  | None => emit (EConsole "log" [VStr "[Flow event to backend]"; message])
  end.

(** The module-level [flowExecutionHistory] (most recent first) and the
    trace of effects. *)
Record World := {
  flowExecutionHistory : list ExecutionLog;
  effects : list Effect
}.

(** What [executeFlow] returns: [{ success: false, reason }],
    [{ success: false, reason, executionId }], or
    [{ success, executionId, actionsPerformed, errors }]. *)
Inductive ExecutionResult :=
| Refused (reason : string)
| NotMet (reason : string) (executionId : string)
| Executed (success : bool) (executionId : string) (actionsPerformed : nat)
    (errors : list ErrorEntry).

Section Execution.
Context {realm : Realm}.

(** The [forEach] over [flow.actions], with its per-action [try]/[catch].
    The handler evaluates [actionError.message || String(actionError)]
    before it pushes: when that throws, the exception leaves the loop,
    and is the first component of the result. *)
Fixpoint forEach_action (host : Host) (actions : list Action) (index : nat)
    (eventPayload : value) (context : Context)
    (executionLog : ExecutionLog) (t : list Effect)
  : option exn * ExecutionLog * list Effect :=
  match actions with
  | [] => (None, executionLog, t)
  | action :: rest =>
      let '(r, t') := executeAction host action eventPayload context t in
      match r with
      | Ok res =>
          forEach_action host rest (S index) eventPayload context
            (push_performed
               {| index := index; performed_type := action_type action;
                  performed_result := res |} executionLog) t'
      | Throw actionError =>
          match error_text actionError with
          | Ok text =>
              forEach_action host rest (S index) eventPayload context
                (push_error {| actionIndex := Some index; error := text |}
                   executionLog) t'
          | Throw e => (Some e, executionLog, t')
          end
      end
  end.

(** The statements after the outer [try]/[catch]: the record goes to the
    front of the history, which is cut back to its first 100 entries. *)
Definition record_and_return (executionLog : ExecutionLog)
    (history : list ExecutionLog) (t : list Effect)
  : result ExecutionResult * World :=
  let history1 := executionLog :: history in
  let history2 :=
    if (100 <? length history1)%nat then take 100 history1 else history1 in
  (Ok (Executed (Status_eqb (status executionLog) completed)
         (id executionLog)
         (length (actionsPerformed executionLog))
         (errors executionLog)),
   {| flowExecutionHistory := history2; effects := t |}).

(** The outer [catch (error)]:
    [executionLog.status = 'failed';
     executionLog.errors.push({ error: error.message || String(error) })]. *)
Definition catch_failed (e : exn) (executionLog : ExecutionLog)
  : result ExecutionLog :=
  let? text := error_text e in
  Ok (push_error {| actionIndex := None; error := text |}
        (set_status failed executionLog)).

(** What follows an exception caught by the outer [catch]. *)
Definition fail_and_return (e : exn) (executionLog : ExecutionLog)
    (history : list ExecutionLog) (t : list Effect)
  : result ExecutionResult * World :=
  match catch_failed e executionLog with
  | Ok executionLog' => record_and_return executionLog' history t
  | Throw e' => (Throw e', {| flowExecutionHistory := history; effects := t |})
  end.

Definition executeFlow (host : Host) (rd : Readings) (flow : option Flow)
    (eventPayload : value) (context : Context) (w : World)
  : result ExecutionResult * World :=
  (* if (!flow || !flow.enabled) return { success: false, reason: ... }; *)
  match flow with
  | None => (Ok (Refused "Flow disabled or not found"), w)
  | Some fl =>
      if negb (enabled fl) then (Ok (Refused "Flow disabled or not found"), w)
      else
        let executionId :=
          "exec-" +:+ number_text (id_ms rd) +:+ "-" +:+ id_random rd in
        (* eventType: eventPayload.eventType, read outside the try *)
        match get_field eventPayload "eventType" with
        | Throw e => (Throw e, w)
        | Ok et =>
            let executionLog :=
              {| id := executionId; flowId := flow_id fl;
                 flowName := flow_name fl; eventType := et;
                 startTime := start_iso rd; status := running;
                 reason := None; actionsPerformed := []; errors := [];
                 duration := None |} in
            let history := flowExecutionHistory w in
            (* try { if (flow.conditions && flow.conditions.length > 0) ... *)
            let conditionsMet :=
              match conditions fl with
              | Some (c :: cs) =>
                  evaluateConditions (Some (c :: cs)) eventPayload context
              | _ => Ok true
              end in
            match conditionsMet with
            | Throw e => fail_and_return e executionLog history (effects w)
            | Ok false =>
                (* executionLog.status = 'skipped'; executionLog.reason = ...;
                   flowExecutionHistory.unshift(executionLog);
                   return { success: false, reason, executionId }; *)
                let executionLog1 :=
                  set_reason "Conditions not met"
                    (set_status skipped executionLog) in
                (Ok (NotMet "Conditions not met" executionId),
                 {| flowExecutionHistory := executionLog1 :: history;
                    effects := effects w |})
            | Ok true =>
                (* if (flow.actions && flow.actions.length > 0)
                     flow.actions.forEach(...) *)
                let '(thrown, executionLog1, t1) :=
                  match actions fl with
                  | Some (a :: rest) =>
                      forEach_action host (a :: rest) 0 eventPayload context
                        executionLog (effects w)
                  | _ => (None, executionLog, effects w)
                  end in
                match thrown with
                | Some e => fail_and_return e executionLog1 history t1
                | None =>
                (* if (flow.sendToBackend !== false) sendToBackend(...) *)
                let '(sent, t2) :=
                  match flow_sendToBackend fl with
                  | Some false => (Ok tt, t1)
                  | _ => sendToBackend host rd fl eventPayload executionLog1 t1
                  end in
                match sent with
                | Throw e => fail_and_return e executionLog1 history t2
                | Ok _ =>
                    (* executionLog.status = executionLog.errors.length > 0
                         ? 'completed_with_errors' : 'completed';
                       executionLog.duration = Date.now() - startTime; *)
                    let executionLog2 :=
                      set_duration (end_ms rd - start_ms rd)
                        (set_status
                           (if (0 <? length (errors executionLog1))%nat
                            then completed_with_errors else completed)
                           executionLog1) in
                    record_and_return executionLog2 history t2
                end
                end
            end
        end
  end.

End Execution.

(** [getExecutionHistory(limit = 50)]: [flowExecutionHistory.slice(0, limit)].
    The limit is an integer; a negative one counts from the end. *)
Definition getExecutionHistory (limit : option Z) (w : World)
  : list ExecutionLog :=
  let log := flowExecutionHistory w in
  let limit := default 50%Z limit in
  if (limit <? 0)%Z then take (Z.to_nat (Z.of_nat (length log) + limit)) log
  else take (Z.to_nat limit) log.

Definition clearExecutionHistory (w : World) : World :=
  {| flowExecutionHistory := []; effects := effects w |}.

End FlowEngine.

(** * Objects in a store *)

Module Heap.

Abbreviation loc := nat.

(** A value as a program holds it: a primitive, or a reference to an
    object or array of the store. *)
Inductive hval :=
| HUndefined
| HNull
| HBool (b : bool)
| HNum (n : Z)
| HStr (s : string)
| HRef (l : loc).

(** An object is its list of own properties; an array is its elements,
    and the named properties it was given besides. *)
Inductive cell :=
| CObj (props : list (string * hval))
| CArr (elems : list hval) (extra : list (string * hval)).

(** The store grows at its end; a cell is never removed. *)
Abbreviation store := (list cell).

Definition h_truthy (v : hval) : bool :=
  match v with
  | HUndefined | HNull => false
  | HBool b => b
  | HNum n => negb (n =? 0)%Z
  | HStr s => negb (String.eqb s "")
  | HRef _ => true
  end.

(** The values held by a cell. *)
Definition cell_values (c : cell) : list hval :=
  match c with
  | CObj props => props.*2
  | CArr elems extra => elems ++ extra.*2
  end.

(** ** [JSON.stringify] and [JSON.parse] *)

Definition circular : exn :=
  type_error "Converting circular structure to JSON".
Definition stack_overflow : exn :=
  JsError "RangeError" "Maximum call stack size exceeded".
(** A reference always denotes a cell; looking up one that does not has
    no counterpart in JavaScript. *)
Definition dangling : exn := JsError "InternalError" "dangling reference".

(** The properties of an object: one whose value serializes to
    [undefined] is left out. *)
Fixpoint stringify_props (f : hval -> result value)
    (props : list (string * hval)) : result (list (string * value)) :=
  match props with
  | [] => Ok []
  | (k, v) :: rest =>
      let? t := f v in
      let? ts := stringify_props f rest in
      Ok (if is_undefined t then ts else (k, t) :: ts)
  end.

(** The elements of an array: [undefined] is written [null]. *)
Fixpoint stringify_elems (f : hval -> result value) (elems : list hval)
  : result (list value) :=
  match elems with
  | [] => Ok []
  | v :: rest =>
      let? t := f v in
      let? ts := stringify_elems f rest in
      Ok ((if is_undefined t then VNull else t) :: ts)
  end.

(** The serialization of a value, as the tree of the JSON text.  [stack]
    holds the objects being serialized, as in the language definition: a
    value met again inside itself is a [TypeError].  [fuel] bounds the
    nesting depth; [length σ] is always enough
    ([stringify_fuel_suffices]). *)
Fixpoint stringify_value (fuel : nat) (σ : store) (stack : list loc)
    (v : hval) : result value :=
  match v with
  | HUndefined => Ok VUndefined
  | HNull => Ok VNull
  | HBool b => Ok (VBool b)
  | HNum n => Ok (VNum n)
  | HStr s => Ok (VStr s)
  | HRef l =>
      if bool_decide (l ∈ stack) then Throw circular
      else
        match σ !! l, fuel with
        | None, _ => Throw dangling
        | Some _, O => Throw stack_overflow
        | Some (CObj props), S fuel' =>
            let? ps :=
              stringify_props (stringify_value fuel' σ (l :: stack)) props in
            Ok (VObj ps)
        | Some (CArr elems _), S fuel' =>
            let? xs :=
              stringify_elems (stringify_value fuel' σ (l :: stack)) elems in
            Ok (VArr xs)
        end
  end.

(** [JSON.stringify(v)]; the tree [VUndefined] stands for the answer
    [undefined], which is not a text. *)
Definition JSON_stringify (σ : store) (v : hval) : result value :=
  stringify_value (length σ) σ [] v.

(** Building the value of a JSON text: every object and array of the
    text is a new cell. *)
Fixpoint parse_value (t : value) (σ : store) : hval * store :=
  match t with
  | VUndefined => (HUndefined, σ)
  | VNull => (HNull, σ)
  | VBool b => (HBool b, σ)
  | VNum n => (HNum n, σ)
  | VStr s => (HStr s, σ)
  | VArr xs =>
      let '(hs, σ1) :=
        (fix elems (l : list value) (σ : store) : list hval * store :=
           match l with
           | [] => ([], σ)
           | x :: r =>
               let '(h, σ1) := parse_value x σ in
               let '(hs, σ2) := elems r σ1 in
               (h :: hs, σ2)
           end) xs σ in
      (HRef (length σ1), σ1 ++ [CArr hs []])
  | VObj props =>
      let '(hps, σ1) :=
        (fix members (l : list (string * value)) (σ : store)
           : list (string * hval) * store :=
           match l with
           | [] => ([], σ)
           | (k, x) :: r =>
               let '(h, σ1) := parse_value x σ in
               let '(hs, σ2) := members r σ1 in
               ((k, h) :: hs, σ2)
           end) props σ in
      (HRef (length σ1), σ1 ++ [CObj hps])
  end.

(** [JSON.parse(text)]; the text ["undefined"] is a [SyntaxError]. *)
Definition JSON_parse (text : value) (σ : store) : result (hval * store) :=
  match text with
  | VUndefined =>
      Throw (JsError "SyntaxError" "Unexpected token u in JSON at position 0")
  | _ => Ok (parse_value text σ)
  end.

(** ** Reading and writing properties *)

(** [v[key]] for a property name that is neither an index nor [length]. *)
Definition read_named (σ : store) (v : hval) (key : string) : result hval :=
  match v with
  | HUndefined =>
      Throw (type_error
        ("Cannot read properties of undefined (reading '" +:+ key +:+ "')"))
  | HNull =>
      Throw (type_error
        ("Cannot read properties of null (reading '" +:+ key +:+ "')"))
  | HRef l =>
      match σ !! l with
      | Some (CObj props) => Ok (default HUndefined (assoc key props))
      | Some (CArr _ extra) => Ok (default HUndefined (assoc key extra))
      | None => Throw dangling
      end
  | _ => Ok HUndefined
  end.

(** [target[key] = v] in strict code, for such a property name: on an
    object or an array the property is set; on anything else the
    assignment throws. *)
Definition assign_named (target : hval) (key : string) (v : hval)
    (σ : store) : result store :=
  match target with
  | HRef l =>
      match σ !! l with
      | Some (CObj props) => Ok (<[l := CObj (set_assoc key v props)]> σ)
      | Some (CArr elems extra) =>
          Ok (<[l := CArr elems (set_assoc key v extra)]> σ)
      | None => Throw dangling
      end
  | HUndefined =>
      Throw (type_error
        ("Cannot set properties of undefined (setting '" +:+ key +:+ "')"))
  | HNull =>
      Throw (type_error
        ("Cannot set properties of null (setting '" +:+ key +:+ "')"))
  | _ =>
      Throw (type_error ("Cannot create property '" +:+ key +:+ "'"))
  end.

(** The own enumerable properties copied by [{ ...v }]. *)
Definition spread_entries (σ : store) (v : hval) : list (string * hval) :=
  match v with
  | HRef l =>
      match σ !! l with
      | Some (CObj props) => props
      | Some (CArr elems extra) =>
          imap (fun i x => (pretty i, x)) elems ++ extra
      | None => []
      end
  | HStr s =>
      imap (fun i c => (pretty i, HStr (String c EmptyString)))
           (list_ascii_of_string s)
  | _ => []
  end.

(** ToString.  An object prints as ["[object Object]"]; an array prints
    as its serialized elements do (an array that contains itself is not
    workspace data and prints as the empty string). *)
Definition h_to_string (σ : store) (v : hval) : string :=
  match v with
  | HUndefined => "undefined"
  | HNull => "null"
  | HBool b => to_string (VBool b)
  | HNum n => to_string (VNum n)
  | HStr s => s
  | HRef l =>
      match σ !! l with
      | Some (CArr _ _) =>
          match JSON_stringify σ v with
          | Ok t => to_string t
          | Throw _ => ""
          end
      | _ => "[object Object]"
      end
  end.

(** ** What a callback does to the store *)

(** A JavaScript function, seen from its caller, allocates cells and
    overwrites existing ones, in some order. *)
Inductive heap_op :=
| Alloc (c : cell)
| Write (l : loc) (c : cell).

Definition apply_op (σ : store) (op : heap_op) : store :=
  match op with
  | Alloc c => σ ++ [c]
  | Write l c => <[l := c]> σ
  end.

Definition apply_ops (σ : store) (ops : list heap_op) : store :=
  fold_left apply_op ops σ.

End Heap.

(** * The history engine (the [useHistory] hook) *)

Module History.
Import Heap.

Open Scope Z_scope.

(** The three pieces of React state of the hook. *)
Record State := {
  history : list hval;
  currentIndex : Z;
  commitIndex : Z
}.

(** [useHistory(initialSnapshot)]: the state at the first render. *)
Definition useHistory (initialSnapshot : hval) : State :=
  {| history := [initialSnapshot]; currentIndex := 0; commitIndex := 0 |}.

(** [list[i]] for an integer [i]: [undefined] outside the list. *)
Definition at_index (xs : list hval) (i : Z) : hval :=
  if i <? 0 then HUndefined else default HUndefined (xs !! Z.to_nat i).

(** [list.slice(0, e)]: a negative [e] counts from the end. *)
Definition slice0 (xs : list hval) (e : Z) : list hval :=
  if e <? 0 then take (Z.to_nat (Z.of_nat (length xs) + e)) xs
  else take (Z.to_nat e) xs.

(** ** Derived state *)

Definition currentSnapshot (s : State) : hval :=
  at_index (history s) (currentIndex s).
Definition uncommittedSteps (s : State) : Z := currentIndex s - commitIndex s.
Definition canUndo (s : State) : bool := commitIndex s <? currentIndex s.
Definition canRedo (s : State) : bool :=
  currentIndex s <? Z.of_nat (length (history s)) - 1.

(** ** The five operations

    Each operation is a closure made by one render: it reads the state
    [r] of that render, and the updaters it hands to React transform the
    pending state [p].  It also runs against the store [σ].  The result
    is what the call returns or throws, the store and the pending state
    after it. *)

(** A mutator is handed the clone and answers with what it did to the
    store and, when it throws, the exception. *)
Definition Mutator := hval -> store -> list heap_op * option exn.

Definition applyChange (r : State) (label : string) (mutator : option Mutator)
    (now : string) (σ : store) (p : State) : result unit * store * State :=
  (* const base = currentSnapshot; *)
  let base := currentSnapshot r in
  (* const clone = JSON.parse(JSON.stringify(base)); *)
  match JSON_stringify σ base with
  | Throw e => (Throw e, σ, p)
  | Ok text =>
      match JSON_parse text σ with
      | Throw e => (Throw e, σ, p)
      | Ok (clone, σ1) =>
          (* if (typeof mutator === 'function') mutator(clone); *)
          let '(ops, thrown) :=
            match mutator with
            | Some m => m clone σ1
            | None => ([], None)
            end in
          let σ2 := apply_ops σ1 ops in
          match thrown with
          | Some e => (Throw e, σ2, p)
          | None =>
              (* const stepId = history.length; clone.id = stepId;
                 clone.label = label;
                 clone.timestamp = new Date().toLocaleTimeString(); *)
              let stepId := Z.of_nat (length (history r)) in
              match assign_named clone "id" (HNum stepId) σ2 with
              | Throw e => (Throw e, σ2, p)
              | Ok σ3 =>
              match assign_named clone "label" (HStr label) σ3 with
              | Throw e => (Throw e, σ3, p)
              | Ok σ4 =>
              match assign_named clone "timestamp" (HStr now) σ4 with
              | Throw e => (Throw e, σ4, p)
              | Ok σ5 =>
                  (* setHistory(prev =>
                       [...prev.slice(0, currentIndex + 1), clone]);
                     setCurrentIndex(prev => prev + 1); *)
                  (Ok tt, σ5,
                   {| history :=
                        slice0 (history p) (currentIndex r + 1) ++ [clone];
                      currentIndex := currentIndex p + 1;
                      commitIndex := commitIndex p |})
              end end end
          end
      end
  end.

(** [if (!canUndo) return; setCurrentIndex(prev => prev - 1);] *)
Definition undo (r : State) (p : State) : State :=
  if negb (canUndo r) then p
  else {| history := history p; currentIndex := currentIndex p - 1;
          commitIndex := commitIndex p |}.

(** [if (!canRedo) return; setCurrentIndex(prev => prev + 1);] *)
Definition redo (r : State) (p : State) : State :=
  if negb (canRedo r) then p
  else {| history := history p; currentIndex := currentIndex p + 1;
          commitIndex := commitIndex p |}.

Definition commit (r : State) (σ : store) (p : State) : store * State :=
  (* setHistory(prev => { const list = [...prev];
       const snap = list[currentIndex]; if (!snap) return prev; *)
  let snap := at_index (history p) (currentIndex r) in
  let '(σ', history') :=
    if negb (h_truthy snap) then (σ, history p)
    else
      (* const updated = { ...snap, committed: true,
           label: `${snap.label || 'Snapshot'} (committed)` };
         list[currentIndex] = updated; return list; }) *)
      let label :=
        match read_named σ snap "label" with
        | Ok l => if h_truthy l then l else HStr "Snapshot"
        | Throw _ => HStr "Snapshot"
        end in
      let updated :=
        CObj (set_assoc "label"
                (HStr (h_to_string σ label +:+ " (committed)"))
                (set_assoc "committed" (HBool true) (spread_entries σ snap))) in
      (σ ++ [updated],
       <[Z.to_nat (currentIndex r) := HRef (length σ)]> (history p)) in
  (* setCommitIndex(currentIndex); *)
  (σ',
   {| history := history'; currentIndex := currentIndex p;
      commitIndex := currentIndex r |}).

(** [if (index < commitIndex || index < 0 || index >= history.length)
     return; setCurrentIndex(index);]  The index is an integer, as the
    history panel hands them out. *)
Definition jump (r : State) (index : Z) (p : State) : State :=
  if (index <? commitIndex r) || (index <? 0)
     || (Z.of_nat (length (history r)) <=? index)
  then p
  else {| history := history p; currentIndex := index;
          commitIndex := commitIndex p |}.

(** ** The engine seen by its user

    The hook and the store together; every operation is called on the
    render that follows the previous one, so that the closure reads the
    state the updaters transform. *)
Record Engine := {
  heap : store;
  state : State
}.

Inductive Op :=
| ApplyChange (label : string) (mutator : option Mutator) (now : string)
| Undo
| Redo
| Commit
| Jump (index : Z).

(** One call; an exception thrown by [applyChange] reaches the caller
    and the state is what it was. *)
Definition step (e : Engine) (op : Op) : Engine :=
  let s := state e in
  match op with
  | ApplyChange label mutator now =>
      let '(_, σ', s') := applyChange s label mutator now (heap e) s in
      {| heap := σ'; state := s' |}
  | Undo => {| heap := heap e; state := undo s s |}
  | Redo => {| heap := heap e; state := redo s s |}
  | Commit => let '(σ', s') := commit s (heap e) s in
              {| heap := σ'; state := s' |}
  | Jump index => {| heap := heap e; state := jump s index s |}
  end.

Definition run (e : Engine) (ops : list Op) : Engine := fold_left step ops e.

(** The mounted hook. *)
Definition mount (σ : store) (initialSnapshot : hval) : Engine :=
  {| heap := σ; state := useHistory initialSnapshot |}.

End History.

(** * The history panel (the [HistoryPanel] component)

    The panel is rendered by the application with the hook's [history],
    [currentIndex] and [commitIndex] as properties and the hook's [jump],
    [undo] and [redo] as [onJump], [onUndo] and [onRedo]. *)
Module HistoryPanel.
Import History.
Open Scope Z_scope.

Definition stepsSinceCommit (s : State) : Z := currentIndex s - commitIndex s.
Definition canUndo (s : State) : bool := 0 <? currentIndex s.
Definition canRedo (s : State) : bool :=
  currentIndex s <? Z.of_nat (length (history s)) - 1.

Definition isCurrent (s : State) (idx : Z) : bool := idx =? currentIndex s.
Definition isCommitted (s : State) (idx : Z) : bool := idx =? commitIndex s.
Definition canJumpTo (s : State) (idx : Z) : bool :=
  (0 <=? idx) && (idx <=? commitIndex s).

(** [if (canJumpTo(idx) && onJump) onJump(idx);] *)
Definition handleJump (r : State) (idx : Z) (p : State) : State :=
  if canJumpTo r idx then jump r idx p else p.

(** [if (canUndo && onUndo) onUndo();] *)
Definition handleUndo (r : State) (p : State) : State :=
  if canUndo r then undo r p else p.

(** [if (canRedo && onRedo) onRedo();] *)
Definition handleRedo (r : State) (p : State) : State :=
  if canRedo r then redo r p else p.

End HistoryPanel.

(** * Objects used as maps *)

(** What [object[key]] answers for an object literal whose own
    properties are the map [o]. *)
Inductive member (A : Type) : Type :=
| Own (a : A)
| Inherited (name : string)
| Missing.
Arguments Own {A} a.
Arguments Inherited {A} name.
Arguments Missing {A}.

Definition get_property {A} (o : gmap string A) (key : string) : member A :=
  match o !! key with
  | Some a => Own a
  | None =>
      if bool_decide (key ∈ Object_prototype_members) then Inherited key
      else Missing
  end.

(** [f.length] for the inherited function [name]; [None] for
    [__proto__], the one inherited member that is no function. *)
Definition inherited_length (name : string) : option nat :=
  if String.eqb name "__proto__" then None
  else if bool_decide (name ∈ ["toString"; "valueOf"; "toLocaleString"])
  then Some 0%nat
  else if bool_decide (name ∈ ["__defineGetter__"; "__defineSetter__"])
  then Some 2%nat
  else Some 1%nat.

(** * The flow bindings (the [useFlows] hook) *)

Module UseFlows.
Import FlowEngine.

(** A binding: [{ id, flowId, eventType }]. *)
Record Binding := {
  binding_id : string;
  binding_flowId : value;
  binding_eventType : value
}.

(** The four pieces of React state of the hook.  The flows of the
    library and the selected target are the objects the components hand
    in; the bindings are an object used as a map from target keys. *)
Record State := {
  flowLibrary : list value;
  flowBindings : gmap string (list Binding);
  flowMode : bool;
  selectedFlowTarget : value
}.

(** [useFlows(initialFlowLibrary)]: the state at the first render. *)
Definition useFlows (initialFlowLibrary : list value) : State :=
  {| flowLibrary := initialFlowLibrary; flowBindings := ∅;
     flowMode := false; selectedFlowTarget := VNull |}.

(** [`task:${taskId}`] *)
Definition flowTargetKeyForTask (taskId : value) : string :=
  "task:" +:+ to_string taskId.

(** What [getFlowBindingsForTarget] answers: a list of bindings, or the
    member of [Object.prototype] the key names. *)
Inductive Bindings :=
| BList (bindings : list Binding)
| BInherited (name : string).

(** [flowBindings[targetKey] || []] *)
Definition getFlowBindingsForTarget (s : State) (targetKey : string)
  : Bindings :=
  match get_property (flowBindings s) targetKey with
  | Own arr => BList arr
  | Inherited name => BInherited name
  | Missing => BList []
  end.

(** [prev.findIndex((f) => f.id === flowDef.id)]; [None] is [-1]. *)
Fixpoint findIndex_id (prev : list value) (flowDef : value) (i : nat)
  : result (option nat) :=
  match prev with
  | [] => Ok None
  | f :: rest =>
      let? fid := get_field f "id" in
      let? did := get_field flowDef "id" in
      if strict_eq fid did then Ok (Some i)
      else findIndex_id rest flowDef (S i)
  end.

(** The updater of [saveFlow], and the state it leaves. *)
Definition saveFlow (flowDef : value) (p : State) : result State :=
  let? existingIndex := findIndex_id (flowLibrary p) flowDef 0 in
  let library :=
    match existingIndex with
    | Some i => <[i := flowDef]> (flowLibrary p)
    | None => flowLibrary p ++ [flowDef]
    end in
  Ok {| flowLibrary := library; flowBindings := flowBindings p;
        flowMode := flowMode p; selectedFlowTarget := selectedFlowTarget p |}.

(** [setFlowMode((prev) => { const next = !prev;
      if (!next) setSelectedFlowTarget(null); return next; })] *)
Definition toggleFlowMode (p : State) : State :=
  let next := negb (flowMode p) in
  {| flowLibrary := flowLibrary p; flowBindings := flowBindings p;
     flowMode := next;
     selectedFlowTarget := if next then selectedFlowTarget p else VNull |}.

(** [!target || !target.key] *)
Definition no_target (target : value) : bool :=
  if truthy target then
    match get_field target "key" with
    | Ok k => negb (truthy k)
    | Throw _ => true
    end
  else true.

(** The key of a target that passed the test, as a property name. *)
Definition target_key (target : value) : string :=
  match get_field target "key" with
  | Ok k => to_string k
  | Throw _ => ""
  end.

Definition handleFlowTargetClick (target : value) (p : State) : State :=
  if no_target target then p
  else {| flowLibrary := flowLibrary p; flowBindings := flowBindings p;
          flowMode := flowMode p; selectedFlowTarget := target |}.

Definition not_iterable (name : string) : exn :=
  type_error ("next[targetKey] is not iterable (" +:+ name +:+ ")").

(** [next[targetKey] ? [...next[targetKey]] : []] on the copy of the
    bindings: spreading an inherited member throws. *)
Definition bindings_copy (prev : gmap string (list Binding))
    (targetKey : string) : result (list Binding) :=
  match get_property prev targetKey with
  | Own arr => Ok arr
  | Missing => Ok []
  | Inherited name => Throw (not_iterable name)
  end.

Definition with_bindings (p : State) (b : gmap string (list Binding))
  : State :=
  {| flowLibrary := flowLibrary p; flowBindings := b;
     flowMode := flowMode p; selectedFlowTarget := selectedFlowTarget p |}.

(** [attachFlow(flowId, eventType = 'task.dropped')], called on the
    render [r]; [ms] and [random] are what the clock and the generator
    answer for the id of the binding.  The result is the state after
    React has run the updater, or what the updater throws. *)
Definition attachFlow (r : State) (flowId eventType : value) (ms : Z)
    (random : string) (p : State) : result State :=
  if no_target (selectedFlowTarget r) then Ok p
  else
    let targetKey := target_key (selectedFlowTarget r) in
    let eventType :=
      if is_undefined eventType then VStr "task.dropped" else eventType in
    let? arr := bindings_copy (flowBindings p) targetKey in
    let binding :=
      {| binding_id := "binding-" +:+ number_text ms +:+ "-" +:+ random;
         binding_flowId := flowId; binding_eventType := eventType |} in
    Ok (with_bindings p (<[targetKey := arr ++ [binding]]> (flowBindings p))).

(** [detachFlow(bindingId)] *)
Definition detachFlow (r : State) (bindingId : value) (p : State)
  : result State :=
  if no_target (selectedFlowTarget r) then Ok p
  else
    let targetKey := target_key (selectedFlowTarget r) in
    let? arr := bindings_copy (flowBindings p) targetKey in
    let filtered :=
      filter (fun b => strict_eq (VStr (binding_id b)) bindingId = false) arr in
    Ok (with_bindings p
          (match filtered with
           | [] => delete targetKey (flowBindings p)
           | _ => <[targetKey := filtered]> (flowBindings p)
           end)).

(** What [fireFlowsForEvent] does that can be seen. *)
Inductive Effect :=
| Warn (flowId : value)                  (* [console.warn('[Flow] Flow not found:', flowId)] *)
| Execute (flow safePayload : value)     (* [executionCallback(flow, safePayload)] *)
| WouldExecute (name eventType : value). (* [console.log('[Flow] Would execute:', ...)] *)

(** [flowLibrary.find((f) => f.id === flowId)]; [None] is [undefined]. *)
Fixpoint find_flow (library : list value) (flowId : value)
  : result (option value) :=
  match library with
  | [] => Ok None
  | f :: rest =>
      let? fid := get_field f "id" in
      if strict_eq fid flowId then Ok (Some f) else find_flow rest flowId
  end.

(** The body of [bindings.forEach]; a callback that is no function is
    [None]. *)
Fixpoint forEach_binding (library : list value) (eventType : value)
    (safePayload : value)
    (executionCallback : option (value -> value -> option exn))
    (bindings : list Binding) (t : list Effect)
  : result unit * list Effect :=
  match bindings with
  | [] => (Ok tt, t)
  | binding :: rest =>
      let continue t' :=
        forEach_binding library eventType safePayload executionCallback
          rest t' in
      if truthy (binding_eventType binding)
         && negb (strict_eq (binding_eventType binding) eventType)
      then continue t
      else
        match find_flow library (binding_flowId binding) with
        | Throw e => (Throw e, t)
        | Ok found =>
            let flow := default VUndefined found in
            if negb (truthy flow)
            then continue (t ++ [Warn (binding_flowId binding)])
            else
              match executionCallback with
              | Some callback =>
                  match callback flow safePayload with
                  | None => continue (t ++ [Execute flow safePayload])
                  | Some e => (Throw e, t ++ [Execute flow safePayload])
                  end
              | None =>
                  match get_field flow "name" with
                  | Ok name => continue (t ++ [WouldExecute name eventType])
                  | Throw e => (Throw e, t)
                  end
              end
        end
  end.

(** The properties of [{ ...payload, eventType }], for
    [payload = {}] when there is none. *)
Definition safe_props (eventType payload : value) : list (string * value) :=
  set_assoc "eventType" eventType
    (spread [] (own_entries (if is_undefined payload then VObj [] else payload))).

(** [fireFlowsForEvent(eventType, payload = {}, executionCallback)] *)
Definition fireFlowsForEvent (s : State) (eventType payload : value)
    (executionCallback : option (value -> value -> option exn))
    (t : list Effect) : result unit * list Effect :=
  if negb (truthy eventType) then (Ok tt, t)
  else
    (* const safePayload = { ...payload, eventType }; *)
    let props := safe_props eventType payload in
    let safePayload := VObj props in
    (* safePayload.targetKey ||
       (safePayload.taskId ? flowTargetKeyForTask(safePayload.taskId) : null) *)
    let taskId := default VUndefined (assoc "taskId" props) in
    let targetKey :=
      js_or (default VUndefined (assoc "targetKey" props))
        (if truthy taskId then VStr (flowTargetKeyForTask taskId) else VNull) in
    if negb (truthy targetKey) then (Ok tt, t)
    else
      match getFlowBindingsForTarget s (to_string targetKey) with
      | BList [] => (Ok tt, t)
      | BList bindings =>
          forEach_binding (flowLibrary s) eventType safePayload
            executionCallback bindings t
      | BInherited name =>
          (* a function of length 0 passes for an empty list; anything
             else has no [forEach] *)
          match inherited_length name with
          | Some O => (Ok tt, t)
          | _ => (Throw (type_error "bindings.forEach is not a function"), t)
          end
      end.

End UseFlows.

(** What [table[key]] answers for an object literal whose own properties
    are the association list [table]. *)
Definition table_get {A} (table : list (string * A)) (key : string)
  : member A :=
  match assoc key table with
  | Some a => Own a
  | None =>
      if bool_decide (key ∈ Object_prototype_members) then Inherited key
      else Missing
  end.

(** [list.includes(v)] on a list of strings. *)
Definition includes_string (l : list string) (v : value) : bool :=
  match v with
  | VStr s => existsb (String.eqb s) l
  | _ => false
  end.

(** * The configuration context ([src/contexts/ConfigContext.jsx]) *)

Module ConfigContext.
Import FlowEngine.

Definition ROLE_PERMISSIONS : list (string * list string) :=
  [("viewer", ["view"]);
   ("commenter", ["view"; "comments.add"]);
   ("contributor", ["view"; "comments.add"; "tasks.write"]);
   ("project_lead", ["view"; "comments.add"; "tasks.write"; "history.commit"]);
   ("workspace_owner",
    ["view"; "comments.add"; "tasks.write"; "history.commit"; "ai.configure";
     "workspace.configure"]);
   ("org_admin",
    ["view"; "comments.add"; "tasks.write"; "history.commit"; "ai.configure";
     "workspace.configure"; "roles.manage"])].

(** [const perms = ROLE_PERMISSIONS[role] || ROLE_PERMISSIONS['viewer'];
     return perms.includes(perm);]  A member inherited from
    [Object.prototype] is truthy and has no [includes]. *)
Definition roleHas (role perm : value) : result bool :=
  match table_get ROLE_PERMISSIONS (to_string role) with
  | Own perms => Ok (includes_string perms perm)
  | Missing =>
      Ok (includes_string (default [] (assoc "viewer" ROLE_PERMISSIONS)) perm)
  | Inherited _ => Throw (type_error "perms.includes is not a function")
  end.

(** [prev.appearance?.theme] *)
Definition appearance_theme (config : value) : result value :=
  let? appearance := get_field config "appearance" in
  if is_nullish appearance then Ok VUndefined
  else get_field appearance "theme".

(** The updater of [toggleTheme]. *)
Definition toggleTheme (prev : value) : result value :=
  let? theme := appearance_theme prev in
  let currentTheme := js_or theme (VStr "dark") in
  let newTheme :=
    if strict_eq currentTheme (VStr "dark") then VStr "light"
    else VStr "dark" in
  let? appearance := get_field prev "appearance" in
  Ok (VObj (set_assoc "appearance"
              (VObj (set_assoc "theme" newTheme
                       (spread [] (own_entries appearance))))
              (spread [] (own_entries prev)))).

(** [const role = config.user?.role || 'viewer';
     return roleHas(role, perm);] *)
Definition hasPermission (config perm : value) : result bool :=
  let? user := get_field config "user" in
  let? role :=
    if is_nullish user then Ok VUndefined else get_field user "role" in
  roleHas (js_or role (VStr "viewer")) perm.

End ConfigContext.

(** * Permissions ([src/utils/permissions.js]) *)

Module Permissions.

Definition PERMISSIONS : list (string * string) :=
  [("VIEW_WORKSPACE", "view_workspace"); ("EDIT_WORKSPACE", "edit_workspace");
   ("DELETE_WORKSPACE", "delete_workspace");
   ("MANAGE_MEMBERS", "manage_members");
   ("VIEW_TASKS", "view_tasks"); ("CREATE_TASKS", "create_tasks");
   ("EDIT_TASKS", "edit_tasks"); ("DELETE_TASKS", "delete_tasks");
   ("MOVE_TASKS", "move_tasks"); ("ASSIGN_TASKS", "assign_tasks");
   ("VIEW_COMMENTS", "view_comments"); ("ADD_COMMENTS", "add_comments");
   ("EDIT_OWN_COMMENTS", "edit_own_comments");
   ("DELETE_OWN_COMMENTS", "delete_own_comments");
   ("DELETE_ANY_COMMENTS", "delete_any_comments");
   ("VIEW_DOCS", "view_docs"); ("CREATE_DOCS", "create_docs");
   ("EDIT_DOCS", "edit_docs"); ("DELETE_DOCS", "delete_docs");
   ("VIEW_FILES", "view_files"); ("UPLOAD_FILES", "upload_files");
   ("DELETE_FILES", "delete_files");
   ("USE_AI", "use_ai"); ("AI_CREATE_TASKS", "ai_create_tasks");
   ("AI_MODIFY_WORKSPACE", "ai_modify_workspace");
   ("VIEW_HISTORY", "view_history"); ("UNDO_CHANGES", "undo_changes");
   ("COMMIT_CHANGES", "commit_changes");
   ("VIEW_FLOWS", "view_flows"); ("CREATE_FLOWS", "create_flows");
   ("EDIT_FLOWS", "edit_flows"); ("DELETE_FLOWS", "delete_flows");
   ("ATTACH_FLOWS", "attach_flows");
   ("ADMIN_SETTINGS", "admin_settings"); ("BILLING", "billing")].

(** [Object.values(PERMISSIONS)] *)
Definition all_permissions : list string := PERMISSIONS.*2.

Definition ROLE_PERMISSIONS : list (string * list string) :=
  [("viewer",
    ["view_workspace"; "view_tasks"; "view_comments"; "view_docs";
     "view_files"; "view_history"; "view_flows"]);
   ("commenter",
    ["view_workspace"; "view_tasks"; "view_comments"; "add_comments";
     "edit_own_comments"; "delete_own_comments"; "view_docs"; "view_files";
     "view_history"; "view_flows"]);
   ("contributor",
    ["view_workspace"; "view_tasks"; "create_tasks"; "edit_tasks";
     "move_tasks"; "view_comments"; "add_comments"; "edit_own_comments";
     "delete_own_comments"; "view_docs"; "edit_docs"; "view_files";
     "upload_files"; "use_ai"; "view_history"; "undo_changes"; "view_flows"]);
   ("project_lead",
    ["view_workspace"; "edit_workspace"; "view_tasks"; "create_tasks";
     "edit_tasks"; "delete_tasks"; "move_tasks"; "assign_tasks";
     "view_comments"; "add_comments"; "edit_own_comments";
     "delete_own_comments"; "delete_any_comments"; "view_docs"; "create_docs";
     "edit_docs"; "delete_docs"; "view_files"; "upload_files"; "delete_files";
     "use_ai"; "ai_create_tasks"; "view_history"; "undo_changes";
     "commit_changes"; "view_flows"; "create_flows"; "edit_flows";
     "attach_flows"]);
   ("workspace_owner",
    filter (fun p => p <> "billing") all_permissions);
   ("org_admin", all_permissions)].

(** [const permissions = ROLE_PERMISSIONS[role];
     if (!permissions) return false;
     return permissions.includes(permission);] *)
Definition roleHas (role permission : value) : result bool :=
  match table_get ROLE_PERMISSIONS (to_string role) with
  | Own permissions => Ok (includes_string permissions permission)
  | Missing => Ok false
  | Inherited _ => Throw (type_error "permissions.includes is not a function")
  end.

(** [ROLE_PERMISSIONS[role] || []] *)
Definition getPermissionsForRole (role : value) : member (list string) :=
  match table_get ROLE_PERMISSIONS (to_string role) with
  | Missing => Own []
  | m => m
  end.


End Permissions.

(** * Moving a task: the board and the command ([BoardView], [App]) *)

Module App.
Import Heap History.

(** [a === b]: two references are equal when they denote one object. *)
Definition strict_equal (a b : hval) : bool :=
  match a, b with
  | HUndefined, HUndefined | HNull, HNull => true
  | HBool x, HBool y => Bool.eqb x y
  | HNum x, HNum y => (x =? y)%Z
  | HStr x, HStr y => String.eqb x y
  | HRef x, HRef y => (x =? y)%nat
  | _, _ => false
  end.

(** [elems.find(t => t.id === cmd.taskId)] *)
Fixpoint find_task (σ : store) (cmd : hval) (elems : list hval)
  : result hval :=
  match elems with
  | [] => Ok HUndefined
  | t :: rest =>
      let? id := read_named σ t "id" in
      let? taskId := read_named σ cmd "taskId" in
      if strict_equal id taskId then Ok t else find_task σ cmd rest
  end.

(** [tasks?.find(t => t.id === cmd.taskId)]: only an array has a [find]
    (the values of the store are data, none is a function). *)
Definition tasks_find (σ : store) (cmd : hval) (tasks : hval) : result hval :=
  let not_a_function := type_error "snap.tasks?.find is not a function" in
  match tasks with
  | HUndefined | HNull => Ok HUndefined
  | HRef l =>
      match σ !! l with
      | Some (CArr elems extra) =>
          match assoc "find" extra with
          | Some _ => Throw not_a_function
          | None => find_task σ cmd elems
          end
      | Some (CObj _) => Throw not_a_function
      | None => Throw dangling
      end
  | _ => Throw not_a_function
  end.

(** [target[key] = v], as what a mutator reports. *)
Definition write_named (σ : store) (target : hval) (key : string) (v : hval)
  : list heap_op * option exn :=
  match target with
  | HRef l =>
      match σ !! l with
      | Some (CObj props) => ([Write l (CObj (set_assoc key v props))], None)
      | Some (CArr elems extra) =>
          ([Write l (CArr elems (set_assoc key v extra))], None)
      | None => ([], Some dangling)
      end
  | _ =>
      match assign_named target key v σ with
      | Throw e => ([], Some e)
      | Ok _ => ([], None)
      end
  end.

(** The mutator of the [MoveTask] command:
    [snap => { const task = snap.tasks?.find(t => t.id === cmd.taskId);
               if (task) { task.status = cmd.toStatus; } }] *)
Definition MoveTask_mutator (cmd : hval) : Mutator :=
  fun snap σ =>
    match read_named σ snap "tasks" with
    | Throw e => ([], Some e)
    | Ok tasks =>
        match tasks_find σ cmd tasks with
        | Throw e => ([], Some e)
        | Ok task =>
            if h_truthy task then
              match read_named σ cmd "toStatus" with
              | Throw e => ([], Some e)
              | Ok toStatus => write_named σ task "status" toStatus
              end
            else ([], None)
        end
    end.

(** [`Move ${cmd.taskId} to ${cmd.toStatus}`] *)
Definition MoveTask_label (σ : store) (cmd : hval) : result string :=
  let? taskId := read_named σ cmd "taskId" in
  let? toStatus := read_named σ cmd "toStatus" in
  Ok ("Move " +:+ h_to_string σ taskId +:+ " to " +:+ h_to_string σ toStatus).

(** [runCommand(cmd)] for a command whose [type] is ['MoveTask']: the
    change of the history.  (The ['task.dropped'] event fired after it
    goes to the flows hook and does not touch the history.) *)
Definition runCommand_MoveTask (cmd : hval) (now : string) (e : Engine)
  : Engine :=
  match MoveTask_label (heap e) cmd with
  | Throw _ => e
  | Ok label => step e (ApplyChange label (Some (MoveTask_mutator cmd)) now)
  end.

(** [handleMoveTask(taskId, fromStatus, toStatus)]:
    [runCommand({ type: 'MoveTask', taskId, fromStatus, toStatus })]. *)
Definition handleMoveTask (taskId fromStatus toStatus : hval) (now : string)
    (e : Engine) : Engine :=
  let cmd := CObj [("type", HStr "MoveTask"); ("taskId", taskId);
                   ("fromStatus", fromStatus); ("toStatus", toStatus)] in
  runCommand_MoveTask (HRef (length (heap e))) now
    {| heap := heap e ++ [cmd]; state := state e |}.

End App.

Module BoardView.
Import Heap History.

(** [handleDrop(status, event)] of the board, whose [onMoveTask] is
    [App.handleMoveTask] and which is given no [onFlowEvent]:
    [if (!draggingTaskId) return;
     onMoveTask({ taskId: draggingTaskId, toStatus: status });]
    The one argument is an object; the two other parameters of the
    handler are [undefined]. *)
Definition handleDrop (draggingTaskId status : hval) (now : string)
    (e : Engine) : Engine :=
  if negb (h_truthy draggingTaskId) then e
  else
    let argument := CObj [("taskId", draggingTaskId); ("toStatus", status)] in
    App.handleMoveTask (HRef (length (heap e))) HUndefined HUndefined now
      {| heap := heap e ++ [argument]; state := state e |}.

End BoardView.


(** * The vocabulary of the statements *)

Section FlowStatements.
Import FlowEngine.
Context {realm : Realm}.

(** ** For the flow engine *)

(** A realm for the examples.  The statements above the examples hold in
    every realm; an example needs one to be evaluated in.  The examples
    consult it for the [constructor] a value inherits, for the [caller]
    and the [name] of that function and for the text of an inherited
    method, and there it answers as the language defines: a value that
    is not [null] or [undefined] inherits a [constructor], the function
    named after its kind, and the other names of its prototypes hold
    functions ([__proto__] holds the prototype); the [caller] and the
    [arguments] of a built-in function cannot be read, its [name] is its
    name, and it prints as native code.  No example reads another member
    of a built-in object or compares numbers the model does not
    evaluate; for these the sample answers [undefined] and [false]. *)
Definition sample_prototypes : list (string * string) :=
  [("Object.prototype", "[object Object]"); ("Array.prototype", "");
   ("String.prototype", ""); ("Number.prototype", "0");
   ("Boolean.prototype", "false")].

Definition sample_realm : Realm :=
  {| inherited := fun v key =>
       let kind :=
         match v with
         | VArr _ => "Array"
         | VStr _ => "String"
         | VNum _ => "Number"
         | VBool _ => "Boolean"
         | _ => "Object"
         end in
       Returns (Native (if String.eqb key "constructor" then kind
                        else if String.eqb key "__proto__"
                        then kind +:+ ".prototype"
                        else key));
     native_member := fun n key =>
       match assoc n sample_prototypes with
       | Some _ => Returns (Data VUndefined)
       | None =>
           if bool_decide (key ∈ ["caller"; "arguments"]) then
             Raises "TypeError"
               "'caller', 'callee', and 'arguments' properties may not be accessed on strict mode functions or the arguments objects for calls to them"
           else if String.eqb key "name" then Returns (Data (VStr n))
           else Returns (Data VUndefined)
       end;
     native_text := fun n =>
       match assoc n sample_prototypes with
       | Some text => Returns text
       | None => Returns ("function " +:+ n +:+ "() { [native code] }")
       end;
     numeric_lt := fun _ _ => Returns false |}.

(** An event whose payload carries the defined but falsy values [0],
    the empty string and [false], over a snapshot that has other values
    at the same paths. *)
Definition falsy_payload : value :=
  VObj [("eventType", VStr "field.updated"); ("count", VNum 0);
        ("note", VStr ""); ("blocked", VBool false)].

Definition stale_context : Context :=
  {| currentSnapshot :=
       VObj [("count", VNum 5); ("note", VStr "old"); ("blocked", VBool true)];
     context_runCommand := None;
     addAiSystemMessage := None |}.

(** A snapshot that has none of these fields. *)
Definition bare_context : Context :=
  {| currentSnapshot := VObj [("view", VStr "Board")];
     context_runCommand := None;
     addAiSystemMessage := None |}.

(** The completions of the actions, in order, each on the trace left by
    the ones before it. *)
Fixpoint outcomes (host : Host) (acts : list Action) (eventPayload : value)
    (context : Context) (t : list Effect) : list (result value) :=
  match acts with
  | [] => []
  | a :: rest =>
      let '(r, t') := executeAction host a eventPayload context t in
      r :: outcomes host rest eventPayload context t'
  end.

(** The entries pushed for the actions that returned. *)
Fixpoint performed_of (i : nat) (acts : list Action)
    (outs : list (result value)) : list Performed :=
  match acts, outs with
  | a :: acts', Ok res :: outs' =>
      {| index := i; performed_type := action_type a;
         performed_result := res |} :: performed_of (S i) acts' outs'
  | _ :: acts', Throw _ :: outs' => performed_of (S i) acts' outs'
  | _, _ => []
  end.

(** The handler of a [catch] can take [e]: its
    [e.message || String(e)] does not throw.  It throws for [null] and
    [undefined], whose [message] cannot be read, and for an object
    without a truthy [message] that is not printable. *)
Definition catchable (e : exn) : bool :=
  match error_text e with
  | Ok _ => true
  | Throw _ => false
  end.

(** What the handler records for an exception it can take. *)
Definition caught_text (e : exn) : value :=
  match error_text e with
  | Ok text => text
  | Throw _ => VUndefined
  end.

(** Every action returns or throws what the handler can take. *)
Definition all_catchable (outs : list (result value)) : Prop :=
  forall i e, outs !! i = Some (Throw e) -> catchable e = true.

(** The first exception the handler cannot take, if there is one: it
    ends the loop. *)
Fixpoint uncaught (outs : list (result value)) : option exn :=
  match outs with
  | [] => None
  | Ok _ :: outs' => uncaught outs'
  | Throw e :: outs' => if catchable e then uncaught outs' else Some e
  end.

(** The completions the loop gets through: those before the first
    exception its handler cannot take. *)
Fixpoint attempted (outs : list (result value)) : list (result value) :=
  match outs with
  | [] => []
  | Ok res :: outs' => Ok res :: attempted outs'
  | Throw e :: outs' => if catchable e then Throw e :: attempted outs' else []
  end.

(** The entries pushed for the actions that threw. *)
Fixpoint errors_of (i : nat) (outs : list (result value)) : list ErrorEntry :=
  match outs with
  | [] => []
  | Ok _ :: outs' => errors_of (S i) outs'
  | Throw e :: outs' =>
      {| actionIndex := Some i; error := caught_text e |} :: errors_of (S i) outs'
  end.

(** The flow is enabled, the event has a payload, and the conditions (if
    any) hold. *)
Definition fires (fl : Flow) (eventPayload : value) (context : Context) : Prop :=
  enabled fl = true
  /\ is_nullish eventPayload = false
  /\ evaluateConditions (conditions fl) eventPayload context = Ok true.

Definition is_nil {A} (l : list A) : bool :=
  match l with
  | [] => true
  | _ => false
  end.

Definition console_host : Host :=
  {| notification_granted := false;
     console_member_of :=
       fun k => if bool_decide (k ∈ ["log"; "info"; "warn"; "error"])
                then CFunction else CAbsent;
     flow_client_send := None |}.

Definition sample_readings : Readings :=
  {| id_ms := 1700000000000; id_random := "9f3a"; start_ms := 1700000000000;
     start_iso := "2023-11-14T22:13:20.000Z";
     relay_iso := "2023-11-14T22:13:20.002Z"; end_ms := 1700000000002 |}.

Definition empty_world : World :=
  {| flowExecutionHistory := []; effects := [] |}.

Definition task_dropped : value :=
  VObj [("eventType", VStr "task.dropped"); ("taskId", VStr "T-101");
        ("toStatus", VStr "In Progress"); ("targetKey", VStr "task:T-101")].

(** A context whose command dispatcher throws. *)
Definition broken_dispatcher : Context :=
  {| currentSnapshot := VObj [("view", VStr "Board")];
     context_runCommand :=
       Some (fun _ => Some (JsError "Error" "dispatcher unavailable"));
     addAiSystemMessage := None |}.

Definition log_action (message : string) : Action :=
  {| action_type := "log_message";
     config := VObj [("message", VStr message); ("level", VStr "info")] |}.

Definition set_view_action : Action :=
  {| action_type := "run_command";
     config := VObj [("commandType", VStr "SetView");
                     ("params", VObj [("view", VStr "Board")])] |}.

(** Three actions, the second of which calls the dispatcher. *)
Definition three_actions : Flow :=
  {| flow_id := "flow-three"; flow_name := "Three actions"; enabled := true;
     flow_sendToBackend := Some false; conditions := Some [];
     actions := Some [log_action "{{taskId}} before"; set_view_action;
                      log_action "{{taskId}} after"] |}.

(** One action of a kind the engine does not know. *)
Definition unknown_action : Flow :=
  {| flow_id := "flow-mail"; flow_name := "Send mail"; enabled := true;
     flow_sendToBackend := Some false; conditions := None;
     actions := Some [{| action_type := "send_email"; config := VUndefined |}] |}.

(** A flow for tasks that are done; [task_dropped] is not. *)
Definition when_done : Flow :=
  {| flow_id := "flow-done"; flow_name := "When done"; enabled := true;
     flow_sendToBackend := Some false;
     conditions :=
       Some [{| field := "toStatus"; operator := "equals";
                expected := VStr "Done" |}];
     actions := Some [log_action "{{taskId}} done"] |}.

(** One call of [executeFlow] after the other, each with its own clock
    readings; what remains is the world. *)
Fixpoint fire (host : Host) (readings : list Readings) (flow : option Flow)
    (eventPayload : value) (context : Context) (w : World) : World :=
  match readings with
  | [] => w
  | rd :: rest =>
      fire host rest flow eventPayload context
        (executeFlow host rd flow eventPayload context w).2
  end.

(** The record [executeFlow] starts from. *)
Definition fresh_log (rd : Readings) (fl : Flow) (et : value) : ExecutionLog :=
  {| id := "exec-" +:+ number_text (id_ms rd) +:+ "-" +:+ id_random rd;
     flowId := flow_id fl; flowName := flow_name fl; eventType := et;
     startTime := start_iso rd; status := running; reason := None;
     actionsPerformed := []; errors := []; duration := None |}.

(** The record after the outer [catch] has taken [e]. *)
Definition failed_log (e : exn) (executionLog : ExecutionLog) : ExecutionLog :=
  push_error {| actionIndex := None; error := caught_text e |}
    (set_status failed executionLog).

(** The flow is enabled and the event has a payload, but a condition
    fails. *)
Definition skips (fl : Flow) (eventPayload : value) (context : Context) : Prop :=
  enabled fl = true
  /\ is_nullish eventPayload = false
  /\ conditions fl <> Some []
  /\ evaluateConditions (conditions fl) eventPayload context = Ok false.

End FlowStatements.

Section HistoryStatements.
Import Heap History.
Open Scope Z_scope.

(** ** For the history engine *)

(** [0 ≤ commitIndex ≤ currentIndex ≤ history.length - 1] *)
Definition well_positioned (s : State) : Prop :=
  0 <= commitIndex s
  /\ commitIndex s <= currentIndex s
  /\ currentIndex s <= Z.of_nat (length (history s)) - 1.

(** What the mutator (if it is a function) does to the clone. *)
Definition mutation (mutator : option Mutator) (clone : hval) (σ : store)
  : list heap_op * option exn :=
  match mutator with
  | Some m => m clone σ
  | None => ([], None)
  end.

(** The elements and the members of a text, parsed in order. *)
Fixpoint parse_elems (xs : list value) (σ : store) : list hval * store :=
  match xs with
  | [] => ([], σ)
  | x :: r =>
      let '(h, σ1) := parse_value x σ in
      let '(hs, σ2) := parse_elems r σ1 in
      (h :: hs, σ2)
  end.

Fixpoint parse_members (props : list (string * value)) (σ : store)
  : list (string * hval) * store :=
  match props with
  | [] => ([], σ)
  | (k, x) :: r =>
      let '(h, σ1) := parse_value x σ in
      let '(hs, σ2) := parse_members r σ1 in
      ((k, h) :: hs, σ2)
  end.

(** The text of an object or an array. *)
Definition is_structure (t : value) : bool :=
  match t with
  | VObj _ | VArr _ => true
  | _ => false
  end.

(** Every cell at or above [n] refers only to cells at or above [n]
    that exist. *)
Definition closed_above (n : nat) (σ : store) : Prop :=
  forall l c l', (n <= l)%nat -> σ !! l = Some c ->
    HRef l' ∈ cell_values c -> (n <= l' < length σ)%nat.

(** A value that is no reference below [n] nor outside the store. *)
Definition val_above (n : nat) (σ : store) (v : hval) : Prop :=
  forall l, v = HRef l -> (n <= l < length σ)%nat.

(** A snapshot with a view and a list of tasks. *)
Definition board_store : store :=
  [CObj [("id", HNum 0); ("label", HStr "Initial state"); ("view", HStr "Board");
         ("tasks", HRef 1%nat)];
   CArr [HRef 2%nat] [];
   CObj [("id", HStr "T-101"); ("status", HStr "Backlog")]].

Definition board : Engine := mount board_store (HRef 0%nat).

(** [snap => { snap.view = view }] *)
Definition set_view (view : string) : Mutator :=
  fun clone σ =>
    match clone with
    | HRef l =>
        match σ !! l with
        | Some (CObj props) =>
            ([Write l (CObj (set_assoc "view" (HStr view) props))], None)
        | _ => ([], None)
        end
    | _ => ([], None)
    end.

(** [snap => { snap.view = view; throw new Error(message) }] *)
Definition set_view_and_throw (view message : string) : Mutator :=
  fun clone σ => ((set_view view clone σ).1, Some (JsError "Error" message)).

(** [snap => { snap.tasks = tasks }], with [tasks] an array the caller
    holds, such as the [tasks] of the snapshot it rendered. *)
Definition set_tasks (tasks : hval) : Mutator :=
  fun clone σ =>
    match clone with
    | HRef l =>
        match σ !! l with
        | Some (CObj props) =>
            ([Write l (CObj (set_assoc "tasks" tasks props))], None)
        | _ => ([], None)
        end
    | _ => ([], None)
    end.

(** The call of [applyChange] on the engine returns. *)
Definition applies (e : Engine) (label : string) (mutator : option Mutator)
    (now : string) : Prop :=
  (applyChange (state e) label mutator now (heap e) (state e)).1.1 = Ok tt.

(** Every write of [ops] is to a cell at or above [n]. *)
Definition writes_above (n : nat) (ops : list heap_op) : Prop :=
  forall l c, Write l c ∈ ops -> (n <= l)%nat.

(** [reach σ v l]: the cell [l] is part of the value [v], directly or
    through the objects and arrays it holds. *)
Inductive reach (σ : store) : hval -> loc -> Prop :=
| reach_root l : reach σ (HRef l) l
| reach_step v l c l' :
    reach σ v l -> σ !! l = Some c -> HRef l' ∈ cell_values c ->
    reach σ v l'.

(** No two entries of the history have a cell in common. *)
Definition separated (σ : store) (entries : list hval) : Prop :=
  forall i j vi vj l,
    i <> j -> entries !! i = Some vi -> entries !! j = Some vj ->
    reach σ vi l -> reach σ vj l -> False.

(** A store that holds the cells of [σ], followed by cells that refer
    among themselves only. *)
Definition grown (σ σ' : store) : Prop :=
  (length σ <= length σ')%nat
  /\ (forall l, (l < length σ)%nat -> σ' !! l = σ !! l)
  /\ closed_above (length σ) σ'.

(** The cell written by [op] refers to cells at or above [n] only, and a
    write is to a cell at or above [n]. *)
Definition op_confined (n : nat) (σ : store) (op : heap_op) : Prop :=
  match op with
  | Alloc c =>
      forall l', HRef l' ∈ cell_values c -> (n <= l' < length σ)%nat
  | Write l c =>
      (n <= l)%nat
      /\ forall l', HRef l' ∈ cell_values c -> (n <= l' < length σ)%nat
  end.

Fixpoint ops_confined (n : nat) (σ : store) (ops : list heap_op) : Prop :=
  match ops with
  | [] => True
  | op :: rest => op_confined n σ op /\ ops_confined n (apply_op σ op) rest
  end.

Definition is_primitive (v : hval) : Prop :=
  match v with
  | HRef _ => False
  | _ => True
  end.

(** The mutator handed the clone of the current snapshot writes only
    into the clone and into cells it allocates, and stores there no
    reference to an older cell. *)
Definition confined_at (e : Engine) (mutator : option Mutator) : Prop :=
  forall text clone σ1,
    JSON_stringify (heap e) (currentSnapshot (state e)) = Ok text ->
    JSON_parse text (heap e) = Ok (clone, σ1) ->
    ops_confined (length (heap e)) σ1 (mutation mutator clone σ1).1.

Definition confined_op (e : Engine) (op : Op) : Prop :=
  match op with
  | ApplyChange _ mutator _ => confined_at e mutator
  | _ => True
  end.

Fixpoint confined_run (e : Engine) (ops : list Op) : Prop :=
  match ops with
  | [] => True
  | op :: rest => confined_op e op /\ confined_run (step e op) rest
  end.

(** Every reference of the store and of the history denotes a cell, and
    no two entries of the history share one. *)
Definition isolated (e : Engine) : Prop :=
  closed_above 0 (heap e)
  /\ Forall (val_above 0 (heap e)) (history (state e))
  /\ separated (heap e) (history (state e)).

(** The board after a change of view and a commit, and the next change. *)
Definition committed_board : Engine :=
  run board [ApplyChange "Switch to List" (Some (set_view "List")) "10:00:00";
             Commit].

Definition next_board : Engine :=
  step committed_board
    (ApplyChange "Switch to Calendar" (Some (set_view "Calendar")) "10:05:00").

End HistoryStatements.

(** ** For the executors, the templates and the conditions *)

Section FlowCoverageStatements.
Import FlowEngine.
Context {realm : Realm}.

(** [m] only adds to the trace, and what it adds satisfies [P]. *)
Definition emits {A} (P : Effect -> Prop) (m : M A) : Prop :=
  forall t, exists t', (m t).2 = t ++ t' /\ Forall P t'.

(** What an action may do: notify, print, and call the callbacks the
    context has. *)
Definition action_effect (context : Context) (e : Effect) : Prop :=
  match e with
  | ENotification _ _ | EConsole _ _ => True
  | EAiSystemMessage _ => addAiSystemMessage context <> None
  | ECommand _ => context_runCommand context <> None
  | EBackendSend _ | EConsoleError _ _ => False
  end.

(** What the relay to the backend may do: call the client and report its
    failure, or print the message when there is no client. *)
Definition relay_effect (e : Effect) : Prop :=
  match e with
  | EBackendSend _ | EConsoleError _ _ => True
  | EConsole method (prefix :: _) =>
      method = "log" /\ prefix = VStr "[Flow event to backend]"
  | _ => False
  end.

(** The host with another backend client (or none). *)
Definition with_client (host : Host) (client : option (value -> option exn))
  : Host :=
  {| notification_granted := notification_granted host;
     console_member_of := console_member_of host;
     flow_client_send := client |}.

(** The code unit [c] does not occur in [s]. *)
Fixpoint lacks (c : ascii) (s : string) : bool :=
  match s with
  | EmptyString => true
  | String c' s' => negb (Ascii.eqb c c') && lacks c s'
  end.


(** The operators [evaluateConditions] knows. *)
Definition known_operators : list string :=
  ["equals"; "not_equals"; "contains"; "greater_than"; "less_than";
   "exists"; "not_exists"].

End FlowCoverageStatements.

(** ** For navigation, commits and the deep copy *)

Section HistoryCoverageStatements.
Import Heap History.

(** The state with another current index. *)
Definition moved_to (e : Engine) (index : Z) : Engine :=
  {| heap := heap e;
     state := {| history := history (state e); currentIndex := index;
                 commitIndex := commitIndex (state e) |} |}.


(** The tree of a JSON text: it holds no [undefined]. *)
Fixpoint is_json (t : value) : bool :=
  match t with
  | VUndefined => false
  | VNull | VBool _ | VNum _ | VStr _ => true
  | VArr xs => forallb is_json xs
  | VObj props =>
      (fix members (l : list (string * value)) : bool :=
         match l with
         | [] => true
         | (_, x) :: r => is_json x && members r
         end) props
  end.

(** The text of a snapshot stamped by [applyChange]. *)
Definition stamped (stepId : Z) (label now : string)
    (props : list (string * value)) : value :=
  VObj (set_assoc "timestamp" (VStr now)
          (set_assoc "label" (VStr label)
             (set_assoc "id" (VNum stepId) props))).

(** The statement of the round trip for one text. *)
Definition round_trip (t : value) : Prop :=
  is_json t = true ->
  forall σ stack fuel,
    (forall l, l ∈ stack ->
       (l < length σ \/ length (parse_value t σ).2 <= l)%nat) ->
    (length (parse_value t σ).2 - length σ <= fuel)%nat ->
    stringify_value fuel (parse_value t σ).2 stack (parse_value t σ).1 = Ok t.

(** The property [k] of the cell serializes to the property [k] of the
    text. *)
Definition serializes (f : hval -> result value)
    (h : string * hval) (p : string * value) : Prop :=
  h.1 = p.1 /\ f h.2 = Ok p.2 /\ is_undefined p.2 = false.

(** [h] is [undefined] or [null]. *)
Definition h_nullish (h : hval) : bool :=
  match h with
  | HUndefined | HNull => true
  | _ => false
  end.

(** The value [h] of the store [σ] is what the text [t] parses to, as far
    as a search through a list of tasks looks at it: a primitive is the
    one of the text, an array has the elements of the text, [null] where
    the text has [null], and an object is an object. *)
Definition parsed_from (σ : store) (t : value) (h : hval) : Prop :=
  match t with
  | VUndefined => h = HUndefined
  | VNull => h = HNull
  | VBool b => h = HBool b
  | VNum n => h = HNum n
  | VStr s => h = HStr s
  | VArr xs =>
      exists l hs,
        h = HRef l /\ σ !! l = Some (CArr hs [])
        /\ Forall2 (fun x h' => h_nullish h' = is_nullish x) xs hs
  | VObj _ => exists l ps, h = HRef l /\ σ !! l = Some (CObj ps)
  end.

(** The mutator of a [MoveTask] command whose [taskId] is an object
    throws on the copy of a snapshot with the properties [props]: when
    [tasks] is there and is neither [null] nor an array ([find] is not a
    function), or is an array that holds [null] (the [id] of [null] is
    read). *)
Definition drop_throws (props : list (string * value)) : bool :=
  match assoc "tasks" props with
  | None | Some VUndefined | Some VNull => false
  | Some (VArr xs) => existsb is_nullish xs
  | Some _ => true
  end.

End HistoryCoverageStatements.

(** ** For the flow bindings, the roles and the theme *)

Section UseFlowsStatements.
Import FlowEngine.
Import UseFlows.

(** No entry of the library has the identifier [fid]. *)
Definition unlisted (library : list value) (fid : value) : Prop :=
  Forall (fun f => exists x, get_field f "id" = Ok x
                             /\ strict_eq x fid = false) library.

(** The entry at [j] is the first one with the identifier [fid]. *)
Definition first_listed (library : list value) (fid : value) (j : nat)
  : Prop :=
  unlisted (take j library) fid
  /\ exists f x, library !! j = Some f /\ get_field f "id" = Ok x
                 /\ strict_eq x fid = true.

(** The bindings the hook keeps: under names that are not inherited, and
    never an empty list. *)
Definition well_bound (m : gmap string (list Binding)) : Prop :=
  forall k arr, m !! k = Some arr ->
    arr <> [] /\ k ∉ Object_prototype_members.

(** The binding answers to the event. *)
Definition answers (eventType : value) (binding : Binding) : bool :=
  negb (truthy (binding_eventType binding)
        && negb (strict_eq (binding_eventType binding) eventType)).

(** What firing one binding shows, for a callback that returns. *)
Definition fired (library : list value) (eventType safePayload : value)
    (has_callback : bool) (binding : Binding) : list Effect :=
  match find_flow library (binding_flowId binding) with
  | Ok (Some flow) =>
      if truthy flow then
        if has_callback then [Execute flow safePayload]
        else [WouldExecute (default VUndefined
                              (match get_field flow "name" with
                               | Ok n => Some n
                               | Throw _ => None
                               end)) eventType]
      else [Warn (binding_flowId binding)]
  | _ => [Warn (binding_flowId binding)]
  end.

End UseFlowsStatements.

Section RoleStatements.



End RoleStatements.

Section ThemeStatements.
Import FlowEngine.

(** The theme that follows [theme]. *)
Definition flipped (theme : value) : string :=
  if strict_eq (js_or theme (VStr "dark")) (VStr "dark") then "light"
  else "dark".

End ThemeStatements.

(** ** Inputs the statements are tried on *)

Section CoverageExamples.
Import FlowEngine.

(** A flow whose condition has an operator the engine does not know. *)
Definition when_matches : Flow :=
  {| flow_id := "flow-matches"; flow_name := "When it matches";
     enabled := true; flow_sendToBackend := Some false;
     conditions :=
       Some [{| field := "toStatus"; operator := "matches";
                expected := VStr "In.*" |}];
     actions := Some [log_action "{{taskId}} matches"] |}.

(** A context whose command dispatcher returns. *)
Definition dispatching_context : Context :=
  {| currentSnapshot := VObj [("view", VStr "Board")];
     context_runCommand := Some (fun _ => None);
     addAiSystemMessage := None |}.

(** The configuration of an [update_field] action on the dropped task. *)
Definition set_status_config : value :=
  VObj [("targetType", VStr "task"); ("targetId", VStr "{{taskId}}");
        ("field", VStr "status"); ("value", VStr "{{toStatus}}")].

(** The text of the snapshot of [board]. *)
Definition board_text : list (string * value) :=
  [("id", VNum 0); ("label", VStr "Initial state"); ("view", VStr "Board");
   ("tasks", VArr [VObj [("id", VStr "T-101"); ("status", VStr "Backlog")]])].

(** A flow of the library, a task selected as target, and the binding of
    the one to the other. *)
Definition notify_flow : value :=
  VObj [("id", VStr "flow-notify"); ("name", VStr "Notify when a task moves");
        ("enabled", VBool true)].

Definition task_target : value :=
  VObj [("key", VStr "task:T-101"); ("label", VStr "T-101"); ("type", VStr "task")].

Definition selecting : UseFlows.State :=
  UseFlows.handleFlowTargetClick task_target (UseFlows.useFlows [notify_flow]).

Definition attached : UseFlows.State :=
  UseFlows.with_bindings selecting
    (<["task:T-101" :=
         [{| UseFlows.binding_id := "binding-1700000000000-k3x9";
             UseFlows.binding_flowId := VStr "flow-notify";
             UseFlows.binding_eventType := VStr "task.dropped" |}]]> ∅).

(** A configuration with the dark theme. *)
Definition dark_config : list (string * value) :=
  [("appearance", VObj [("theme", VStr "dark"); ("density", VStr "compact")]);
   ("user", VObj [("role", VStr "contributor")])].

End CoverageExamples.

(** * Properties of the flow engine *)

Section FlowEngineFacts.
Import FlowEngine.
Context {realm : Realm}.

Local Ltac case_if :=
  match goal with
  | |- context [if ?b then _ else _] => destruct b eqn:?
  end.

(** ** Dotted-path lookup *)

Lemma get_field_defined v key :
  is_nullish v = false -> exists w, get_field v key = Ok w.
Proof. intros Hn. unfold get_field. rewrite Hn. eauto. Qed.

(** A name outside the prototype lists reads as [get_field] has it. *)
Lemma get_member_field (v : value) (key : string) :
  key ∉ prototype_names v ->
  get_member (Data v) key = let? x := get_field v key in Ok (Data x).
Proof.
  intros Hk. unfold get_member, get_field.
  destruct (is_nullish v); [done|].
  destruct (own_member v key); [done|].
  by rewrite bool_decide_eq_false_2.
Qed.

(** The names the code reads by name are in none of the lists. *)
Lemma field_names_are_plain (v : value) :
  Forall (fun name => name ∉ prototype_names v)
    ["eventType"; "targetKey"; "taskId"; "message"; "title"; "level";
     "commandType"; "params"; "targetType"; "field"; "targetId"; "value";
     "id"; "name"; "key"; "appearance"; "theme"; "user"; "role"].
Proof.
  repeat constructor;
    (apply (bool_decide_unpack _); by destruct v).
Qed.

Lemma getValueFromPath_loop_undefined parts :
  getValueFromPath_loop (Data VUndefined) parts = Ok (Data VUndefined).
Proof. destruct parts; reflexivity. Qed.

Lemma getValueFromPath_loop_app before after :
  forall current,
    getValueFromPath_loop current (before ++ after) =
    let? mid := getValueFromPath_loop current before in
    getValueFromPath_loop mid after.
Proof.
  induction before as [|part rest IH]; intros current; simpl; [reflexivity|].
  destruct (is_nullish_js current) eqn:Hn.
  - simpl. symmetry. apply getValueFromPath_loop_undefined.
  - destruct (get_member current part) as [next|e]; simpl; [apply IH|reflexivity].
Qed.

Lemma replace_tokens_returns f :
  (forall m p, exists r, f m p = Ok r) ->
  forall s skip, exists r, replace_tokens f skip s = Ok r.
Proof.
  intros Hf s. induction s as [|c s IH]; intros skip;
    cbn [replace_tokens]; [eauto|].
  destruct skip as [|k]; [|apply IH].
  destruct (match_token (String c s)) as [path|].
  - destruct (Hf ("{{" +:+ path +:+ "}}") path) as [r ->]. simpl.
    destruct (IH (String.length path + 3)%nat) as [rest ->]. simpl. eauto.
  - destruct (IH 0%nat) as [rest ->]. simpl. eauto.
Qed.

Lemma every_returns {A} (f : A -> result bool) l :
  (forall x, exists b, f x = Ok b) -> exists b, every f l = Ok b.
Proof.
  intros Hf. induction l as [|x l IH]; simpl; [eauto|].
  destruct (Hf x) as [b ->]. simpl. destruct b; eauto.
Qed.

(** ** What the lookups and the conditions can throw

    Reads and conversions throw [Error] objects only, which the handler
    of a [catch] can take. *)

Lemma of_outcome_catchable {A} (o : outcome A) e :
  of_outcome o = Throw e -> catchable e = true.
Proof. destruct o; [done|]. by intros [= <-]. Qed.

Lemma get_member_catchable current key e :
  get_member current key = Throw e -> catchable e = true.
Proof.
  destruct current as [v|n]; cbn [get_member];
    [|apply of_outcome_catchable].
  destruct (is_nullish v); [by intros [= <-]|].
  destruct (own_member v key); [done|].
  case_if; [apply of_outcome_catchable|done].
Qed.

Lemma getValueFromPath_loop_catchable parts :
  forall current e,
    getValueFromPath_loop current parts = Throw e -> catchable e = true.
Proof.
  induction parts as [|part rest IH]; intros current e; cbn; [done|].
  destruct (is_nullish_js current); [done|].
  destruct (get_member current part) as [next|e'] eqn:Hget; cbn.
  - apply IH.
  - intros [= <-]. by apply get_member_catchable in Hget.
Qed.

Lemma getValueFromPath_catchable obj path e :
  getValueFromPath obj path = Throw e -> catchable e = true.
Proof.
  unfold getValueFromPath. case_if; [done|].
  apply getValueFromPath_loop_catchable.
Qed.

Lemma payload_or_snapshot_catchable eventPayload context path e :
  payload_or_snapshot eventPayload context path = Throw e ->
  catchable e = true.
Proof.
  unfold payload_or_snapshot.
  destruct (getValueFromPath eventPayload path) as [v|e'] eqn:Hp; cbn.
  - case_if; [done|]. apply getValueFromPath_catchable.
  - intros [= <-]. by apply getValueFromPath_catchable in Hp.
Qed.

Lemma text_of_catchable v e : text_of v = Throw e -> catchable e = true.
Proof. unfold text_of. destruct (printable v); [done|]. by intros [= <-]. Qed.

Lemma to_text_catchable v e : to_text v = Throw e -> catchable e = true.
Proof.
  destruct v; [apply text_of_catchable|]. apply of_outcome_catchable.
Qed.

Lemma number_lt_catchable a b e :
  number_lt a b = Throw e -> catchable e = true.
Proof.
  unfold number_lt.
  repeat match goal with
         | |- context [match ?x with _ => _ end] => destruct x
         end; try done; apply of_outcome_catchable.
Qed.

Lemma substitute_catchable eventPayload context match_ path e :
  substitute eventPayload context match_ path = Throw e -> catchable e = true.
Proof.
  unfold substitute.
  destruct (payload_or_snapshot eventPayload context path) as [v|e'] eqn:Hp;
    cbn.
  - case_if; [done|]. apply to_text_catchable.
  - intros [= <-]. by apply payload_or_snapshot_catchable in Hp.
Qed.

Lemma replace_tokens_catchable f e :
  (forall m p e, f m p = Throw e -> catchable e = true) ->
  forall s skip, replace_tokens f skip s = Throw e -> catchable e = true.
Proof.
  intros Hf s. induction s as [|c s IH]; intros skip;
    cbn [replace_tokens]; [done|].
  destruct skip as [|k]; [|apply IH].
  destruct (match_token (String c s)) as [path|].
  - destruct (f ("{{" +:+ path +:+ "}}") path) as [r|e'] eqn:Hr; cbn.
    + destruct (replace_tokens f (String.length path + 3) s) as [rest|e2]
        eqn:Hrest; cbn; [done|].
      intros [= <-]. by apply IH in Hrest.
    + intros [= <-]. by apply Hf in Hr.
  - destruct (replace_tokens f 0 s) as [rest|e'] eqn:Hrest; cbn; [done|].
    intros [= <-]. by apply IH in Hrest.
Qed.

Lemma interpolateVariables_catchable str eventPayload context e :
  interpolateVariables str eventPayload context = Throw e ->
  catchable e = true.
Proof.
  destruct str; try done. cbn [interpolateVariables].
  destruct (replace_tokens _ _ _) as [r|e'] eqn:Hr; cbn; [done|].
  intros [= <-]. revert Hr. apply replace_tokens_catchable.
  intros m p e2. apply substitute_catchable.
Qed.

Lemma holds_catchable eventPayload context condition e :
  holds eventPayload context condition = Throw e -> catchable e = true.
Proof.
  unfold holds.
  destruct (payload_or_snapshot eventPayload context (field condition))
    as [v|e'] eqn:Hp; cbn.
  - repeat case_if; try done.
    + destruct (to_text v) as [text|e2] eqn:Ht; cbn.
      * destruct (text_of (expected condition)) as [searched|e2] eqn:Hs;
          cbn; [done|].
        intros [= <-]. by apply text_of_catchable in Hs.
      * intros [= <-]. by apply to_text_catchable in Ht.
    + apply number_lt_catchable.
    + apply number_lt_catchable.
  - intros [= <-]. by apply payload_or_snapshot_catchable in Hp.
Qed.

Lemma every_catchable {A} (f : A -> result bool) l e :
  (forall x e, f x = Throw e -> catchable e = true) ->
  every f l = Throw e -> catchable e = true.
Proof.
  intros Hf. induction l as [|x l IH]; cbn; [done|].
  destruct (f x) as [[|]|e'] eqn:Hx; cbn; [exact IH|done|].
  intros [= <-]. by apply Hf in Hx.
Qed.

Lemma evaluateConditions_catchable conditions eventPayload context e :
  evaluateConditions conditions eventPayload context = Throw e ->
  catchable e = true.
Proof.
  destruct conditions as [[|c cs]|]; try done.
  apply every_catchable. intros x e'. apply holds_catchable.
Qed.

(** A path none of whose parts is a name of a prototype is looked up
    among own properties only, and the lookup returns. *)
Lemma getValueFromPath_returns_on_own_paths obj path :
  (forall part v, part ∈ split_dot path -> part ∉ prototype_names v) ->
  exists x, getValueFromPath obj path = Ok (Data x).
Proof.
  intros Hplain. unfold getValueFromPath.
  destruct (negb (truthy obj) || String.eqb path ""); [by eexists|].
  revert Hplain. generalize (split_dot path). intros parts. revert obj.
  induction parts as [|part rest IH]; intros obj Hplain;
    cbn [getValueFromPath_loop is_nullish_js]; [by eexists|].
  destruct (is_nullish obj) eqn:Hn; [by eexists|].
  rewrite get_member_field by (apply Hplain; left).
  destruct (get_field_defined obj part Hn) as [x ->]. cbn [result_bind].
  apply IH. intros p v Hp. apply Hplain. by right.
Qed.

(** C10, on the code.  [current[part]] reads through the prototype
    chain: on an object that has no [constructor] of its own the path
    [constructor.caller] reaches the function that made the object and
    reads its [caller], an accessor that throws.  The lookup throws, and
    with it the evaluation of a condition on that field and the
    interpolation of a template that names it.  (That [Object.prototype]
    has a [constructor] whose [caller] throws a [TypeError] is the
    language's; the theorem takes it from the realm.) *)
Theorem getValueFromPath_throws_on_inherited_accessor
    (props : list (string * value)) (ctor : native) (name message : string)
    (context : Context) :
  assoc "constructor" props = None ->
  inherited (VObj props) "constructor" = Returns (Native ctor) ->
  native_member ctor "caller" = Raises name message ->
  getValueFromPath (VObj props) "constructor.caller"
  = Throw (JsError name message)
  /\ (forall op expectedValue,
        evaluateConditions
          (Some [{| field := "constructor.caller"; operator := op;
                    expected := expectedValue |}])
          (VObj props) context
        = Throw (JsError name message))
  /\ interpolateVariables (VStr "by {{constructor.caller}}") (VObj props)
       context
     = Throw (JsError name message).
Proof.
  intros Hown Hc Hcaller.
  assert (Hget : getValueFromPath (VObj props) "constructor.caller"
                 = Throw (JsError name message)).
  { unfold getValueFromPath. cbn [truthy negb orb].
    change (String.eqb "constructor.caller" "") with false. cbn iota.
    change (split_dot "constructor.caller") with ["constructor"; "caller"].
    cbn [getValueFromPath_loop is_nullish_js is_nullish get_member own_member].
    rewrite Hown.
    rewrite bool_decide_eq_true_2
      by (unfold prototype_names, Object_prototype_members; left).
    rewrite Hc. cbn [of_outcome result_bind is_nullish_js get_member].
    by rewrite Hcaller. }
  split; [exact Hget|]. split.
  - intros op expectedValue.
    cbn [evaluateConditions every]. unfold holds, payload_or_snapshot.
    cbn [field]. by rewrite Hget.
  - cbn [interpolateVariables].
    change (replace_tokens (substitute (VObj props) context) 0
              "by {{constructor.caller}}")
      with (let? rest :=
              (let? rest :=
                 (let? rest :=
                    (let? r := substitute (VObj props) context
                                 "{{constructor.caller}}" "constructor.caller" in
                     let? rest := replace_tokens (substitute (VObj props) context)
                                    (String.length "constructor.caller" + 3)
                                    "{constructor.caller}}" in
                     Ok (r +:+ rest)) in
                  Ok (String " " rest)) in
               Ok (String "y" rest)) in
            Ok (String "b" rest)).
    unfold substitute, payload_or_snapshot. by rewrite Hget.
Qed.

(** ** Payload first, snapshot second *)

Lemma payload_or_snapshot_truthy eventPayload context path v :
  getValueFromPath eventPayload path = Ok v -> truthy_js v = true ->
  payload_or_snapshot eventPayload context path = Ok v.
Proof. intros H Ht. unfold payload_or_snapshot. rewrite H. simpl. by rewrite Ht. Qed.

Lemma payload_or_snapshot_falsy eventPayload context path v :
  getValueFromPath eventPayload path = Ok v -> truthy_js v = false ->
  payload_or_snapshot eventPayload context path =
  getValueFromPath (currentSnapshot context) path.
Proof. intros H Ht. unfold payload_or_snapshot. rewrite H. simpl. by rewrite Ht. Qed.

(** C4, on the code.  The lookup [payload || snapshot] lets the snapshot
    answer whenever the payload value is falsy, not only when it is
    [undefined]: the payload values [0], the empty string and [false]
    are defined, and conditions and interpolation see the snapshot's
    [5], ["old"] and [true] in their place.  Over a snapshot without
    these fields the payload's [count] is lost altogether: [exists]
    answers [false] and the token [{{count}}] is left as it is. *)
Theorem falsy_payload_value_is_overridden :
  getValueFromPath falsy_payload "count" = Ok (Data (VNum 0))
  /\ getValueFromPath falsy_payload "note" = Ok (Data (VStr ""))
  /\ getValueFromPath falsy_payload "blocked" = Ok (Data (VBool false))
  /\ payload_or_snapshot falsy_payload stale_context "count"
     = Ok (Data (VNum 5))
  /\ payload_or_snapshot falsy_payload stale_context "note"
     = Ok (Data (VStr "old"))
  /\ payload_or_snapshot falsy_payload stale_context "blocked"
     = Ok (Data (VBool true))
  /\ evaluateConditions
       (Some [{| field := "count"; operator := "equals"; expected := VNum 0 |}])
       falsy_payload stale_context = Ok false
  /\ interpolateVariables (VStr "{{count}} left, blocked: {{blocked}}")
       falsy_payload stale_context = Ok (VStr "5 left, blocked: true")
  /\ evaluateConditions
       (Some [{| field := "count"; operator := "exists";
                 expected := VUndefined |}])
       falsy_payload bare_context = Ok false
  /\ interpolateVariables (VStr "{{count}} left") falsy_payload bare_context
     = Ok (VStr "{{count}} left").
Proof. repeat split; reflexivity. Qed.

(** ** Running the actions of a flow *)

Lemma outcomes_length host acts eventPayload context :
  forall t, length (outcomes host acts eventPayload context t) = length acts.
Proof.
  induction acts as [|a rest IH]; intros t; simpl; [reflexivity|].
  destruct (executeAction host a eventPayload context t) as [r t'].
  simpl. by rewrite IH.
Qed.

Lemma all_catchable_cons r outs :
  all_catchable (r :: outs) ->
  match r with Throw e => catchable e = true | Ok _ => True end
  /\ all_catchable outs.
Proof.
  intros Hall. split.
  - destruct r as [res|e]; [done|]. by apply (Hall 0%nat).
  - intros i e Hi. by apply (Hall (S i)).
Qed.

Lemma error_text_catchable e :
  catchable e = true -> error_text e = Ok (caught_text e).
Proof.
  unfold catchable, caught_text. by destruct (error_text e).
Qed.

Lemma error_text_uncatchable e :
  catchable e = false ->
  exists message, error_text e = Throw (type_error message).
Proof.
  unfold catchable. destruct e as [name message|v]; [done|].
  cbn [error_text]. unfold get_field, text_of.
  destruct (is_nullish v); [by eexists|]. cbn.
  destruct (truthy _); [done|].
  destruct (printable v); [done|]. by eexists.
Qed.

(** What the handler can take: every [Error], and every other value
    but [null], [undefined] and the objects without a truthy [message]
    that are not printable. *)
Lemma catchable_spec e :
  catchable e
  = match e with
    | JsError _ _ => true
    | Thrown v =>
        negb (is_nullish v)
        && (truthy (default VUndefined (own_member v "message"))
            || printable v)
    end.
Proof.
  unfold catchable. destruct e as [name message|v]; [done|].
  cbn [error_text]. unfold get_field, text_of.
  destruct (is_nullish v); [done|]. cbn.
  destruct (truthy _); [done|]. by destruct (printable v).
Qed.

(** What leaves the loop is what the handler threw: a [TypeError]. *)
Lemma forEach_action_thrown host eventPayload context acts :
  forall i executionLog t e executionLog' t',
    forEach_action host acts i eventPayload context executionLog t
    = (Some e, executionLog', t') ->
    exists message, e = type_error message.
Proof.
  induction acts as [|a rest IH]; intros i executionLog t e executionLog' t';
    cbn [forEach_action]; [done|].
  destruct (executeAction host a eventPayload context t) as [[res|e'] t1].
  - apply IH.
  - destruct (catchable e') eqn:Hc.
    + rewrite (error_text_catchable e' Hc). apply IH.
    + destruct (error_text_uncatchable e' Hc) as [message ->].
      intros [= <- _ _]. by exists message.
Qed.

Lemma fail_and_return_catchable e executionLog history t :
  catchable e = true ->
  fail_and_return e executionLog history t
  = record_and_return (failed_log e executionLog) history t.
Proof.
  intros Hc. unfold fail_and_return, catch_failed.
  by rewrite (error_text_catchable e Hc).
Qed.

Lemma attempted_all outs : all_catchable outs -> attempted outs = outs.
Proof.
  induction outs as [|[res|e] outs IH]; intros Hall; [done|..];
    apply all_catchable_cons in Hall as [Hr Hall]; cbn.
  - by rewrite IH.
  - by rewrite Hr, IH.
Qed.

Lemma uncaught_all outs : all_catchable outs <-> uncaught outs = None.
Proof.
  induction outs as [|[res|e] outs IH]; cbn.
  - split; [done|]. intros _ i e Hi. by destruct i.
  - rewrite <- IH. split.
    + by intros [_ Hall]%all_catchable_cons.
    + intros Hall [|i] e Hi; [done|]. by apply (Hall i).
  - destruct (catchable e) eqn:Hc.
    + rewrite <- IH. split.
      * by intros [_ Hall]%all_catchable_cons.
      * intros Hall [|i] e' Hi; [by injection Hi as <-|]. by apply (Hall i).
    + split; [|done]. intros Hall. specialize (Hall 0%nat e eq_refl).
      congruence.
Qed.

(** The loop, whatever the actions throw: it gets through the actions
    before the first exception its handler cannot take, and that
    handler's [TypeError] leaves it. *)
Lemma forEach_action_run host eventPayload context acts :
  forall i executionLog t,
    let outs := outcomes host acts eventPayload context t in
    exists thrown executionLog' t',
      forEach_action host acts i eventPayload context executionLog t
      = (thrown, executionLog', t')
      /\ match uncaught outs with
         | None => thrown = None
         | Some e => exists message,
             error_text e = Throw (type_error message)
             /\ thrown = Some (type_error message)
         end
      /\ actionsPerformed executionLog' =
           actionsPerformed executionLog
           ++ performed_of i acts (attempted outs)
      /\ errors executionLog' =
           errors executionLog ++ errors_of i (attempted outs)
      /\ id executionLog' = id executionLog
      /\ flowId executionLog' = flowId executionLog
      /\ flowName executionLog' = flowName executionLog
      /\ eventType executionLog' = eventType executionLog
      /\ status executionLog' = status executionLog
      /\ reason executionLog' = reason executionLog
      /\ duration executionLog' = duration executionLog.
Proof.
  induction acts as [|a rest IH]; intros i executionLog t; cbn.
  - eexists _, _, _. split; [done|]. by rewrite !app_nil_r.
  - destruct (executeAction host a eventPayload context t) as [[res|e] t1];
      cbn.
    + destruct (IH (S i)
                  (push_performed
                     {| index := i; performed_type := action_type a;
                        performed_result := res |} executionLog) t1)
        as (thrown & log' & t' & Hrun & Hth & Hp & He & Hid & Hfid & Hfn & Het
            & Hst & Hre & Hdu).
      rewrite Hrun. eexists _, _, _. split; [done|]. split; [exact Hth|].
      rewrite Hp, He, Hid, Hfid, Hfn, Het, Hst, Hre, Hdu. cbn.
      by rewrite <- app_assoc.
    + destruct (catchable e) eqn:Hc.
      * rewrite (error_text_catchable e Hc).
        destruct (IH (S i)
                    (push_error
                       {| actionIndex := Some i; error := caught_text e |}
                       executionLog) t1)
          as (thrown & log' & t' & Hrun & Hth & Hp & He & Hid & Hfid & Hfn
              & Het & Hst & Hre & Hdu).
        rewrite Hrun. eexists _, _, _. split; [done|]. split; [exact Hth|].
        rewrite Hp, He, Hid, Hfid, Hfn, Het, Hst, Hre, Hdu. cbn.
        by rewrite <- app_assoc.
      * destruct (error_text_uncatchable e Hc) as [message Hm].
        rewrite Hm. eexists _, _, _. split; [done|].
        split; [by exists message|]. by rewrite !app_nil_r.
Qed.

Lemma forEach_action_spec host eventPayload context acts :
  forall i executionLog t,
    let outs := outcomes host acts eventPayload context t in
    all_catchable outs ->
    exists done t',
      forEach_action host acts i eventPayload context executionLog t
      = (None, done, t')
      /\ actionsPerformed done =
           actionsPerformed executionLog ++ performed_of i acts outs
      /\ errors done = errors executionLog ++ errors_of i outs
      /\ id done = id executionLog
      /\ status done = status executionLog.
Proof.
  induction acts as [|a rest IH]; intros i executionLog t; simpl.
  - intros _. eexists _, _. split; [done|]. by rewrite !app_nil_r.
  - destruct (executeAction host a eventPayload context t) as [[res|e] t'];
      simpl; intros [Hr Hall]%all_catchable_cons.
    + edestruct (IH (S i)) as (done & t'' & Hrun & Hp & He & Hid & Hst);
        [exact Hall|].
      rewrite Hrun. eexists _, _. split; [done|].
      rewrite Hp, He, Hid, Hst. simpl. rewrite <- ?app_assoc. done.
    + rewrite (error_text_catchable e Hr).
      edestruct (IH (S i)) as (done & t'' & Hrun & Hp & He & Hid & Hst);
        [exact Hall|].
      rewrite Hrun. eexists _, _. split; [done|].
      rewrite Hp, He, Hid, Hst. simpl. rewrite <- ?app_assoc. done.
Qed.

Lemma performed_errors_length acts :
  forall i outs, length outs = length acts ->
    (length (performed_of i acts outs) + length (errors_of i outs))%nat
    = length acts.
Proof.
  induction acts as [|a rest IH]; intros i [|[res|e] outs] Hl;
    simpl in *; try done.
  - rewrite IH; [done|lia].
  - rewrite Nat.add_succ_r, IH; [done|lia].
Qed.

Lemma errors_of_lookup outs :
  forall i k e, outs !! k = Some (Throw e) ->
    {| actionIndex := Some (i + k)%nat; error := caught_text e |}
      ∈ errors_of i outs.
Proof.
  induction outs as [|[res|e'] outs IH]; intros i [|k] e Hk;
    simpl in *; try done.
  - replace (i + S k)%nat with (S i + k)%nat by lia. by apply IH.
  - injection Hk as ->. rewrite Nat.add_0_r. left.
  - right. replace (i + S k)%nat with (S i + k)%nat by lia. by apply IH.
Qed.

Lemma errors_of_index outs :
  forall i x, x ∈ errors_of i outs ->
    exists k e, actionIndex x = Some (i + k)%nat /\ outs !! k = Some (Throw e).
Proof.
  induction outs as [|[res|e'] outs IH]; intros i x Hx; simpl in *.
  - by apply elem_of_nil in Hx.
  - destruct (IH _ _ Hx) as (k & e & Hi & Hk).
    exists (S k), e. split; [rewrite Hi; f_equal; lia|done].
  - apply elem_of_cons in Hx as [->|Hx].
    + exists 0%nat, e'. simpl. split; [f_equal; lia|done].
    + destruct (IH _ _ Hx) as (k & e & Hi & Hk).
      exists (S k), e. split; [rewrite Hi; f_equal; lia|done].
Qed.

Lemma performed_of_lookup acts :
  forall outs i k a res,
    acts !! k = Some a -> outs !! k = Some (Ok res) ->
    {| index := (i + k)%nat; performed_type := action_type a;
       performed_result := res |} ∈ performed_of i acts outs.
Proof.
  induction acts as [|a' rest IH]; intros [|[res'|e'] outs] i [|k] a res Ha Hk;
    simpl in *; try done.
  - injection Ha as ->. injection Hk as ->. rewrite Nat.add_0_r. left.
  - right. replace (i + S k)%nat with (S i + k)%nat by lia. by apply IH.
  - replace (i + S k)%nat with (S i + k)%nat by lia. by apply IH.
Qed.

(** ** What [executeFlow] does when the flow fires *)

Lemma sendToBackend_returns host rd fl eventPayload executionLog t :
  is_nullish eventPayload = false ->
  exists t', sendToBackend host rd fl eventPayload executionLog t = (Ok tt, t').
Proof.
  intros Hn. unfold sendToBackend, bind, lift.
  destruct (get_field_defined eventPayload "eventType" Hn) as [et ->].
  destruct (get_field_defined eventPayload "targetKey" Hn) as [tk ->].
  destruct (flow_client_send host) as [send|]; unfold emit, bind, ret; simpl.
  - destruct (send _); eauto.
  - eauto.
Qed.

Lemma take_if_longer {A} (n : nat) (l : list A) :
  (if (n <? length l)%nat then take n l else l) = take n l.
Proof.
  destruct (n <? length l)%nat eqn:H; [done|].
  apply Nat.ltb_ge in H. by rewrite take_ge.
Qed.

(** What [executeFlow] does for an enabled flow and an event that has a
    payload, by what the conditions and the loop over the actions do. *)
Lemma executeFlow_spec host rd fl eventPayload context w :
  enabled fl = true -> is_nullish eventPayload = false ->
  let acts := default [] (actions fl) in
  let history := flowExecutionHistory w in
  exists et,
    get_field eventPayload "eventType" = Ok et
    /\ match evaluateConditions (conditions fl) eventPayload context with
       | Throw e =>
           executeFlow host rd (Some fl) eventPayload context w
           = record_and_return (failed_log e (fresh_log rd fl et)) history
               (effects w)
       | Ok false =>
           executeFlow host rd (Some fl) eventPayload context w
           = (Ok (NotMet "Conditions not met" (id (fresh_log rd fl et))),
              {| flowExecutionHistory :=
                   set_reason "Conditions not met"
                     (set_status skipped (fresh_log rd fl et)) :: history;
                 effects := effects w |})
       | Ok true =>
           exists thrown executionLog t1,
             forEach_action host acts 0 eventPayload context
               (fresh_log rd fl et) (effects w)
             = (thrown, executionLog, t1)
             /\ match thrown with
                | Some e =>
                    executeFlow host rd (Some fl) eventPayload context w
                    = record_and_return (failed_log e executionLog) history t1
                | None =>
                    exists t2,
                      executeFlow host rd (Some fl) eventPayload context w
                      = record_and_return
                          (set_duration (end_ms rd - start_ms rd)
                             (set_status
                                (if is_nil (errors executionLog)
                                 then completed else completed_with_errors)
                                executionLog)) history t2
                end
       end.
Proof.
  intros Hen Hn acts history. unfold executeFlow. rewrite Hen. cbn [negb].
  destruct (get_field_defined eventPayload "eventType" Hn) as [et Het].
  exists et. split; [exact Het|]. rewrite Het.
  fold (fresh_log rd fl et).
  assert (match conditions fl with
          | Some (c :: cs) =>
              evaluateConditions (Some (c :: cs)) eventPayload context
          | _ => Ok true
          end = evaluateConditions (conditions fl) eventPayload context) as ->.
  { by destruct (conditions fl) as [[|c cs]|]. }
  destruct (evaluateConditions (conditions fl) eventPayload context)
    as [[|]|e] eqn:Hc; [|done|].
  2:{ apply fail_and_return_catchable.
      by apply evaluateConditions_catchable in Hc. }
  assert (match actions fl with
          | Some (a :: rest) =>
              forEach_action host (a :: rest) 0 eventPayload context
                (fresh_log rd fl et) (effects w)
          | _ => (None, fresh_log rd fl et, effects w)
          end = forEach_action host acts 0 eventPayload context
                  (fresh_log rd fl et) (effects w)) as ->.
  { subst acts. by destruct (actions fl) as [[|a rest]|]. }
  destruct (forEach_action host acts 0 eventPayload context
              (fresh_log rd fl et) (effects w)) as [[thrown log1] t1] eqn:Hrun.
  exists thrown, log1, t1. split; [done|].
  destruct thrown as [e|].
  - apply forEach_action_thrown in Hrun as [message ->].
    by apply fail_and_return_catchable.
  - assert (exists t2,
      match flow_sendToBackend fl with
      | Some false => (Ok tt, t1)
      | _ => sendToBackend host rd fl eventPayload log1 t1
      end = (Ok tt, t2)) as [t2 ->].
    { destruct (flow_sendToBackend fl) as [[|]|]; eauto;
        apply sendToBackend_returns; done. }
    exists t2. do 3 f_equal. by destruct (errors log1).
Qed.

Lemma executeFlow_fires host rd fl eventPayload context w :
  fires fl eventPayload context ->
  let acts := default [] (actions fl) in
  let outs := outcomes host acts eventPayload context (effects w) in
  all_catchable outs ->
  exists executionLog t',
    executeFlow host rd (Some fl) eventPayload context w =
      (Ok (Executed (is_nil (errors_of 0 outs))
             (id executionLog)
             (length (performed_of 0 acts outs))
             (errors_of 0 outs)),
       {| flowExecutionHistory :=
            take 100 (executionLog :: flowExecutionHistory w);
          effects := t' |})
    /\ actionsPerformed executionLog = performed_of 0 acts outs
    /\ errors executionLog = errors_of 0 outs
    /\ status executionLog =
         (if is_nil (errors_of 0 outs)
          then completed else completed_with_errors)
    /\ id executionLog =
         "exec-" +:+ number_text (id_ms rd) +:+ "-" +:+ id_random rd.
Proof.
  intros (Hen & Hn & Hc) acts outs Hall. unfold executeFlow.
  rewrite Hen. cbn [negb].
  destruct (get_field_defined eventPayload "eventType" Hn) as [et ->].
  set (log0 := {| id := _; status := running |}).
  assert (match conditions fl with
          | Some (c :: cs) =>
              evaluateConditions (Some (c :: cs)) eventPayload context
          | _ => Ok true
          end = Ok true) as ->.
  { destruct (conditions fl) as [[|c cs]|]; done. }
  assert (match actions fl with
          | Some (a :: rest) =>
              forEach_action host (a :: rest) 0 eventPayload context log0
                (effects w)
          | _ => (None, log0, effects w)
          end = forEach_action host acts 0 eventPayload context log0 (effects w))
    as ->.
  { subst acts. destruct (actions fl) as [[|a rest]|]; done. }
  destruct (forEach_action_spec host eventPayload context acts 0 log0
              (effects w) Hall)
    as (log1 & t1 & -> & Hp & He & Hid & Hst).
  fold outs in Hp, He. simpl in Hp, He.
  assert (exists t2,
    match flow_sendToBackend fl with
    | Some false => (Ok tt, t1)
    | _ => sendToBackend host rd fl eventPayload log1 t1
    end = (Ok tt, t2)) as [t2 ->].
  { destruct (flow_sendToBackend fl) as [[|]|]; eauto;
      apply sendToBackend_returns; done. }
  unfold record_and_return. rewrite take_if_longer. simpl.
  exists (set_duration (end_ms rd - start_ms rd)
            (set_status
               (if (0 <? length (errors log1))%nat
                then completed_with_errors else completed) log1)), t2.
  simpl. rewrite Hp, He.
  split; [|split; [|split; [|split]]]; try done.
  - do 2 f_equal. destruct (errors_of 0 outs); done.
  - destruct (errors_of 0 outs); done.
Qed.

Lemma errors_of_nil outs :
  errors_of 0 outs = [] <-> forall i e, outs !! i <> Some (Throw e).
Proof.
  split.
  - intros Hnil i e Hi.
    pose proof (errors_of_lookup outs 0 i e Hi) as Hin.
    rewrite Hnil in Hin. by apply elem_of_nil in Hin.
  - intros Hno. destruct (errors_of 0 outs) as [|x l] eqn:Hl; [done|].
    destruct (errors_of_index outs 0 x) as (k & e & _ & Hk).
    + rewrite Hl. left.
    + by destruct (Hno k e).
Qed.

(** ** Partial failure *)

(** C2, as the code has it.  For a flow that fires with exactly three
    actions, of which the second throws what its handler can record (an
    [Error], or another value for which [e.message || String(e)]
    evaluates) and the other two return, [executeFlow] returns
    [actionsPerformed === 2] (the actions that returned) and one error,
    recorded with index 1 and with the message of what was thrown; the
    Execution Record at the front of the log has status
    [completed_with_errors], and its [actionsPerformed] holds the first
    and the third action: the action after the failing one was
    executed. *)
Theorem partial_failure_tolerance host rd fl eventPayload context w
    a0 a1 a2 r0 e r2 :
  fires fl eventPayload context ->
  actions fl = Some [a0; a1; a2] ->
  outcomes host [a0; a1; a2] eventPayload context (effects w)
    = [Ok r0; Throw e; Ok r2] ->
  catchable e = true ->
  exists executionLog w',
    executeFlow host rd (Some fl) eventPayload context w =
      (Ok (Executed false (id executionLog) 2
             [{| actionIndex := Some 1%nat; error := caught_text e |}]), w')
    /\ error_text e = Ok (caught_text e)
    /\ head (flowExecutionHistory w') = Some executionLog
    /\ status executionLog = completed_with_errors
    /\ errors executionLog =
         [{| actionIndex := Some 1%nat; error := caught_text e |}]
    /\ actionsPerformed executionLog =
         [{| index := 0; performed_type := action_type a0;
             performed_result := r0 |};
          {| index := 2; performed_type := action_type a2;
             performed_result := r2 |}].
Proof.
  intros Hf Hacts Houts He.
  destruct (executeFlow_fires host rd fl eventPayload context w Hf)
    as (executionLog & t' & Hrun & Hp & Herr & Hst & Hid).
  { rewrite Hacts. change (default [] (Some [a0; a1; a2])) with [a0; a1; a2].
    rewrite Houts. intros [|[|[|i]]] e' Hi; try done.
    by injection Hi as <-. }
  rewrite Hacts in Hrun, Hp, Herr, Hst.
  change (default [] (Some [a0; a1; a2])) with [a0; a1; a2] in *.
  rewrite Houts in Hrun, Hp, Herr, Hst.
  cbn [errors_of performed_of is_nil length] in Hrun, Hp, Herr, Hst.
  eexists executionLog, _. split; [exact Hrun|].
  split; [by apply error_text_catchable|]. done.
Qed.

(** ** Failures of single actions *)

(** C3, as the code has it.  For a flow that fires and whose actions
    throw only what their handler can record (an [Error], or another
    value for which [e.message || String(e)] evaluates), every action is
    attempted.  An action that throws is captured in [errors] with its
    index and the message of what it threw; an action that returns,
    [{ success: false }] included, is
    recorded with its index and result in [actionsPerformed] and leaves no
    entry in [errors].  [executeFlow] reports success, with status
    [completed], exactly when no action threw, and status
    [completed_with_errors] otherwise. *)
Theorem action_failures_recorded host rd fl eventPayload context w :
  fires fl eventPayload context ->
  let acts := default [] (actions fl) in
  let outs := outcomes host acts eventPayload context (effects w) in
  all_catchable outs ->
  exists executionLog w' success,
    executeFlow host rd (Some fl) eventPayload context w =
      (Ok (Executed success (id executionLog)
             (length (actionsPerformed executionLog))
             (errors executionLog)), w')
    /\ head (flowExecutionHistory w') = Some executionLog
    /\ (length (actionsPerformed executionLog)
         + length (errors executionLog))%nat = length acts
    /\ (forall i e, outs !! i = Some (Throw e) ->
          error_text e = Ok (caught_text e)
          /\ {| actionIndex := Some i; error := caught_text e |}
               ∈ errors executionLog)
    /\ (forall i a res, acts !! i = Some a -> outs !! i = Some (Ok res) ->
          {| index := i; performed_type := action_type a;
             performed_result := res |} ∈ actionsPerformed executionLog
          /\ forall x, x ∈ errors executionLog -> actionIndex x <> Some i)
    /\ (success = true <-> forall i e, outs !! i <> Some (Throw e))
    /\ status executionLog =
         (if success then completed else completed_with_errors).
Proof.
  intros Hf acts outs Hall.
  destruct (executeFlow_fires host rd fl eventPayload context w Hf Hall)
    as (executionLog & t' & Hrun & Hp & He & Hst & Hid).
  fold acts in Hrun, Hp, He, Hst. fold outs in Hrun, Hp, He, Hst.
  eexists executionLog, _, (is_nil (errors_of 0 outs)).
  rewrite Hp, He. split; [exact Hrun|].
  split; [done|].
  split; [apply performed_errors_length, outcomes_length|].
  split; [intros i e Hi; split;
          [apply error_text_catchable, (Hall i e Hi)
          |apply (errors_of_lookup outs 0 i e Hi)]|].
  split.
  { intros i a res Ha Hi. split.
    - apply (performed_of_lookup acts outs 0 i a res Ha Hi).
    - intros x Hx Heq.
      destruct (errors_of_index outs 0 x Hx) as (k & e & Hk & Hthrow).
      rewrite Hk in Heq. simpl in Heq. injection Heq as ->. congruence. }
  split; [|exact Hst].
  rewrite <- errors_of_nil. destruct (errors_of 0 outs); simpl; split; done.
Qed.

(** ** The bound of the execution log *)

Lemma executeFlow_skips host rd fl eventPayload context w :
  skips fl eventPayload context ->
  exists executionLog,
    executeFlow host rd (Some fl) eventPayload context w =
      (Ok (NotMet "Conditions not met" (id executionLog)),
       {| flowExecutionHistory := executionLog :: flowExecutionHistory w;
          effects := effects w |})
    /\ status executionLog = skipped.
Proof.
  intros (Hen & Hn & Hne & Hc). unfold executeFlow.
  rewrite Hen. cbn [negb].
  destruct (get_field_defined eventPayload "eventType" Hn) as [et ->].
  destruct (conditions fl) as [[|c cs]|]; try done.
  rewrite Hc.
  match goal with |- context [?l :: flowExecutionHistory w] => exists l end.
  split; reflexivity.
Qed.

Lemma fire_skips_length host fl eventPayload context readings :
  skips fl eventPayload context ->
  forall w,
    length (flowExecutionHistory
              (fire host readings (Some fl) eventPayload context w))
    = (length readings + length (flowExecutionHistory w))%nat.
Proof.
  intros Hs. induction readings as [|rd rest IH]; intros w; [done|].
  cbn [fire].
  destruct (executeFlow_skips host rd fl eventPayload context w Hs)
    as (executionLog & -> & _).
  rewrite IH. simpl. lia.
Qed.

(** The record of the latest call that fired is at the front, and the
    log is cut back to 100 records. *)
Lemma executeFlow_fires_front host rd fl eventPayload context w :
  fires fl eventPayload context ->
  exists executionLog,
    flowExecutionHistory
      (executeFlow host rd (Some fl) eventPayload context w).2
    = executionLog :: take 99 (flowExecutionHistory w)
    /\ id executionLog = "exec-" +:+ number_text (id_ms rd) +:+ "-" +:+ id_random rd.
Proof.
  intros (Hen & Hn & Hc).
  destruct (executeFlow_spec host rd fl eventPayload context w Hen Hn)
    as (et & _ & Hspec).
  rewrite Hc in Hspec.
  destruct Hspec as (thrown & log1 & t1 & Hrun & Hspec).
  destruct (forEach_action_run host eventPayload context
              (default [] (actions fl)) 0 (fresh_log rd fl et) (effects w))
    as (thrown' & log1' & t1' & Hrun' & _ & _ & _ & Hid & _).
  rewrite Hrun in Hrun'. injection Hrun' as <- <- <-.
  destruct thrown as [e|]; [|destruct Hspec as [t2 Hspec]];
    rewrite Hspec; unfold record_and_return; rewrite take_if_longer;
    eexists; (split; [reflexivity|]); exact Hid.
Qed.

Lemma fire_fires_length host fl eventPayload context readings :
  fires fl eventPayload context ->
  forall w,
    length (flowExecutionHistory
              (fire host readings (Some fl) eventPayload context w))
    = match readings with
      | [] => length (flowExecutionHistory w)
      | _ => (length readings + length (flowExecutionHistory w)) `min` 100
      end%nat.
Proof.
  intros Hf. induction readings as [|rd rest IH]; intros w; [done|].
  cbn [fire].
  destruct (executeFlow_fires_front host rd fl eventPayload context w Hf)
    as (executionLog & Hfront & _).
  rewrite IH, Hfront.
  destruct rest as [|rd' rest]; cbn [length]; rewrite length_take; lia.
Qed.

(** 105 executions that run their actions leave exactly 100 records. *)
Lemma fire_105_completed :
  length (flowExecutionHistory
            (fire console_host (replicate 105 sample_readings)
               (Some three_actions) task_dropped broken_dispatcher empty_world))
  = 100%nat.
Proof. rewrite fire_fires_length; [reflexivity|by repeat split]. Qed.

(** C5, on the code.  The branch that records a skipped execution
    returns before the log is cut back to 100 entries: 105 executions of
    a flow whose condition does not hold leave 105 Execution Records. *)
Theorem skipped_executions_exceed_the_bound :
  skips when_done task_dropped broken_dispatcher
  /\ length (flowExecutionHistory
               (fire console_host (replicate 105 sample_readings)
                  (Some when_done) task_dropped broken_dispatcher empty_world))
     = 105%nat.
Proof.
  assert (skips when_done task_dropped broken_dispatcher) as Hs
    by (by repeat split).
  split; [exact Hs|]. rewrite fire_skips_length; [reflexivity|exact Hs].
Qed.

End FlowEngineFacts.

(** ** The statements on the sample inputs *)

Section FlowEngineExamples.
Import FlowEngine.
#[local] Existing Instance sample_realm.

(** The dropped task, in a realm where the constructor of an object is
    the function [Object]. *)
Lemma getValueFromPath_throws_on_inherited_accessor_witness :
  exists message,
    getValueFromPath task_dropped "constructor.caller"
    = Throw (JsError "TypeError" message).
Proof.
  eexists.
  apply (getValueFromPath_throws_on_inherited_accessor
           [("eventType", VStr "task.dropped"); ("taskId", VStr "T-101");
            ("toStatus", VStr "In Progress");
            ("targetKey", VStr "task:T-101")]
           "Object" "TypeError" _ bare_context); reflexivity.
Defined.

(** Interpolation reads what the payload inherits: the name of its
    constructor and the text of a method take the place of their
    tokens. *)
Lemma interpolation_reads_inherited_members :
  interpolateVariables (VStr "made by {{constructor.name}}") task_dropped
    bare_context = Ok (VStr "made by Object")
  /\ interpolateVariables (VStr "{{toString}}") task_dropped bare_context
     = Ok (VStr "function toString() { [native code] }")
  /\ interpolateVariables (VStr "{{taskId.length}} units") task_dropped
       bare_context = Ok (VStr "5 units").
Proof. by repeat split. Qed.

(** C2, on the code.  With three actions of which the second throws,
    [executeFlow] returns [actionsPerformed === 2], not [3]: only the
    actions that returned are counted. *)
Lemma partial_failure_counts_returned_actions :
  fires three_actions task_dropped broken_dispatcher
  /\ (exists r0 e r2,
        outcomes console_host (default [] (actions three_actions)) task_dropped
          broken_dispatcher (effects empty_world) = [Ok r0; Throw e; Ok r2])
  /\ (executeFlow console_host sample_readings (Some three_actions)
        task_dropped broken_dispatcher empty_world).1
     = Ok (Executed false "exec-1700000000000-9f3a" 2
             [{| actionIndex := Some 1%nat;
                 error := VStr "dispatcher unavailable" |}])
  /\ (forall success executionId errs,
        (executeFlow console_host sample_readings (Some three_actions)
           task_dropped broken_dispatcher empty_world).1
        <> Ok (Executed success executionId 3 errs)).
Proof.
  split; [by repeat split|].
  split; [by eexists _, _, _|].
  split; [reflexivity|].
  intros success executionId errs. vm_compute. discriminate.
Qed.

Lemma partial_failure_tolerance_witness :
  catchable (JsError "Error" "dispatcher unavailable") = true
  /\ exists executionLog w',
    executeFlow console_host sample_readings (Some three_actions) task_dropped
      broken_dispatcher empty_world =
      (Ok (Executed false (id executionLog) 2
             [{| actionIndex := Some 1%nat;
                 error := VStr "dispatcher unavailable" |}]),
       w')
    /\ head (flowExecutionHistory w') = Some executionLog
    /\ status executionLog = completed_with_errors
    /\ actionsPerformed executionLog =
         [{| index := 0; performed_type := "log_message";
             performed_result :=
               VObj [("success", VBool true);
                     ("message", VStr "T-101 before");
                     ("level", VStr "info")] |};
          {| index := 2; performed_type := "log_message";
             performed_result :=
               VObj [("success", VBool true);
                     ("message", VStr "T-101 after");
                     ("level", VStr "info")] |}].
Proof.
  split; [reflexivity|].
  destruct (partial_failure_tolerance console_host sample_readings
              three_actions task_dropped broken_dispatcher empty_world
              (log_action "{{taskId}} before") set_view_action
              (log_action "{{taskId}} after") _ _ _
              (conj eq_refl (conj eq_refl eq_refl)) eq_refl eq_refl eq_refl)
    as (executionLog & w' & Hrun & _ & Hhead & Hst & _ & Hp).
  exists executionLog, w'. done.
Defined.

(** C3, on the code.  An action of an unknown type returns
    [{ success: false }]; the failure is not in [errors], and
    [executeFlow] reports success with the clean status [completed]. *)
Lemma returned_failure_is_not_an_error :
  fires unknown_action task_dropped broken_dispatcher
  /\ outcomes console_host (default [] (actions unknown_action)) task_dropped
       broken_dispatcher (effects empty_world)
     = [Ok (VObj [("success", VBool false);
                  ("reason", VStr "Unknown action type: send_email")])]
  /\ (executeFlow console_host sample_readings (Some unknown_action)
        task_dropped broken_dispatcher empty_world).1
     = Ok (Executed true "exec-1700000000000-9f3a" 1 [])
  /\ status <$> head (flowExecutionHistory
        (executeFlow console_host sample_readings (Some unknown_action)
           task_dropped broken_dispatcher empty_world).2)
     = Some completed.
Proof. by repeat split. Qed.

Lemma action_failures_recorded_witness :
  all_catchable
    (outcomes console_host (default [] (actions three_actions)) task_dropped
       broken_dispatcher (effects empty_world))
  /\ exists executionLog w' success,
    executeFlow console_host sample_readings (Some three_actions) task_dropped
      broken_dispatcher empty_world =
      (Ok (Executed success (id executionLog)
             (length (actionsPerformed executionLog))
             (errors executionLog)), w')
    /\ head (flowExecutionHistory w') = Some executionLog
    /\ (length (actionsPerformed executionLog)
         + length (errors executionLog))%nat
       = length (default [] (actions three_actions))
    /\ (success = true <->
        forall i e,
          outcomes console_host (default [] (actions three_actions))
            task_dropped broken_dispatcher (effects empty_world) !! i
          <> Some (Throw e))
    /\ status executionLog =
         (if success then completed else completed_with_errors).
Proof.
  assert (Hall : all_catchable
    (outcomes console_host (default [] (actions three_actions)) task_dropped
       broken_dispatcher (effects empty_world))).
  { intros [|[|[|i]]] e Hi; try done. cbn in Hi. by injection Hi as <-. }
  split; [exact Hall|].
  destruct (action_failures_recorded console_host sample_readings
              three_actions task_dropped broken_dispatcher empty_world
              (conj eq_refl (conj eq_refl eq_refl)) Hall)
    as (executionLog & w' & success & Hrun & Hhead & Hlen & _ & _ & Hs & Hst).
  exists executionLog, w', success. done.
Defined.

End FlowEngineExamples.

(** * Properties of the history engine *)

Section HistoryFacts.
Import Heap History.
Open Scope Z_scope.

(** ** The position invariant *)

Lemma slice0_take (xs : list hval) (e : Z) :
  0 <= e -> slice0 xs e = take (Z.to_nat e) xs.
Proof. intros H. unfold slice0. destruct (e <? 0) eqn:E; [lia|done]. Qed.

(** What a call of [applyChange] comes to: it throws and the pending
    state is untouched, or it returns and the pending state has the
    clone appended after the entries up to the rendered index. *)
Lemma applyChange_cases r label mutator now σ p :
  (exists e σ', applyChange r label mutator now σ p = (Throw e, σ', p))
  \/ (exists clone σ',
        applyChange r label mutator now σ p =
          (Ok tt, σ',
           {| history := slice0 (history p) (currentIndex r + 1) ++ [clone];
              currentIndex := currentIndex p + 1;
              commitIndex := commitIndex p |})).
Proof.
  unfold applyChange.
  destruct (JSON_stringify σ (currentSnapshot r)) as [text|e];
    [|left; by eexists _, _].
  destruct (JSON_parse text σ) as [[clone σ1]|e]; [|left; by eexists _, _].
  destruct (match mutator with Some m => m clone σ1 | None => ([], None) end)
    as [ops [e|]]; [left; by eexists _, _|].
  destruct (assign_named clone "id" _ _) as [σ3|e]; [|left; by eexists _, _].
  destruct (assign_named clone "label" _ _) as [σ4|e]; [|left; by eexists _, _].
  destruct (assign_named clone "timestamp" _ _) as [σ5|e];
    [|left; by eexists _, _].
  right. by eexists _, _.
Qed.

Lemma applyChange_positioned s label mutator now σ :
  well_positioned s ->
  well_positioned (applyChange s label mutator now σ s).2.
Proof.
  intros (H0 & H1 & H2).
  destruct (applyChange_cases s label mutator now σ s)
    as [(e & σ' & ->)|(clone & σ' & ->)]; [done|].
  unfold well_positioned. simpl.
  rewrite slice0_take, length_app, length_take by lia. simpl. lia.
Qed.

Lemma commit_history_length s σ :
  length (history (commit s σ s).2) = length (history s).
Proof.
  unfold commit. destruct (negb _); simpl; [done|]. by rewrite length_insert.
Qed.

Lemma commit_indices s σ :
  currentIndex (commit s σ s).2 = currentIndex s
  /\ commitIndex (commit s σ s).2 = currentIndex s.
Proof. unfold commit. destruct (negb _); done. Qed.

Lemma step_positioned e op :
  well_positioned (state e) -> well_positioned (state (step e op)).
Proof.
  intros Hwp. pose proof Hwp as (H0 & H1 & H2).
  destruct op as [label mutator now| | | |index]; simpl.
  - pose proof (applyChange_positioned (state e) label mutator now (heap e) Hwp).
    destruct (applyChange _ _ _ _ _ _) as [[res σ'] s']. done.
  - unfold undo, canUndo. destruct (_ <? _) eqn:E; simpl; [|done].
    unfold well_positioned. simpl. lia.
  - unfold redo, canRedo. destruct (_ <? _) eqn:E; simpl; [|done].
    unfold well_positioned. simpl. lia.
  - pose proof (commit_history_length (state e) (heap e)) as Hl.
    pose proof (commit_indices (state e) (heap e)) as [Hc Hk].
    destruct (commit _ _ _) as [σ' s']. simpl in *.
    unfold well_positioned. rewrite Hl, Hc, Hk. lia.
  - unfold jump.
    destruct (_ || _) eqn:E; simpl; [done|].
    apply orb_false_elim in E as [E E3]. apply orb_false_elim in E as [E1 E2].
    unfold well_positioned. simpl. lia.
Qed.

Lemma run_snoc e ops op : run e (ops ++ [op]) = step (run e ops) op.
Proof. unfold run. by rewrite fold_left_app. Qed.

Lemma run_positioned e ops :
  well_positioned (state e) -> well_positioned (state (run e ops)).
Proof.
  revert e. induction ops as [|op ops IH]; intros e Hwp; [done|].
  simpl. apply IH, step_positioned, Hwp.
Qed.

Lemma mount_positioned σ initialSnapshot :
  well_positioned (state (mount σ initialSnapshot)).
Proof. unfold well_positioned. simpl. lia. Qed.

Lemma step_commitIndex e op :
  well_positioned (state e) ->
  commitIndex (state e) <= commitIndex (state (step e op))
  /\ match op with
     | Undo | Redo | Jump _ =>
         commitIndex (state (step e op)) = commitIndex (state e)
     | _ => True
     end.
Proof.
  intros (H0 & H1 & H2).
  destruct op as [label mutator now| | | |index]; simpl.
  - destruct (applyChange_cases (state e) label mutator now (heap e) (state e))
      as [(x & σ' & ->)|(clone & σ' & ->)]; simpl; lia.
  - unfold undo. destruct (negb _); simpl; lia.
  - unfold redo. destruct (negb _); simpl; lia.
  - pose proof (commit_indices (state e) (heap e)) as [Hc Hk].
    destruct (commit _ _ _) as [σ' s']. simpl in *. lia.
  - unfold jump. destruct (_ || _); simpl; lia.
Qed.

(** The operations are closures of one render, and [step] takes each
    call from the render that follows the previous one.  Two calls of
    [applyChange] made from the same render read the same list and
    index: the second drops the snapshot of the first, and the two
    increments leave [currentIndex] one past the end. *)
Lemma applyChange_twice_in_one_render :
  let r := state board in
  let first := applyChange r "Move T-101" None "10:00:00" (heap board) r in
  let second := applyChange r "Update T-101" None "10:00:00" first.1.2 first.2 in
  length (history second.2) = 2%nat
  /\ currentIndex second.2 = 2
  /\ ~ well_positioned second.2.
Proof.
  split; [reflexivity|]. split; [reflexivity|].
  intros (_ & _ & H). vm_compute in H. by apply H.
Qed.

(** Whatever sequence of [applyChange], [undo], [redo], [commit] and
    [jump] is run on the mounted hook, each call made from the render
    that follows the previous one: before and after each further
    operation [0 ≤ commitIndex ≤ currentIndex ≤ history.length - 1]
    holds; no operation lowers [commitIndex], which [undo], [redo] and
    [jump] leave as it is; and [currentIndex] is never below
    [commitIndex]. *)
Lemma history_invariant (σ : store) (initialSnapshot : hval)
    (ops : list Op) (op : Op) :
  let before := run (mount σ initialSnapshot) ops in
  let after := step before op in
  well_positioned (state before)
  /\ well_positioned (state after)
  /\ commitIndex (state before) <= commitIndex (state after)
  /\ match op with
     | Undo | Redo | Jump _ =>
         commitIndex (state after) = commitIndex (state before)
     | _ => True
     end
  /\ commitIndex (state after) <= currentIndex (state after).
Proof.
  intros before after.
  assert (well_positioned (state before)) as Hb
    by apply run_positioned, mount_positioned.
  assert (well_positioned (state after)) as Ha by by apply step_positioned.
  destruct (step_commitIndex before op Hb) as [Hle Heq].
  repeat split; try apply Hb; try apply Ha; done.
Qed.

(** C1, on the code.  The guard of [undo] reads [canUndo] of the render
    that made the closure, while its updater decrements the pending
    index.  On the board after a change, a commit and a second change
    ([currentIndex] 2, [commitIndex] 1), three calls of [undo()] made by
    one event handler all pass the guard: the second leaves
    [currentIndex] at 0, below [commitIndex], and the third at -1, below
    0.  The next render has no current snapshot, and a call of
    [applyChange] from it throws. *)
Theorem undo_repeated_in_one_event_passes_the_commit :
  let r := state next_board in
  let twice := undo r (undo r r) in
  let thrice := undo r twice in
  well_positioned r
  /\ currentIndex r = 2 /\ commitIndex r = 1 /\ canUndo r = true
  /\ currentIndex twice = 0 /\ commitIndex twice = 1
  /\ ~ well_positioned twice
  /\ currentIndex thrice = -1 /\ commitIndex thrice = 1
  /\ ~ well_positioned thrice
  /\ currentSnapshot thrice = HUndefined
  /\ exists message,
       (applyChange thrice "Switch to Timeline" (Some (set_view "Timeline"))
          "10:06:00" (heap next_board) thrice).1.1
       = Throw (JsError "SyntaxError" message).
Proof.
  split; [unfold well_positioned; vm_compute; by repeat split|].
  do 5 (split; [reflexivity|]).
  split; [intros (_ & H & _); vm_compute in H; by apply H|].
  do 2 (split; [reflexivity|]).
  split; [intros (_ & H & _); vm_compute in H; by apply H|].
  split; [reflexivity|]. by eexists.
Qed.

(** ** Calls of [applyChange] that return *)

Lemma applyChange_returns_inv r label mutator now σ p σ' p' :
  applyChange r label mutator now σ p = (Ok tt, σ', p') ->
  exists text clone σ1 ops σ3 σ4,
    JSON_stringify σ (currentSnapshot r) = Ok text
    /\ JSON_parse text σ = Ok (clone, σ1)
    /\ mutation mutator clone σ1 = (ops, None)
    /\ assign_named clone "id" (HNum (Z.of_nat (length (history r))))
         (apply_ops σ1 ops) = Ok σ3
    /\ assign_named clone "label" (HStr label) σ3 = Ok σ4
    /\ assign_named clone "timestamp" (HStr now) σ4 = Ok σ'
    /\ p' = {| history := slice0 (history p) (currentIndex r + 1) ++ [clone];
               currentIndex := currentIndex p + 1;
               commitIndex := commitIndex p |}.
Proof.
  unfold applyChange. intros H.
  destruct (JSON_stringify σ (currentSnapshot r)) as [text|e] eqn:H0; [|done].
  destruct (JSON_parse text σ) as [[clone σ1]|e] eqn:H1; [|done].
  change (match mutator with Some m => m clone σ1 | None => ([], None) end)
    with (mutation mutator clone σ1) in H.
  destruct (mutation mutator clone σ1) as [ops [e|]] eqn:H2; [done|].
  destruct (assign_named clone "id" _ _) as [σ3|e] eqn:H3; [|done].
  destruct (assign_named clone "label" _ _) as [σ4|e] eqn:H4; [|done].
  destruct (assign_named clone "timestamp" _ _) as [σ5|e] eqn:H5; [|done].
  injection H as <- <-. by eexists text, clone, σ1, ops, σ3, σ4.
Qed.

Lemma assoc_set_assoc_eq {A} k (v : A) props :
  assoc k (set_assoc k v props) = Some v.
Proof.
  induction props as [|[k' v'] rest IH]; simpl.
  - by rewrite String.eqb_refl.
  - destruct (String.eqb k k') eqn:E; simpl; rewrite ?String.eqb_refl, ?E; done.
Qed.

Lemma assoc_set_assoc_ne {A} k k' (v : A) props :
  k <> k' -> assoc k' (set_assoc k v props) = assoc k' props.
Proof.
  intros Hne. induction props as [|[k2 v2] rest IH]; simpl.
  - destruct (String.eqb k' k) eqn:E; [|done].
    apply String.eqb_eq in E. congruence.
  - destruct (String.eqb k k2) eqn:E; simpl.
    + apply String.eqb_eq in E as <-.
      destruct (String.eqb k' k) eqn:E'; [|done].
      apply String.eqb_eq in E'. congruence.
    + by rewrite IH.
Qed.

Lemma assign_named_inv target key v σ σ' :
  assign_named target key v σ = Ok σ' ->
  exists l c c', target = HRef l /\ σ !! l = Some c /\ σ' = <[l := c']> σ
    /\ match c, c' with
       | CObj props, CObj props' => props' = set_assoc key v props
       | CArr elems extra, CArr elems' extra' =>
           elems' = elems /\ extra' = set_assoc key v extra
       | _, _ => False
       end.
Proof.
  destruct target; simpl; try done.
  destruct (σ !! l) as [[props|elems extra]|] eqn:Hl; intros [= <-].
  - eexists l, _, _. by repeat split.
  - eexists l, _, _. by repeat split.
Qed.

Lemma assign_named_read target key v σ σ' :
  assign_named target key v σ = Ok σ' ->
  read_named σ' target key = Ok v.
Proof.
  intros (l & c & c' & -> & Hl & -> & Hc)%assign_named_inv.
  unfold read_named.
  rewrite list_lookup_insert_eq by (by eapply lookup_lt_Some).
  destruct c, c'; try done.
  - subst. by rewrite assoc_set_assoc_eq.
  - destruct Hc as [-> ->]. by rewrite assoc_set_assoc_eq.
Qed.

Lemma assign_named_read_other target key key' v σ σ' :
  assign_named target key v σ = Ok σ' -> key <> key' ->
  read_named σ' target key' = read_named σ target key'.
Proof.
  intros (l & c & c' & -> & Hl & -> & Hc)%assign_named_inv Hne.
  unfold read_named.
  rewrite list_lookup_insert_eq by (by eapply lookup_lt_Some). rewrite Hl.
  destruct c, c'; try done.
  - subst. by rewrite assoc_set_assoc_ne.
  - destruct Hc as [-> ->]. by rewrite assoc_set_assoc_ne.
Qed.

Lemma assign_named_length target key v σ σ' :
  assign_named target key v σ = Ok σ' -> length σ' = length σ.
Proof.
  intros (l & c & c' & -> & Hl & -> & Hc)%assign_named_inv.
  apply length_insert.
Qed.

Lemma assign_named_returns l key v σ :
  (l < length σ)%nat -> exists σ', assign_named (HRef l) key v σ = Ok σ'.
Proof.
  intros Hl. unfold assign_named.
  destruct (lookup_lt_is_Some_2 σ l Hl) as [[props|elems extra] ->]; eauto.
Qed.

Lemma apply_ops_length σ ops : (length σ <= length (apply_ops σ ops))%nat.
Proof.
  revert σ. induction ops as [|op ops IH]; intros σ; simpl; [done|].
  etrans; [|apply IH]. destruct op; simpl.
  - rewrite length_app. simpl. lia.
  - by rewrite length_insert.
Qed.

Lemma parse_value_arr xs σ :
  parse_value (VArr xs) σ =
  let '(hs, σ1) := parse_elems xs σ in
  (HRef (length σ1), σ1 ++ [CArr hs []]).
Proof.
  simpl.
  assert (forall l σ0,
    (fix elems (l : list value) (σ : store) : list hval * store :=
       match l with
       | [] => ([], σ)
       | x :: r =>
           let '(h, σ1) := parse_value x σ in
           let '(hs, σ2) := elems r σ1 in (h :: hs, σ2)
       end) l σ0 = parse_elems l σ0) as ->; [|done].
  induction l as [|x r IH]; intros σ0; simpl; [done|].
  destruct (parse_value x σ0) as [h σ1]. by rewrite IH.
Qed.

Lemma parse_value_obj props σ :
  parse_value (VObj props) σ =
  let '(hps, σ1) := parse_members props σ in
  (HRef (length σ1), σ1 ++ [CObj hps]).
Proof.
  simpl.
  assert (forall l σ0,
    (fix members (l : list (string * value)) (σ : store)
       : list (string * hval) * store :=
       match l with
       | [] => ([], σ)
       | (k, x) :: r =>
           let '(h, σ1) := parse_value x σ in
           let '(hs, σ2) := members r σ1 in ((k, h) :: hs, σ2)
       end) l σ0 = parse_members l σ0) as ->; [|done].
  induction l as [|[k x] r IH]; intros σ0; simpl; [done|].
  destruct (parse_value x σ0) as [h σ1]. by rewrite IH.
Qed.

Lemma parse_structure text σ :
  is_structure text = true ->
  exists l σ1, JSON_parse text σ = Ok (HRef l, σ1) /\ (l < length σ1)%nat.
Proof.
  destruct text as [| | | | |xs|props]; try done; intros _;
    unfold JSON_parse.
  - rewrite parse_value_arr. destruct (parse_elems xs σ) as [hs σ1].
    eexists _, _. split; [done|]. rewrite length_app. simpl. lia.
  - rewrite parse_value_obj. destruct (parse_members props σ) as [hps σ1].
    eexists _, _. split; [done|]. rewrite length_app. simpl. lia.
Qed.

(** When the call returns: the current snapshot is an object (or an
    array) that serializes, and the mutator returns. *)
Lemma applyChange_returns r label mutator now σ p text :
  JSON_stringify σ (currentSnapshot r) = Ok text ->
  is_structure text = true ->
  (forall clone σ1, JSON_parse text σ = Ok (clone, σ1) ->
     (mutation mutator clone σ1).2 = None) ->
  exists σ', (applyChange r label mutator now σ p).1 = (Ok tt, σ').
Proof.
  intros Hs Ht Hm. unfold applyChange. rewrite Hs.
  destruct (parse_structure text σ Ht) as (l & σ1 & Hp & Hl). rewrite Hp.
  specialize (Hm _ _ Hp). unfold mutation in Hm.
  destruct (match mutator with Some m => m (HRef l) σ1 | None => ([], None) end)
    as [ops thrown]. simpl in Hm. subst thrown.
  pose proof (apply_ops_length σ1 ops) as Hle.
  destruct (assign_named_returns l "id"
              (HNum (Z.of_nat (length (history r)))) (apply_ops σ1 ops))
    as [σ3 H3]; [lia|].
  rewrite H3. pose proof (assign_named_length _ _ _ _ _ H3) as L3.
  destruct (assign_named_returns l "label" (HStr label) σ3) as [σ4 H4]; [lia|].
  rewrite H4. pose proof (assign_named_length _ _ _ _ _ H4) as L4.
  destruct (assign_named_returns l "timestamp" (HStr now) σ4) as [σ5 H5]; [lia|].
  rewrite H5. by eexists.
Qed.

Lemma JSON_parse_ref text σ l σ1 :
  JSON_parse text σ = Ok (HRef l, σ1) -> is_structure text = true.
Proof. destruct text; simpl; congruence. Qed.

(** The call returns exactly when the current snapshot is an object (or
    an array) that serializes and the mutator returns. *)
Lemma applies_iff e label mutator now :
  applies e label mutator now <->
  exists text,
    JSON_stringify (heap e) (currentSnapshot (state e)) = Ok text
    /\ is_structure text = true
    /\ forall clone σ1, JSON_parse text (heap e) = Ok (clone, σ1) ->
         (mutation mutator clone σ1).2 = None.
Proof.
  unfold applies. split.
  - destruct (applyChange (state e) label mutator now (heap e) (state e))
      as [[res σ'] s'] eqn:Hrun. simpl. intros ->.
    apply applyChange_returns_inv in Hrun
      as (text & clone & σ1 & ops & σ3 & σ4 & Hs & Hp & Hm & Hid & _).
    exists text. split; [done|].
    apply assign_named_inv in Hid as (l & c & c' & -> & _).
    split; [by eapply JSON_parse_ref|].
    intros clone' σ1' Hp'. rewrite Hp in Hp'. injection Hp' as <- <-.
    by rewrite Hm.
  - intros (text & Hs & Ht & Hm).
    destruct (applyChange_returns (state e) label mutator now (heap e)
                (state e) text Hs Ht Hm) as [σ' Hrun].
    by rewrite Hrun.
Qed.

(** ** Parsing allocates *)

Lemma value_ind_nested (P : value -> Prop) :
  P VUndefined -> P VNull -> (forall b, P (VBool b)) -> (forall n, P (VNum n)) ->
  (forall s, P (VStr s)) ->
  (forall xs, Forall P xs -> P (VArr xs)) ->
  (forall props, Forall (fun kv => P kv.2) props -> P (VObj props)) ->
  forall v, P v.
Proof.
  intros Hu Hn Hb Hz Hs Ha Ho.
  fix IH 1.
  intros [| |b|n|s|xs|props];
    [exact Hu|exact Hn|apply Hb|apply Hz|apply Hs| |].
  - apply Ha. induction xs as [|x xs IHxs]; constructor; [apply IH|apply IHxs].
  - apply Ho. induction props as [|[k x] r IHr]; constructor;
      [apply IH|apply IHr].
Qed.

Lemma closed_above_app n σ c :
  closed_above n σ ->
  (forall l', HRef l' ∈ cell_values c -> (n <= l' < S (length σ))%nat) ->
  closed_above n (σ ++ [c]).
Proof.
  intros Hσ Hc l c0 l' Hl Hlook Hin. rewrite length_app. simpl.
  destruct (decide (l < length σ)%nat) as [Hlt|Hge].
  - rewrite lookup_app_l in Hlook by done.
    specialize (Hσ l c0 l' Hl Hlook Hin). lia.
  - rewrite lookup_app_r in Hlook by lia.
    destruct (l - length σ)%nat as [|k] eqn:E; simpl in Hlook; [|done].
    injection Hlook as <-. specialize (Hc l' Hin). lia.
Qed.

Lemma val_above_mono n σ σ' v :
  val_above n σ v -> (length σ <= length σ')%nat -> val_above n σ' v.
Proof. intros H Hl l ->. specialize (H l eq_refl). lia. Qed.

Lemma closed_above_weaken n m σ :
  (m <= n)%nat -> (forall l c l', (m <= l < n)%nat -> σ !! l = Some c ->
     HRef l' ∈ cell_values c -> (m <= l' < length σ)%nat) ->
  closed_above n σ -> closed_above m σ.
Proof.
  intros Hmn Hlow Hσ l c l' Hl Hlook Hin.
  destruct (decide (n <= l)%nat) as [Hge|Hlt].
  - specialize (Hσ l c l' Hge Hlook Hin). lia.
  - apply (Hlow l c l'); [lia|done..].
Qed.

(** Parsing a text into [σ] leaves [σ] as it is and appends cells that
    refer to appended cells only; the value is one of them, or a
    primitive. *)
Lemma parse_value_fresh t :
  forall σ,
    let '(h, σ1) := parse_value t σ in
    (exists new, σ1 = σ ++ new)
    /\ (forall l c l', (length σ <= l)%nat -> σ1 !! l = Some c ->
          HRef l' ∈ cell_values c -> (length σ <= l' < length σ1)%nat)
    /\ val_above (length σ) σ1 h.
Proof.
  induction t as [| |b|n|s|xs IH|props IH] using value_ind_nested; intros σ;
    try (simpl; split; [by exists []; rewrite app_nil_r|];
         split; [|done];
         by intros l c l' Hl Hlook%lookup_lt_Some; lia).
  - rewrite parse_value_arr.
    assert (let '(hs, σ1) := parse_elems xs σ in
            (exists new, σ1 = σ ++ new)
            /\ (forall l c l', (length σ <= l)%nat -> σ1 !! l = Some c ->
                  HRef l' ∈ cell_values c -> (length σ <= l' < length σ1)%nat)
            /\ Forall (val_above (length σ) σ1) hs) as Hxs.
    { clear -IH. revert σ. induction IH as [|x xs Hx _ IHxs]; intros σ; simpl.
      - split; [by exists []; rewrite app_nil_r|].
        split; [|done]. by intros l c l' Hl Hlook%lookup_lt_Some; lia.
      - specialize (Hx σ). destruct (parse_value x σ) as [h σ1].
        destruct Hx as ([new1 ->] & Hc1 & Hh).
        specialize (IHxs (σ ++ new1)).
        destruct (parse_elems xs (σ ++ new1)) as [hs σ2].
        destruct IHxs as ([new2 ->] & Hc2 & Hhs).
        rewrite length_app in *.
        split; [exists (new1 ++ new2); by rewrite app_assoc|].
        split.
        + intros l c l' Hl Hlook Hin.
          destruct (decide (l < length σ + length new1)%nat) as [Hlt|Hge].
          * rewrite lookup_app_l in Hlook by (rewrite length_app; lia).
            specialize (Hc1 l c l' Hl Hlook Hin).
            rewrite !length_app in *. lia.
          * specialize (Hc2 l c l' ltac:(lia) Hlook Hin).
            rewrite ?length_app in *. lia.
        + constructor.
          * eapply val_above_mono; [exact Hh|]. rewrite !length_app. lia.
          * eapply Forall_impl; [exact Hhs|]. intros v Hv l ->.
            specialize (Hv l eq_refl). rewrite ?length_app in *. lia. }
    destruct (parse_elems xs σ) as [hs σ1].
    destruct Hxs as ([new ->] & Hc & Hhs).
    split; [exists (new ++ [CArr hs []]); by rewrite app_assoc|].
    split.
    + apply (closed_above_app (length σ) (σ ++ new) (CArr hs [])); [exact Hc|].
      intros l' Hin. simpl in Hin. rewrite app_nil_r in Hin.
      rewrite Forall_forall in Hhs. specialize (Hhs _ Hin l' eq_refl). lia.
    + intros l [= <-]. rewrite !length_app. simpl. lia.
  - rewrite parse_value_obj.
    assert (let '(hps, σ1) := parse_members props σ in
            (exists new, σ1 = σ ++ new)
            /\ (forall l c l', (length σ <= l)%nat -> σ1 !! l = Some c ->
                  HRef l' ∈ cell_values c -> (length σ <= l' < length σ1)%nat)
            /\ Forall (val_above (length σ) σ1) hps.*2) as Hps.
    { clear -IH. revert σ.
      induction IH as [|[k x] r Hx _ IHr]; intros σ; simpl.
      - split; [by exists []; rewrite app_nil_r|].
        split; [|done]. by intros l c l' Hl Hlook%lookup_lt_Some; lia.
      - simpl in Hx. specialize (Hx σ). destruct (parse_value x σ) as [h σ1].
        destruct Hx as ([new1 ->] & Hc1 & Hh).
        specialize (IHr (σ ++ new1)).
        destruct (parse_members r (σ ++ new1)) as [hs σ2].
        destruct IHr as ([new2 ->] & Hc2 & Hhs).
        rewrite length_app in *.
        split; [exists (new1 ++ new2); by rewrite app_assoc|].
        split.
        + intros l c l' Hl Hlook Hin.
          destruct (decide (l < length σ + length new1)%nat) as [Hlt|Hge].
          * rewrite lookup_app_l in Hlook by (rewrite length_app; lia).
            specialize (Hc1 l c l' Hl Hlook Hin).
            rewrite !length_app in *. lia.
          * specialize (Hc2 l c l' ltac:(lia) Hlook Hin).
            rewrite ?length_app in *. lia.
        + simpl. constructor.
          * eapply val_above_mono; [exact Hh|]. rewrite !length_app. lia.
          * eapply Forall_impl; [exact Hhs|]. intros v Hv l ->.
            specialize (Hv l eq_refl). rewrite ?length_app in *. lia. }
    destruct (parse_members props σ) as [hps σ1].
    destruct Hps as ([new ->] & Hc & Hhs).
    split; [exists (new ++ [CObj hps]); by rewrite app_assoc|].
    split.
    + apply (closed_above_app (length σ) (σ ++ new) (CObj hps)); [exact Hc|].
      intros l' Hin. simpl in Hin.
      rewrite Forall_forall in Hhs. specialize (Hhs _ Hin l' eq_refl). lia.
    + intros l [= <-]. rewrite !length_app. simpl. lia.
Qed.

(** ** Appending a snapshot *)

Lemma step_applyChange e label mutator now :
  applies e label mutator now ->
  well_positioned (state e) ->
  exists clone,
    state (step e (ApplyChange label mutator now)) =
      {| history := take (Z.to_nat (currentIndex (state e) + 1))
                      (history (state e)) ++ [clone];
         currentIndex := currentIndex (state e) + 1;
         commitIndex := commitIndex (state e) |}
    /\ read_named (heap (step e (ApplyChange label mutator now))) clone "id"
       = Ok (HNum (Z.of_nat (length (history (state e)))))
    /\ read_named (heap (step e (ApplyChange label mutator now))) clone "label"
       = Ok (HStr label)
    /\ read_named (heap (step e (ApplyChange label mutator now))) clone
         "timestamp" = Ok (HStr now).
Proof.
  unfold applies. intros Happ (H0 & H1 & H2). cbn [step].
  destruct (applyChange (state e) label mutator now (heap e) (state e))
    as [[res σ'] s'] eqn:Hrun. simpl in Happ. subst res.
  apply applyChange_returns_inv in Hrun
    as (text & clone & σ1 & ops & σ3 & σ4 & _ & _ & _ & Hid & Hlabel & Hts & ->).
  exists clone. simpl. rewrite slice0_take by lia.
  split; [done|]. split; [|split].
  - rewrite (assign_named_read_other _ _ _ _ _ _ Hts) by done.
    rewrite (assign_named_read_other _ _ _ _ _ _ Hlabel) by done.
    by apply assign_named_read in Hid.
  - rewrite (assign_named_read_other _ _ _ _ _ _ Hts) by done.
    by apply assign_named_read in Hlabel.
  - by apply assign_named_read in Hts.
Qed.

(** What a call of [applyChange] that returns does, in any state the
    hook can be in: the new snapshot is stamped with [id] equal to the
    length of the snapshot list at the call, the redo branch still
    counted, and with the label and the time stamp; the entries beyond
    [currentIndex] are discarded, the new snapshot is appended as the
    last element, and [currentIndex] advances to point at it. *)
Lemma applyChange_stamps_and_appends (σ : store) (initialSnapshot : hval)
    (ops : list Op) (label : string) (mutator : option Mutator)
    (now : string) :
  let e := run (mount σ initialSnapshot) ops in
  let e' := step e (ApplyChange label mutator now) in
  applies e label mutator now ->
  exists clone,
    history (state e') =
      take (Z.to_nat (currentIndex (state e) + 1)) (history (state e))
      ++ [clone]
    /\ last (history (state e')) = Some clone
    /\ currentIndex (state e') = currentIndex (state e) + 1
    /\ currentSnapshot (state e') = clone
    /\ read_named (heap e') clone "id"
       = Ok (HNum (Z.of_nat (length (history (state e)))))
    /\ read_named (heap e') clone "label" = Ok (HStr label)
    /\ read_named (heap e') clone "timestamp" = Ok (HStr now).
Proof.
  intros e e' Happ.
  assert (well_positioned (state e)) as Hwp
    by apply run_positioned, mount_positioned.
  destruct (step_applyChange e label mutator now Happ Hwp)
    as (clone & Hst & Hid & Hlabel & Hts).
  fold e' in Hst, Hid, Hlabel, Hts.
  exists clone. rewrite Hst. simpl.
  split; [done|]. split; [by rewrite last_snoc|]. split; [done|].
  split; [|done].
  destruct Hwp as (H0 & H1 & H2).
  unfold currentSnapshot, at_index. simpl.
  destruct (_ <? 0) eqn:E; [lia|].
  rewrite lookup_app_r; rewrite length_take; [|lia].
  replace (Z.to_nat (currentIndex (state e) + 1)
           - Z.to_nat (currentIndex (state e) + 1) `min` length (history (state e)))%nat
    with 0%nat by lia.
  done.
Qed.

(** C9, on the code.  After a change and one [undo] the list holds two
    snapshots and [currentIndex] is 0.  The next [applyChange] appends
    to the list cut back to one entry, at index 1, but stamps the new
    snapshot with [id] 2: the length read before the redo branch was
    discarded.  The [applyChange] after that appends at index 2 and
    stamps [id] 2 again: two entries of the list carry the same id. *)
Theorem stamped_id_counts_the_redo_branch :
  let e := run board [ApplyChange "Switch to List" (Some (set_view "List"))
                        "10:00:00"; Undo] in
  let e1 := step e (ApplyChange "Switch to Calendar"
                      (Some (set_view "Calendar")) "10:05:00") in
  let e2 := step e1 (ApplyChange "Switch to Timeline"
                       (Some (set_view "Timeline")) "10:06:00") in
  applies e "Switch to Calendar" (Some (set_view "Calendar")) "10:05:00"
  /\ length (history (state e)) = 2%nat
  /\ length (slice0 (history (state e)) (currentIndex (state e) + 1)) = 1%nat
  /\ currentIndex (state e1) = 1
  /\ read_named (heap e1) (at_index (history (state e1)) 1) "id"
     = Ok (HNum 2)
  /\ currentIndex (state e2) = 2
  /\ read_named (heap e2) (at_index (history (state e2)) 1) "id"
     = Ok (HNum 2)
  /\ read_named (heap e2) (at_index (history (state e2)) 2) "id"
     = Ok (HNum 2).
Proof. by repeat split. Qed.

(** ** The redo branch *)

(** In any state the hook can be in, [undo()] followed, from the next
    render, by a call of [applyChange] that returns leaves the snapshots
    up to the index reached by the undo, followed by the new one: every
    snapshot beyond that index is gone from the list, [currentIndex] is
    the last index, and a [redo()] afterwards changes nothing. *)
Lemma undo_applyChange_discards_redo (σ : store) (initialSnapshot : hval)
    (ops : list Op) (label : string) (mutator : option Mutator)
    (now : string) :
  let e0 := run (mount σ initialSnapshot) ops in
  let e1 := step e0 Undo in
  let e2 := step e1 (ApplyChange label mutator now) in
  applies e1 label mutator now ->
  (exists clone,
     history (state e2) =
       take (Z.to_nat (currentIndex (state e1) + 1)) (history (state e0))
       ++ [clone])
  /\ currentIndex (state e2) = Z.of_nat (length (history (state e2))) - 1
  /\ canRedo (state e2) = false
  /\ step e2 Redo = e2.
Proof.
  intros e0 e1 e2 Happ.
  assert (well_positioned (state e0)) as Hwp0
    by apply run_positioned, mount_positioned.
  assert (well_positioned (state e1)) as Hwp1 by by apply step_positioned.
  assert (history (state e1) = history (state e0)) as Hh.
  { subst e1. simpl. unfold undo. by destruct (negb _). }
  destruct (step_applyChange e1 label mutator now Happ Hwp1)
    as (clone & Hst & _).
  fold e2 in Hst. destruct Hwp1 as (H0 & H1 & H2).
  assert (currentIndex (state e2)
          = Z.of_nat (length (history (state e2))) - 1) as Hlast.
  { rewrite Hst. cbn [history currentIndex].
    rewrite length_app, length_take. cbn [length]. lia. }
  assert (canRedo (state e2) = false) as Hredo.
  { unfold canRedo. rewrite Hlast. apply Z.ltb_irrefl. }
  split; [exists clone; by rewrite Hst, Hh|].
  split; [exact Hlast|]. split; [exact Hredo|].
  destruct e2 as [σ2 s2]. simpl in *. unfold redo. by rewrite Hredo.
Qed.

(** C6, on the code.  [applyChange] cuts the list at the [currentIndex]
    of the render that made the closure.  When one event handler calls
    [undo()] and then [applyChange], that index is the one before the
    undo: nothing is discarded, the snapshot that was undone stays in
    the list and stays the current one (the decrement and the increment
    cancel), the new snapshot is a copy of it and sits beyond
    [currentIndex], and a [redo()] from the next render moves to it. *)
Theorem undo_and_applyChange_in_one_event_keep_the_snapshot :
  let e := run board [ApplyChange "Switch to List" (Some (set_view "List"))
                        "10:00:00"] in
  let r := state e in
  let out := applyChange r "Switch to Calendar" (Some (set_view "Calendar"))
               "10:05:00" (heap e) (undo r r) in
  let s := out.2 in
  canUndo r = true
  /\ currentIndex (undo r r) = currentIndex r - 1
  /\ out.1.1 = Ok tt
  /\ (exists clone, history s = history r ++ [clone])
  /\ currentIndex s = currentIndex r
  /\ currentSnapshot s = currentSnapshot r
  /\ currentIndex s = Z.of_nat (length (history s)) - 2
  /\ canRedo s = true
  /\ redo s s <> s
  /\ currentIndex (redo s s) = currentIndex s + 1
  /\ (let? t := JSON_stringify out.1.2 (currentSnapshot (redo s s)) in
      get_field t "view") = Ok (VStr "Calendar").
Proof.
  do 3 (split; [reflexivity|]).
  split; [by eexists|].
  do 4 (split; [reflexivity|]).
  split; [intros H; vm_compute in H; discriminate|].
  by split.
Qed.

(** ** Serialization *)

Lemma stringify_props_stable (f g : hval -> result value) props ts :
  (forall v t, v ∈ props.*2 -> f v = Ok t -> g v = Ok t) ->
  stringify_props f props = Ok ts -> stringify_props g props = Ok ts.
Proof.
  revert ts. induction props as [|[k v] rest IH]; intros ts Hfg; simpl; [done|].
  destruct (f v) as [t|e] eqn:Hv; [|done]. simpl.
  destruct (stringify_props f rest) as [ts'|e] eqn:Hrest; [|done]. simpl.
  intros [= <-].
  rewrite (Hfg v t) by (done || left). simpl.
  rewrite (IH ts') by (done || (intros; apply Hfg; [by right|done])). done.
Qed.

Lemma stringify_elems_stable (f g : hval -> result value) elems ts :
  (forall v t, v ∈ elems -> f v = Ok t -> g v = Ok t) ->
  stringify_elems f elems = Ok ts -> stringify_elems g elems = Ok ts.
Proof.
  revert ts. induction elems as [|v rest IH]; intros ts Hfg; simpl; [done|].
  destruct (f v) as [t|e] eqn:Hv; [|done]. simpl.
  destruct (stringify_elems f rest) as [ts'|e] eqn:Hrest; [|done]. simpl.
  intros [= <-].
  rewrite (Hfg v t) by (done || left). simpl.
  rewrite (IH ts') by (done || (intros; apply Hfg; [by right|done])). done.
Qed.

(** A text, once obtained, is obtained again with more fuel and in any
    store that still holds the cells of the store it was read from. *)
Lemma stringify_value_stable fuel :
  forall fuel' σ σ' stack v t,
    (fuel <= fuel')%nat ->
    (forall l, (l < length σ)%nat -> σ' !! l = σ !! l) ->
    stringify_value fuel σ stack v = Ok t ->
    stringify_value fuel' σ' stack v = Ok t.
Proof.
  induction fuel as [|fuel IH]; intros fuel' σ σ' stack v t Hle Hsame;
    destruct v as [| |b|n|s|l]; simpl;
    try (destruct fuel'; simpl; done).
  - destruct (bool_decide (l ∈ stack)); [done|].
    by destruct (σ !! l) as [[]|].
  - destruct fuel' as [|fuel']; [lia|]. simpl.
    destruct (bool_decide (l ∈ stack)); [done|].
    destruct (σ !! l) as [c|] eqn:Hl; [|done].
    rewrite (Hsame l) by (by eapply lookup_lt_Some). rewrite Hl.
    destruct c as [props|elems extra].
    + destruct (stringify_props _ props) as [ps|e] eqn:Hps; [|done].
      intros [= <-].
      erewrite stringify_props_stable; [done| |exact Hps].
      intros v t _. apply IH; [lia|done].
    + destruct (stringify_elems _ elems) as [xs|e] eqn:Hxs; [|done].
      intros [= <-].
      erewrite stringify_elems_stable; [done| |exact Hxs].
      intros v t _. apply IH; [lia|done].
Qed.

Lemma JSON_stringify_stable σ σ' v t :
  (length σ <= length σ')%nat ->
  (forall l, (l < length σ)%nat -> σ' !! l = σ !! l) ->
  JSON_stringify σ v = Ok t -> JSON_stringify σ' v = Ok t.
Proof. intros Hl Hsame. by apply stringify_value_stable. Qed.

Lemma stringify_props_throw (f : hval -> result value) props e :
  stringify_props f props = Throw e -> exists v, v ∈ props.*2 /\ f v = Throw e.
Proof.
  induction props as [|[k v] rest IH]; simpl; [done|].
  destruct (f v) as [t|e'] eqn:Hv; simpl.
  - destruct (stringify_props f rest) as [ts|e'] eqn:Hrest; simpl; [done|].
    intros [= ->]. destruct (IH eq_refl) as (w & Hw & Hf).
    exists w. split; [by right|done].
  - intros [= ->]. exists v. split; [left|done].
Qed.

Lemma stringify_elems_throw (f : hval -> result value) elems e :
  stringify_elems f elems = Throw e -> exists v, v ∈ elems /\ f v = Throw e.
Proof.
  induction elems as [|v rest IH]; simpl; [done|].
  destruct (f v) as [t|e'] eqn:Hv; simpl.
  - destruct (stringify_elems f rest) as [ts|e'] eqn:Hrest; simpl; [done|].
    intros [= ->]. destruct (IH eq_refl) as (w & Hw & Hf).
    exists w. split; [by right|done].
  - intros [= ->]. exists v. split; [left|done].
Qed.

Lemma stack_bound (n : nat) (stack : list nat) :
  NoDup stack -> (forall l, l ∈ stack -> (l < n)%nat) -> (length stack <= n)%nat.
Proof.
  intros Hnd Hin.
  assert (length stack <= length (seq 0 n))%nat as H;
    [|by rewrite length_seq in H].
  apply submseteq_length, NoDup_submseteq; [done|].
  intros l Hl. apply elem_of_seq. specialize (Hin l Hl). lia.
Qed.

(** The fuel never runs out: as many levels as the store has cells are
    enough, since the objects being serialized are pairwise distinct. *)
Lemma stringify_fuel_suffices fuel :
  forall σ stack v e,
    NoDup stack -> (forall l, l ∈ stack -> (l < length σ)%nat) ->
    (length σ <= fuel + length stack)%nat ->
    stringify_value fuel σ stack v = Throw e -> e <> stack_overflow.
Proof.
  induction fuel as [|fuel IH]; intros σ stack v e Hnd Hin Hfuel;
    destruct v as [| |b|n|s|l]; simpl; try done.
  - destruct (bool_decide (l ∈ stack)) eqn:Hl; [by intros [= <-]|].
    apply bool_decide_eq_false in Hl.
    destruct (σ !! l) as [c|] eqn:Hc; [|by intros [= <-]].
    apply lookup_lt_Some in Hc.
    assert (length (l :: stack) <= length σ)%nat.
    { apply stack_bound; [by constructor|].
      intros l' [->|Hl']%elem_of_cons; [done|by apply Hin]. }
    simpl in *. lia.
  - destruct (bool_decide (l ∈ stack)) eqn:Hl; [by intros [= <-]|].
    apply bool_decide_eq_false in Hl.
    destruct (σ !! l) as [c|] eqn:Hc; [|by intros [= <-]].
    apply lookup_lt_Some in Hc.
    assert (forall w, stringify_value fuel σ (l :: stack) w = Throw e ->
                      e <> stack_overflow) as Hsub.
    { intros w. apply IH.
      - by constructor.
      - intros l' [->|Hl']%elem_of_cons; [done|by apply Hin].
      - simpl. lia. }
    destruct c as [props|elems extra].
    + destruct (stringify_props _ props) as [ps|e'] eqn:Hps; [done|].
      intros [= ->]. apply stringify_props_throw in Hps as (w & _ & Hw).
      by apply (Hsub w).
    + destruct (stringify_elems _ elems) as [xs|e'] eqn:Hxs; [done|].
      intros [= ->]. apply stringify_elems_throw in Hxs as (w & _ & Hw).
      by apply (Hsub w).
Qed.

Lemma JSON_stringify_fuel σ v e :
  JSON_stringify σ v = Throw e -> e <> stack_overflow.
Proof.
  apply stringify_fuel_suffices; [constructor| |simpl; lia].
  intros l Hl. by apply elem_of_nil in Hl.
Qed.

(** ** A mutator that throws *)

Lemma apply_ops_below n ops :
  forall σ, writes_above n ops -> (n <= length σ)%nat ->
    forall l, (l < n)%nat -> apply_ops σ ops !! l = σ !! l.
Proof.
  induction ops as [|op ops IH]; intros σ Hw Hn l Hl; simpl; [done|].
  assert (writes_above n ops) as Hw'
    by (intros l0 c Hin; apply (Hw l0 c); by right).
  assert (n <= length (apply_op σ op))%nat as Hn'
    by (destruct op; simpl; rewrite ?length_app, ?length_insert; simpl; lia).
  rewrite (IH _ Hw' Hn' l Hl).
  destruct op as [c|l0 c]; simpl.
  - by rewrite lookup_app_l by lia.
  - rewrite list_lookup_insert_ne; [done|].
    specialize (Hw l0 c ltac:(left)). lia.
Qed.

Lemma JSON_parse_extends text σ clone σ1 :
  JSON_parse text σ = Ok (clone, σ1) ->
  (length σ <= length σ1)%nat
  /\ (forall l, (l < length σ)%nat -> σ1 !! l = σ !! l)
  /\ closed_above (length σ) σ1
  /\ val_above (length σ) σ1 clone.
Proof.
  intros Hp. assert (parse_value text σ = (clone, σ1)) as Hpv.
  { unfold JSON_parse in Hp. destruct text; try done; congruence. }
  pose proof (parse_value_fresh text σ) as H. rewrite Hpv in H.
  destruct H as ([new ->] & Hc & Hv).
  split; [rewrite length_app; lia|].
  split; [intros l Hl; by rewrite lookup_app_l|]. done.
Qed.

(** C7. When the mutator throws, [applyChange] throws the same exception
    before any state update: no snapshot is appended, and the snapshot
    list, [currentIndex] and [commitIndex] are what they were.  The
    mutator was handed a clone: provided its writes went to the clone
    and to cells of its own, every cell that existed before the call
    holds what it held, and the pre-mutation snapshot serializes to the
    same text. *)
Theorem applyChange_fail_atomic (e : Engine) (label now : string)
    (m : Mutator) (text : value) (clone : hval) (σ1 : store) (x : exn) :
  JSON_stringify (heap e) (currentSnapshot (state e)) = Ok text ->
  JSON_parse text (heap e) = Ok (clone, σ1) ->
  (m clone σ1).2 = Some x ->
  let e' := step e (ApplyChange label (Some m) now) in
  (applyChange (state e) label (Some m) now (heap e) (state e)).1.1 = Throw x
  /\ state e' = state e
  /\ history (state e') = history (state e)
  /\ currentIndex (state e') = currentIndex (state e)
  /\ commitIndex (state e') = commitIndex (state e)
  /\ (writes_above (length (heap e)) (m clone σ1).1 ->
       (forall l, (l < length (heap e))%nat -> heap e' !! l = heap e !! l)
       /\ JSON_stringify (heap e') (currentSnapshot (state e')) = Ok text).
Proof.
  intros Hs Hp Hm e'.
  assert (applyChange (state e) label (Some m) now (heap e) (state e)
          = (Throw x, apply_ops σ1 (m clone σ1).1, state e)) as Hrun.
  { unfold applyChange. rewrite Hs, Hp.
    destruct (m clone σ1) as [ops thrown]. simpl in Hm. by subst thrown. }
  assert (state e' = state e /\ heap e' = apply_ops σ1 (m clone σ1).1)
    as [Hst Hheap].
  { subst e'. cbn [step]. by rewrite Hrun. }
  rewrite Hrun, Hst. repeat (split; [done|]).
  intros Hw.
  destruct (JSON_parse_extends _ _ _ _ Hp) as (Hlen & Hsame & _ & _).
  assert (forall l, (l < length (heap e))%nat -> heap e' !! l = heap e !! l)
    as Hcells.
  { intros l Hl. rewrite Hheap.
    rewrite (apply_ops_below (length (heap e))) by done. by apply Hsame. }
  split; [exact Hcells|].
  apply (JSON_stringify_stable (heap e)); [|done..].
  rewrite Hheap. etrans; [exact Hlen|apply apply_ops_length].
Qed.

Lemma applyChange_fail_atomic_witness :
  (applyChange (state board) "Switch to List"
     (Some (set_view_and_throw "List" "view is read-only")) "10:00:00"
     (heap board) (state board)).1.1
  = Throw (JsError "Error" "view is read-only")
  /\ state (step board (ApplyChange "Switch to List"
       (Some (set_view_and_throw "List" "view is read-only")) "10:00:00"))
     = state board
  /\ history (state (step board (ApplyChange "Switch to List"
       (Some (set_view_and_throw "List" "view is read-only")) "10:00:00")))
     = history (state board)
  /\ currentIndex (state (step board (ApplyChange "Switch to List"
       (Some (set_view_and_throw "List" "view is read-only")) "10:00:00")))
     = currentIndex (state board)
  /\ commitIndex (state (step board (ApplyChange "Switch to List"
       (Some (set_view_and_throw "List" "view is read-only")) "10:00:00")))
     = commitIndex (state board)
  /\ (writes_above (length (heap board))
        [Write 5%nat
           (CObj [("id", HNum 0); ("label", HStr "Initial state");
                  ("view", HStr "List"); ("tasks", HRef 4%nat)])] ->
       (forall l, (l < length (heap board))%nat ->
          heap (step board (ApplyChange "Switch to List"
            (Some (set_view_and_throw "List" "view is read-only")) "10:00:00"))
            !! l = heap board !! l)
       /\ JSON_stringify
            (heap (step board (ApplyChange "Switch to List"
               (Some (set_view_and_throw "List" "view is read-only"))
               "10:00:00")))
            (currentSnapshot (state (step board (ApplyChange "Switch to List"
               (Some (set_view_and_throw "List" "view is read-only"))
               "10:00:00"))))
          = Ok (VObj [("id", VNum 0); ("label", VStr "Initial state");
                      ("view", VStr "Board");
                      ("tasks",
                       VArr [VObj [("id", VStr "T-101");
                                   ("status", VStr "Backlog")]])])).
Proof.
  apply (applyChange_fail_atomic board "Switch to List" "10:00:00"
           (set_view_and_throw "List" "view is read-only")
           (VObj [("id", VNum 0); ("label", VStr "Initial state");
                  ("view", VStr "Board");
                  ("tasks",
                   VArr [VObj [("id", VStr "T-101");
                               ("status", VStr "Backlog")]])])
           (HRef 5%nat)
           (board_store ++
              [CObj [("id", HStr "T-101"); ("status", HStr "Backlog")];
               CArr [HRef 3%nat] [];
               CObj [("id", HNum 0); ("label", HStr "Initial state");
                     ("view", HStr "Board"); ("tasks", HRef 4%nat)]])
           (JsError "Error" "view is read-only")).
  - reflexivity.
  - reflexivity.
  - reflexivity.
Defined.

(** ** Which cells a snapshot is made of *)

Lemma reach_above n σ v l :
  closed_above n σ -> val_above n σ v -> reach σ v l ->
  (n <= l < length σ)%nat.
Proof.
  intros Hc Hv Hr. induction Hr as [l|v l c l' _ IH Hl Hin].
  - by apply Hv.
  - specialize (IH Hv). apply (Hc l c l'); [lia|done..].
Qed.

Lemma grown_refl σ : grown σ σ.
Proof.
  split; [done|]. split; [done|].
  intros l c l' Hl Hc%lookup_lt_Some. lia.
Qed.

Lemma grown_closed σ σ' :
  closed_above 0 σ -> grown σ σ' -> closed_above 0 σ'.
Proof.
  intros Hc (Hlen & Hsame & Hup) l c l' _ Hl Hin.
  destruct (decide (l < length σ)%nat) as [Hlt|Hge].
  - rewrite Hsame in Hl by done.
    specialize (Hc l c l' ltac:(lia) Hl Hin). lia.
  - specialize (Hup l c l' ltac:(lia) Hl Hin). lia.
Qed.

(** What is reachable from a value of the old store is the same in the
    grown store. *)
Lemma reach_old σ σ' v l :
  closed_above 0 σ -> val_above 0 σ v ->
  (forall l, (l < length σ)%nat -> σ' !! l = σ !! l) ->
  reach σ' v l <-> reach σ v l.
Proof.
  intros Hc Hv Hsame. split; intros Hr.
  - induction Hr as [l|v l c l' _ IH Hl Hin]; [constructor|].
    specialize (IH Hv).
    pose proof (reach_above 0 σ v l Hc Hv IH) as Hb.
    rewrite Hsame in Hl by lia. by eapply reach_step.
  - induction Hr as [l|v l c l' Hr IH Hl Hin]; [constructor|].
    specialize (IH Hv).
    pose proof (reach_above 0 σ v l Hc Hv Hr) as Hb.
    rewrite <- Hsame in Hl by lia. by eapply reach_step.
Qed.

(** ** Mutators that keep to the clone *)

Lemma apply_op_grown σ σ1 op :
  grown σ σ1 -> op_confined (length σ) σ1 op -> grown σ (apply_op σ1 op).
Proof.
  intros (Hlen & Hsame & Hup) Hop. destruct op as [c|l c]; simpl in *.
  - split; [rewrite length_app; lia|].
    split; [intros l Hl; rewrite lookup_app_l by lia; by apply Hsame|].
    apply closed_above_app; [done|]. intros l' Hin.
    specialize (Hop l' Hin). lia.
  - destruct Hop as [Hl Hrefs].
    split; [by rewrite length_insert|].
    split; [intros l0 Hl0; rewrite list_lookup_insert_ne by lia;
            by apply Hsame|].
    intros l0 c0 l' Hl0 Hlook Hin. rewrite length_insert.
    destruct (decide (l = l0)) as [->|Hne].
    + destruct (decide (l0 < length σ1)%nat) as [Hlt|Hge].
      * rewrite list_lookup_insert_eq in Hlook by done.
        injection Hlook as <-. by apply Hrefs.
      * rewrite list_insert_ge in Hlook by lia.
        by apply (Hup l0 c0 l').
    + rewrite list_lookup_insert_ne in Hlook by done.
      by apply (Hup l0 c0 l').
Qed.

Lemma apply_ops_grown σ ops :
  forall σ1, grown σ σ1 -> ops_confined (length σ) σ1 ops ->
    grown σ (apply_ops σ1 ops).
Proof.
  induction ops as [|op ops IH]; intros σ1 Hg Hops; simpl; [done|].
  destruct Hops as [Hop Hops]. apply IH; [by apply apply_op_grown|done].
Qed.

Lemma set_assoc_values (k : string) (v x : hval) props :
  x ∈ (set_assoc k v props).*2 -> x = v \/ x ∈ props.*2.
Proof.
  induction props as [|[k' v'] rest IH]; simpl.
  - intros Hin%list_elem_of_singleton. by left.
  - destruct (String.eqb k k'); simpl.
    + intros [->|Hin]%elem_of_cons; [by left|]. right. by right.
    + intros [->|Hin]%elem_of_cons; [right; by left|].
      destruct (IH Hin) as [->|Hr]; [by left|]. right. by right.
Qed.

Lemma assign_named_grown σ σ2 σ3 target key v :
  grown σ σ2 -> val_above (length σ) σ2 target -> is_primitive v ->
  assign_named target key v σ2 = Ok σ3 -> grown σ σ3.
Proof.
  intros Hg Ht Hv (l & c & c' & -> & Hl & -> & Hc)%assign_named_inv.
  apply (apply_op_grown σ σ2 (Write l c')); [done|].
  destruct Hg as (Hlen & Hsame & Hup).
  specialize (Ht l eq_refl). split; [lia|].
  intros l' Hin. apply (Hup l c l'); [lia|done|].
  destruct c as [props|elems extra], c' as [props'|elems' extra'];
    try done; simpl in *.
  - subst props'. apply set_assoc_values in Hin as [Heq|Hin]; [|done].
    rewrite <- Heq in Hv. done.
  - destruct Hc as [-> ->].
    apply elem_of_app in Hin as [Hin|Hin]; apply elem_of_app; [by left|].
    apply set_assoc_values in Hin as [Heq|Hin]; [|by right].
    rewrite <- Heq in Hv. done.
Qed.

Lemma slice0_is_take (xs : list hval) (e : Z) :
  exists k, slice0 xs e = take k xs.
Proof. unfold slice0. destruct (e <? 0); eauto. Qed.

(** The store after a call of [applyChange] holds the old cells
    untouched; when the call returns, the appended snapshot is made of
    new cells. *)
Lemma applyChange_heap e label mutator now :
  confined_at e mutator ->
  let '(res, σ', s') :=
    applyChange (state e) label mutator now (heap e) (state e) in
  grown (heap e) σ'
  /\ (res = Ok tt ->
      exists clone,
        s' = {| history :=
                  slice0 (history (state e)) (currentIndex (state e) + 1)
                  ++ [clone];
                currentIndex := currentIndex (state e) + 1;
                commitIndex := commitIndex (state e) |}
        /\ val_above (length (heap e)) σ' clone)
  /\ (res <> Ok tt -> s' = state e).
Proof.
  intros Hconf. unfold applyChange.
  destruct (JSON_stringify (heap e) (currentSnapshot (state e)))
    as [text|x] eqn:Hs; [|by split; [apply grown_refl|]].
  destruct (JSON_parse text (heap e)) as [[clone σ1]|x] eqn:Hp;
    [|by split; [apply grown_refl|]].
  specialize (Hconf text clone σ1 Hs Hp).
  destruct (JSON_parse_extends _ _ _ _ Hp) as (Hlen & Hsame & Hup & Hclone).
  assert (grown (heap e) σ1) as Hg1 by done.
  change (match mutator with Some m => m clone σ1 | None => ([], None) end)
    with (mutation mutator clone σ1).
  destruct (mutation mutator clone σ1) as [ops thrown]. simpl in Hconf.
  pose proof (apply_ops_grown (heap e) ops σ1 Hg1 Hconf) as Hg2.
  pose proof (apply_ops_length σ1 ops) as Hlen2.
  assert (val_above (length (heap e)) (apply_ops σ1 ops) clone) as Hc2
    by (eapply val_above_mono; done).
  destruct thrown as [x|]; [by split|].
  destruct (assign_named clone "id" _ _) as [σ3|x] eqn:H3; [|by split].
  pose proof (assign_named_grown _ _ _ _ _ (HNum _) Hg2 Hc2 I H3) as Hg3.
  assert (val_above (length (heap e)) σ3 clone) as Hc3.
  { eapply val_above_mono; [exact Hc2|].
    by rewrite (assign_named_length _ _ _ _ _ H3). }
  destruct (assign_named clone "label" _ _) as [σ4|x] eqn:H4; [|by split].
  pose proof (assign_named_grown _ _ _ _ _ (HStr _) Hg3 Hc3 I H4) as Hg4.
  assert (val_above (length (heap e)) σ4 clone) as Hc4.
  { eapply val_above_mono; [exact Hc3|].
    by rewrite (assign_named_length _ _ _ _ _ H4). }
  destruct (assign_named clone "timestamp" _ _) as [σ5|x] eqn:H5; [|by split].
  pose proof (assign_named_grown _ _ _ _ _ (HStr _) Hg4 Hc4 I H5) as Hg5.
  split; [done|]. split; [|done]. intros _.
  exists clone. split; [done|].
  eapply val_above_mono; [exact Hc4|].
  by rewrite (assign_named_length _ _ _ _ _ H5).
Qed.

(** ** The isolation invariant *)

Lemma separated_grown σ σ' entries :
  closed_above 0 σ -> Forall (val_above 0 σ) entries ->
  (forall l, (l < length σ)%nat -> σ' !! l = σ !! l) ->
  separated σ entries -> separated σ' entries.
Proof.
  intros Hc Hv Hsame Hsep i j vi vj l Hij Hi Hj Hri Hrj.
  rewrite Forall_lookup in Hv.
  apply (Hsep i j vi vj l Hij Hi Hj).
  - by apply (reach_old σ σ' vi l Hc (Hv i vi Hi) Hsame).
  - by apply (reach_old σ σ' vj l Hc (Hv j vj Hj) Hsame).
Qed.

Lemma separated_take σ entries k :
  separated σ entries -> separated σ (take k entries).
Proof.
  intros Hsep i j vi vj l Hij Hi Hj.
  apply lookup_take_Some in Hi as [Hi _].
  apply lookup_take_Some in Hj as [Hj _].
  by apply (Hsep i j vi vj l).
Qed.

Lemma separated_snoc σ entries v n :
  separated σ entries ->
  (forall u l, u ∈ entries -> reach σ u l -> (l < n)%nat) ->
  (forall l, reach σ v l -> (n <= l)%nat) ->
  separated σ (entries ++ [v]).
Proof.
  intros Hsep Hold Hnew i j vi vj l Hij Hi Hj Hri Hrj.
  apply lookup_snoc_Some in Hi as [[Hi Hvi]|[Hi ->]];
    apply lookup_snoc_Some in Hj as [[Hj Hvj]|[Hj ->]].
  - by apply (Hsep i j vi vj l).
  - apply list_elem_of_lookup_2 in Hvi.
    specialize (Hold vi l Hvi Hri). specialize (Hnew l Hrj). lia.
  - apply list_elem_of_lookup_2 in Hvj.
    specialize (Hold vj l Hvj Hrj). specialize (Hnew l Hri). lia.
  - lia.
Qed.

Lemma applyChange_isolated e label mutator now :
  isolated e -> confined_at e mutator ->
  isolated (step e (ApplyChange label mutator now)).
Proof.
  intros (Hc & Hv & Hsep) Hconf. cbn [step].
  pose proof (applyChange_heap e label mutator now Hconf) as H.
  destruct (applyChange (state e) label mutator now (heap e) (state e))
    as [[res σ'] s']. destruct H as (Hg & Hok & Hfail).
  pose proof Hg as (Hlen & Hsame & Hup).
  assert (Forall (val_above 0 σ') (history (state e))) as Hv'.
  { eapply Forall_impl; [exact Hv|]. intros v Hval.
    by eapply val_above_mono. }
  assert (separated σ' (history (state e))) as Hsep'
    by by eapply separated_grown.
  unfold isolated. simpl. split; [by eapply grown_closed|].
  destruct res as [[]|x]; [|by rewrite Hfail].
  destruct (Hok eq_refl) as (clone & -> & Hclone). simpl.
  destruct (slice0_is_take (history (state e)) (currentIndex (state e) + 1))
    as [k ->].
  split.
  - apply Forall_app. split; [by apply Forall_take|].
    constructor; [|done]. intros l ->. specialize (Hclone l eq_refl). lia.
  - apply (separated_snoc σ' _ clone (length (heap e)));
      [by apply separated_take| |].
    + intros u l (i & Hu%list_elem_of_lookup_2 & _)%elem_of_take Hr.
      rewrite Forall_forall in Hv.
      apply (reach_old (heap e) σ' u l Hc (Hv u Hu) Hsame) in Hr.
      apply (reach_above 0 (heap e) u l Hc (Hv u Hu) Hr).
    + intros l Hr. by apply (reach_above _ σ' clone l Hup Hclone).
Qed.

Lemma at_index_truthy (xs : list hval) (i : Z) :
  h_truthy (at_index xs i) = true ->
  0 <= i /\ xs !! Z.to_nat i = Some (at_index xs i).
Proof.
  unfold at_index. destruct (i <? 0) eqn:E; [done|].
  destruct (xs !! Z.to_nat i) as [v|]; [|done]. intros _. split; [lia|done].
Qed.

Lemma imap_values {A} (g : nat -> string) (elems : list A) :
  (imap (fun i x => (g i, x)) elems).*2 = elems.
Proof.
  revert g. induction elems as [|x elems IH]; intros g; simpl; [done|].
  f_equal. apply (IH (g ∘ S)).
Qed.

(** The references copied by [{ ...v }] are held by the object [v]. *)
Lemma spread_entries_refs σ v l' :
  HRef l' ∈ (spread_entries σ v).*2 ->
  exists ls c, v = HRef ls /\ σ !! ls = Some c /\ HRef l' ∈ cell_values c.
Proof.
  destruct v as [| |b|n|s|ls]; simpl;
    try (by intros Hin%elem_of_nil).
  - intros (kv & Hkv & Hin)%list_elem_of_fmap.
    apply elem_of_lookup_imap in Hin as (i & c & -> & _). done.
  - destruct (σ !! ls) as [[props|elems extra]|] eqn:Hls;
      [| |by intros Hin%elem_of_nil].
    + intros Hin. by exists ls, (CObj props).
    + rewrite fmap_app, imap_values. intros Hin.
      by exists ls, (CArr elems extra).
Qed.

(** What is reachable from a cell appended to the store, when all it
    refers to is part of [snap]. *)
Lemma reach_appended σ c snap l :
  closed_above 0 σ -> val_above 0 σ snap ->
  (forall l', HRef l' ∈ cell_values c -> reach σ snap l') ->
  reach (σ ++ [c]) (HRef (length σ)) l ->
  l = length σ \/ reach σ snap l.
Proof.
  intros Hc Hv Hrefs Hr.
  remember (HRef (length σ)) as v eqn:Ev.
  induction Hr as [l|v l c0 l' _ IH Hl Hin].
  - injection Ev as ->. by left.
  - right. destruct (IH Ev) as [->|Hr].
    + rewrite lookup_app_r, Nat.sub_diag in Hl by done.
      injection Hl as <-. by apply Hrefs.
    + pose proof (reach_above 0 σ snap l Hc Hv Hr) as Hb.
      rewrite lookup_app_l in Hl by lia. by eapply reach_step.
Qed.

Lemma commit_isolated e : isolated e -> isolated (step e Commit).
Proof.
  intros (Hc & Hv & Hsep). cbn [step]. unfold commit.
  set (snap := at_index (history (state e)) (currentIndex (state e))).
  destruct (h_truthy snap) eqn:Ht; simpl; [|done].
  destruct (at_index_truthy _ _ Ht) as [Hcur Hsnap]. fold snap in Hsnap.
  set (cur := Z.to_nat (currentIndex (state e))) in *.
  set (updated := CObj _).
  assert (val_above 0 (heap e) snap) as Hvsnap.
  { rewrite Forall_lookup in Hv. by apply (Hv cur). }
  assert (forall l', HRef l' ∈ cell_values updated ->
            reach (heap e) snap l') as Hrefs.
  { intros l' Hin. subst updated. simpl in Hin.
    apply set_assoc_values in Hin as [Hin|Hin]; [done|].
    apply set_assoc_values in Hin as [Hin|Hin]; [done|].
    apply spread_entries_refs in Hin as (ls & c & -> & Hls & Hin).
    eapply reach_step; [constructor|exact Hls|exact Hin]. }
  assert (forall l, (l < length (heap e))%nat ->
            (heap e ++ [updated]) !! l = heap e !! l) as Hsame
    by (intros l Hl; by rewrite lookup_app_l).
  unfold isolated. simpl. split; [|split].
  - apply closed_above_app; [done|]. intros l' Hin.
    pose proof (reach_above 0 _ _ _ Hc Hvsnap (Hrefs l' Hin)). lia.
  - apply Forall_insert.
    + eapply Forall_impl; [exact Hv|]. intros v Hval.
      eapply val_above_mono; [done|]. rewrite length_app. lia.
    + intros l [= <-]. rewrite length_app. simpl. lia.
  - assert (forall j vj l, j <> cur -> history (state e) !! j = Some vj ->
              reach (heap e ++ [updated]) (HRef (length (heap e))) l ->
              reach (heap e ++ [updated]) vj l -> False) as Hnew.
    { intros j vj l Hj Hvj Hrn Hro.
      rewrite Forall_lookup in Hv.
      apply (reach_old (heap e) _ vj l Hc (Hv j vj Hvj) Hsame) in Hro.
      pose proof (reach_above 0 _ _ _ Hc (Hv j vj Hvj) Hro) as Hb.
      apply (reach_appended _ updated snap) in Hrn as [->|Hrn];
        [lia| |done..].
      by apply (Hsep cur j snap vj l). }
    intros i j vi vj l Hij Hi Hj Hri Hrj.
    apply list_lookup_insert_Some in Hi as [(<- & <- & _)|[Hi Hvi]];
      apply list_lookup_insert_Some in Hj as [(<- & <- & _)|[Hj Hvj]].
    + done.
    + by apply (Hnew j vj l).
    + by apply (Hnew i vi l).
    + rewrite Forall_lookup in Hv.
      apply (reach_old (heap e) _ vi l Hc (Hv i vi Hvi) Hsame) in Hri.
      apply (reach_old (heap e) _ vj l Hc (Hv j vj Hvj) Hsame) in Hrj.
      by apply (Hsep i j vi vj l).
Qed.

Lemma step_isolated e op :
  isolated e -> confined_op e op -> isolated (step e op).
Proof.
  intros Hi Hop. destruct op as [label mutator now| | | |index].
  - by apply applyChange_isolated.
  - destruct Hi as (Hc & Hv & Hsep). unfold isolated. simpl.
    unfold undo. by destruct (negb _).
  - destruct Hi as (Hc & Hv & Hsep). unfold isolated. simpl.
    unfold redo. by destruct (negb _).
  - by apply commit_isolated.
  - destruct Hi as (Hc & Hv & Hsep). unfold isolated. simpl.
    unfold jump. by destruct (_ || _).
Qed.

Lemma run_isolated ops :
  forall e, isolated e -> confined_run e ops -> isolated (run e ops).
Proof.
  induction ops as [|op ops IH]; intros e Hi Hrun; [done|].
  destruct Hrun as [Hop Hrun]. simpl. apply IH; [by apply step_isolated|done].
Qed.

Lemma mount_isolated σ initialSnapshot :
  closed_above 0 σ -> val_above 0 σ initialSnapshot ->
  isolated (mount σ initialSnapshot).
Proof.
  intros Hc Hv. split; [done|]. split; [by constructor|].
  intros [|i] [|j] vi vj l Hij Hi Hj; done.
Qed.

(** ** Snapshot isolation *)

Lemma currentSnapshot_stored s :
  well_positioned s ->
  history s !! Z.to_nat (currentIndex s) = Some (currentSnapshot s).
Proof.
  intros (H0 & H1 & H2). unfold currentSnapshot, at_index.
  destruct (_ <? 0) eqn:E; [lia|].
  destruct (lookup_lt_is_Some_2 (history s) (Z.to_nat (currentIndex s)))
    as [v ->]; [lia|done].
Qed.

(** C8, on the code.  The object returned as [currentSnapshot] is the
    stored entry itself: after [snap.view = "Calendar"], done outside
    any mutator, the snapshot stored at index 1 has the view
    ["Calendar"] where it had ["List"].  And a snapshot is independent
    of the others only as far as its mutator makes it: after
    [applyChange('Keep tasks', snap => { snap.tasks = tasks })], with
    [tasks] the array of the rendered snapshot, the mutator having
    written into its clone only, the entries 0 and 1 of the history hold
    one and the same array. *)
Lemma stored_snapshots_are_not_independent :
  (let e := run board [ApplyChange "Switch to List" (Some (set_view "List"))
                         "10:00:00"] in
   let snap := currentSnapshot (state e) in
   exists σ',
     history (state e) !! 1%nat = Some snap
     /\ assign_named snap "view" (HStr "Calendar") (heap e) = Ok σ'
     /\ (let? t := JSON_stringify (heap e) (at_index (history (state e)) 1) in
         get_field t "view") = Ok (VStr "List")
     /\ (let? t := JSON_stringify σ' (at_index (history (state e)) 1) in
         get_field t "view") = Ok (VStr "Calendar"))
  /\ (let tasks := HRef 1%nat in
      let keep := Some (set_tasks tasks) in
      let e := step board (ApplyChange "Keep tasks" keep "10:00:00") in
      read_named (heap board) (currentSnapshot (state board)) "tasks"
      = Ok tasks
      /\ applies board "Keep tasks" keep "10:00:00"
      /\ (forall text clone σ1,
            JSON_stringify (heap board) (currentSnapshot (state board))
            = Ok text ->
            JSON_parse text (heap board) = Ok (clone, σ1) ->
            (mutation keep clone σ1).1
            = [Write 5%nat
                 (CObj [("id", HNum 0); ("label", HStr "Initial state");
                        ("view", HStr "Board"); ("tasks", tasks)])]
            /\ clone = HRef 5%nat
            /\ writes_above (length (heap board)) (mutation keep clone σ1).1)
      /\ read_named (heap e) (at_index (history (state e)) 0) "tasks"
         = Ok tasks
      /\ read_named (heap e) (at_index (history (state e)) 1) "tasks"
         = Ok tasks
      /\ ~ separated (heap e) (history (state e))).
Proof.
  split; [eexists; by repeat split|].
  split; [reflexivity|]. split; [reflexivity|].
  split.
  { intros text clone σ1 Hs Hp. vm_compute in Hs. injection Hs as <-.
    vm_compute in Hp. injection Hp as <- <-.
    split; [reflexivity|]. split; [reflexivity|].
    intros l c Hin. apply list_elem_of_singleton in Hin.
    injection Hin as -> _. simpl. lia. }
  split; [reflexivity|]. split; [reflexivity|].
  intros Hsep.
  apply (Hsep 0%nat 1%nat (HRef 0%nat) (HRef 5%nat) 1%nat);
    [done|reflexivity|reflexivity|..].
  - eapply reach_step; [apply reach_root|reflexivity|].
    simpl. set_solver.
  - eapply reach_step; [apply reach_root|reflexivity|].
    simpl. set_solver.
Qed.

(** C8, as the code has it.  In every state the hook can be in, every
    mutator having written only into the clone it was handed and into
    cells it allocated, and stored there no reference to an older cell,
    no two entries of the history share a cell.  The object returned as
    [currentSnapshot] is the entry stored at [currentIndex], not a copy:
    a write to one of its cells changes that entry, and leaves the cells
    of every other entry as they are.  A snapshot appended by a call of
    [applyChange] with such a mutator is a deep copy: it is made of
    cells allocated by the call only, and the call leaves every older
    cell as it is. *)
Theorem snapshots_share_no_cell (σ : store) (initialSnapshot : hval)
    (ops : list Op) (label : string) (mutator : option Mutator)
    (now : string) :
  closed_above 0 σ ->
  val_above 0 σ initialSnapshot ->
  confined_run (mount σ initialSnapshot) ops ->
  let e := run (mount σ initialSnapshot) ops in
  let e' := step e (ApplyChange label mutator now) in
  separated (heap e) (history (state e))
  /\ history (state e) !! Z.to_nat (currentIndex (state e))
     = Some (currentSnapshot (state e))
  /\ (forall l c j v l',
        reach (heap e) (currentSnapshot (state e)) l ->
        j <> Z.to_nat (currentIndex (state e)) ->
        history (state e) !! j = Some v ->
        reach (heap e) v l' ->
        <[l := c]> (heap e) !! l' = heap e !! l')
  /\ (confined_at e mutator -> applies e label mutator now ->
      (forall l, reach (heap e') (currentSnapshot (state e')) l ->
         (length (heap e) <= l)%nat)
      /\ (forall l, (l < length (heap e))%nat -> heap e' !! l = heap e !! l)
      /\ separated (heap e') (history (state e'))).
Proof.
  intros Hc Hv Hrun e e'.
  assert (isolated e) as Hiso
    by (apply run_isolated; [by apply mount_isolated|done]).
  assert (well_positioned (state e)) as Hwp
    by apply run_positioned, mount_positioned.
  pose proof (currentSnapshot_stored (state e) Hwp) as Hcur.
  destruct Hiso as (Hce & Hve & Hsep).
  split; [done|]. split; [done|]. split.
  - intros l c j v l' Hr Hj Hjv Hr'.
    apply list_lookup_insert_ne. intros ->.
    by apply (Hsep (Z.to_nat (currentIndex (state e))) j
                (currentSnapshot (state e)) v l').
  - intros Hconf Happ.
    pose proof (applyChange_isolated e label mutator now
                  (conj Hce (conj Hve Hsep)) Hconf) as (_ & _ & Hsep').
    fold e' in Hsep'.
    pose proof (applyChange_heap e label mutator now Hconf) as Hheap.
    assert (well_positioned (state e')) as Hwp' by by apply step_positioned.
    pose proof (currentSnapshot_stored (state e') Hwp') as Hcur'.
    unfold applies in Happ. subst e'. cbn [step] in *.
    destruct (applyChange (state e) label mutator now (heap e) (state e))
      as [[res σ'] s']. simpl in *. subst res.
    destruct Hheap as ((Hlen & Hsame & Hup) & Hok & _).
    destruct (Hok eq_refl) as (clone & -> & Hclone).
    split; [|done].
    intros l Hr.
    assert (currentSnapshot
              {| history :=
                   slice0 (history (state e)) (currentIndex (state e) + 1)
                   ++ [clone];
                 currentIndex := currentIndex (state e) + 1;
                 commitIndex := commitIndex (state e) |} = clone) as Hsnap.
    { simpl in Hcur'. unfold currentSnapshot in Hcur' |- *. simpl in *.
      destruct Hwp as (H0 & H1 & H2).
      rewrite slice0_take in * by lia.
      rewrite lookup_app_r in Hcur' by (rewrite length_take; lia).
      rewrite length_take in Hcur'.
      replace (Z.to_nat (currentIndex (state e) + 1)
               - Z.to_nat (currentIndex (state e) + 1)
                 `min` length (history (state e)))%nat
        with 0%nat in Hcur' by lia.
      simpl in Hcur'. by injection Hcur'. }
    rewrite Hsnap in Hr.
    by apply (reach_above _ σ' clone l Hup Hclone).
Qed.

(** Setting the view keeps to the clone. *)
Lemma set_view_confined e view : confined_at e (Some (set_view view)).
Proof.
  intros text clone σ1 Hs Hp.
  destruct (JSON_parse_extends _ _ _ _ Hp) as (Hlen & Hsame & Hup & Hclone).
  unfold mutation, set_view. destruct clone as [| |b|n|s|l]; try done.
  destruct (σ1 !! l) as [[props|elems extra]|] eqn:Hl; try done.
  specialize (Hclone l eq_refl).
  split; [|done]. split; [lia|].
  intros l' Hin. simpl in Hin.
  apply set_assoc_values in Hin as [Hin|Hin]; [done|].
  apply (Hup l (CObj props) l'); [lia|done..].
Qed.

Lemma board_store_closed : closed_above 0 board_store.
Proof.
  intros l c l' _ Hl Hin.
  destruct l as [|[|[|l]]]; simpl in Hl; [| | |done];
    injection Hl as <-; simpl in Hin;
    repeat (apply elem_of_cons in Hin as [Hin|Hin];
            [try done; injection Hin as ->; simpl; lia|]);
    by apply elem_of_nil in Hin.
Qed.

Lemma board_root : val_above 0 board_store (HRef 0%nat).
Proof. intros l [= <-]. simpl. lia. Qed.

Lemma committed_board_confined :
  confined_run board
    [ApplyChange "Switch to List" (Some (set_view "List")) "10:00:00"; Commit].
Proof. split; [apply set_view_confined|done]. Qed.

Lemma snapshots_share_no_cell_witness :
  separated (heap committed_board) (history (state committed_board))
  /\ history (state committed_board)
       !! Z.to_nat (currentIndex (state committed_board))
     = Some (currentSnapshot (state committed_board))
  /\ (forall l c j v l',
        reach (heap committed_board)
          (currentSnapshot (state committed_board)) l ->
        j <> Z.to_nat (currentIndex (state committed_board)) ->
        history (state committed_board) !! j = Some v ->
        reach (heap committed_board) v l' ->
        <[l := c]> (heap committed_board) !! l' = heap committed_board !! l')
  /\ (forall l, reach (heap next_board) (currentSnapshot (state next_board)) l ->
        (length (heap committed_board) <= l)%nat)
  /\ (forall l, (l < length (heap committed_board))%nat ->
        heap next_board !! l = heap committed_board !! l)
  /\ separated (heap next_board) (history (state next_board)).
Proof.
  destruct (snapshots_share_no_cell board_store (HRef 0%nat)
              [ApplyChange "Switch to List" (Some (set_view "List"))
                 "10:00:00"; Commit]
              "Switch to Calendar" (Some (set_view "Calendar")) "10:05:00"
              board_store_closed board_root committed_board_confined)
    as (Hsep & Hcur & Hwrite & Hstep).
  split; [exact Hsep|]. split; [exact Hcur|]. split; [exact Hwrite|].
  apply Hstep; [apply set_view_confined|reflexivity].
Defined.

End HistoryFacts.

(** * The flow engine: what an execution does and leaves *)

Section FlowEngineCoverage.
Import FlowEngine.
Context {realm : Realm}.

Lemma emits_ret {A} P (a : A) : emits P (ret a).
Proof. intros t. exists []. by rewrite app_nil_r. Qed.

Lemma emits_throw {A} P e : emits P (@throw A e).
Proof. intros t. exists []. by rewrite app_nil_r. Qed.

Lemma emits_lift {A} P (r : result A) : emits P (lift r).
Proof. intros t. exists []. by rewrite app_nil_r. Qed.

Lemma emits_emit (P : Effect -> Prop) e : P e -> emits P (emit e).
Proof. intros H t. exists [e]. split; [done | by constructor]. Qed.

Lemma emits_bind {A B} P (m : M A) (k : A -> M B) :
  emits P m -> (forall a, emits P (k a)) -> emits P (bind m k).
Proof.
  intros Hm Hk t. unfold bind. destruct (Hm t) as (t1 & E1 & F1).
  destruct (m t) as [[a|e] t'] eqn:E; simpl in E1; subst t'.
  - destruct (Hk a (t ++ t1)) as (t2 & E2 & F2).
    exists (t1 ++ t2). rewrite E2, app_assoc. split; [done | by apply Forall_app].
  - by exists t1.
Qed.

Lemma emits_call {A} (P : Effect -> Prop) (observe : A -> Effect) f a :
  P (observe a) -> emits P (call observe f a).
Proof.
  intros H. unfold call. apply emits_bind; [by apply emits_emit |].
  intros _. destruct (f a); [apply emits_throw | apply emits_ret].
Qed.

Local Ltac emits_step :=
  first
    [ apply emits_ret | apply emits_throw | apply emits_lift
    | apply emits_emit | apply emits_call
    | apply emits_bind; [| intros ?] ].

Lemma showNotification_emits host config eventPayload context :
  emits (action_effect context)
    (showNotification host config eventPayload context).
Proof.
  unfold showNotification.
  destruct (addAiSystemMessage context) eqn:E;
    repeat first
      [ emits_step
      | match goal with
        | |- emits _ (if ?b then _ else _) => destruct b
        end ];
    simpl; try done; by rewrite E.
Qed.

Lemma runCommand_emits config eventPayload context :
  emits (action_effect context) (runCommand config eventPayload context).
Proof.
  unfold runCommand. destruct (context_runCommand context) eqn:E.
  - repeat emits_step. simpl. by rewrite E.
  - emits_step.
Qed.

Lemma updateField_emits config eventPayload context :
  emits (action_effect context) (updateField config eventPayload context).
Proof.
  unfold updateField. repeat (apply emits_bind; [apply emits_lift | intros ?]).
  destruct (strict_eq _ _); destruct (context_runCommand context) eqn:E;
    repeat emits_step.
  simpl. by rewrite E.
Qed.

Lemma logMessage_emits host config eventPayload context :
  emits (action_effect context) (logMessage host config eventPayload context).
Proof.
  unfold logMessage.
  repeat first
    [ emits_step
    | match goal with
      | |- emits _ (match ?x with _ => _ end) => destruct x
      end ];
  done.
Qed.

Lemma executeAction_emits host action eventPayload context :
  emits (action_effect context) (executeAction host action eventPayload context).
Proof.
  unfold executeAction.
  repeat match goal with
         | |- emits _ (if ?b then _ else _) => destruct b
         end;
    auto using showNotification_emits, runCommand_emits, updateField_emits,
      logMessage_emits.
  by repeat emits_step.
Qed.

Lemma forEach_action_emits host eventPayload context actions :
  forall index executionLog t,
    exists t',
      (forEach_action host actions index eventPayload context executionLog t).2
      = t ++ t' /\ Forall (action_effect context) t'.
Proof.
  induction actions as [|a rest IH]; intros index executionLog t; simpl.
  - exists []. by rewrite app_nil_r.
  - destruct (executeAction_emits host a eventPayload context t) as (t1 & E1 & F1).
    destruct (executeAction host a eventPayload context t) as [[res|e] t'];
      simpl in E1; subst t'.
    + edestruct IH as (t2 & E2 & F2). rewrite E2.
      exists (t1 ++ t2). rewrite app_assoc.
      split; [done | by apply Forall_app].
    + destruct (error_text e) as [text|e'].
      * edestruct IH as (t2 & E2 & F2). rewrite E2.
        exists (t1 ++ t2). rewrite app_assoc.
        split; [done | by apply Forall_app].
      * by exists t1.
Qed.

Lemma fail_and_return_effects e executionLog history t :
  effects (fail_and_return e executionLog history t).2 = t.
Proof. unfold fail_and_return. by destruct (catch_failed e executionLog). Qed.

Lemma sendToBackend_emits host rd fl eventPayload executionLog :
  emits relay_effect (sendToBackend host rd fl eventPayload executionLog).
Proof.
  unfold sendToBackend.
  repeat first
    [ emits_step
    | match goal with
      | |- emits _ (match ?x with _ => _ end) => destruct x
      end ];
  done.
Qed.

Lemma executeFlow_trace host rd fl eventPayload context w :
  exists t',
    effects (executeFlow host rd (Some fl) eventPayload context w).2
    = effects w ++ t'
    /\ Forall (fun e => action_effect context e
                        \/ relay_effect e /\ flow_sendToBackend fl <> Some false)
         t'.
Proof.
  set (P := fun e => _ \/ _).
  assert (Hnil : exists t', effects w = effects w ++ t' /\ Forall P t').
  { exists []. by rewrite app_nil_r. }
  unfold executeFlow.
  destruct (enabled fl); cbn [negb]; [|done].
  destruct (get_field eventPayload "eventType") as [et|e]; [|done].
  set (log0 := {| id := _ |}).
  destruct (match conditions fl with
            | Some (c :: cs) =>
                evaluateConditions (Some (c :: cs)) eventPayload context
            | _ => Ok true
            end) as [[|]|e]; [| done |by rewrite fail_and_return_effects].
  assert (Hacts : exists t1,
    (match actions fl with
     | Some (a :: rest) =>
         forEach_action host (a :: rest) 0 eventPayload context log0 (effects w)
     | _ => (None, log0, effects w)
     end).2 = effects w ++ t1 /\ Forall P t1).
  { destruct (actions fl) as [[|a rest]|]; try done.
    edestruct forEach_action_emits as (t1 & E1 & F1).
    exists t1. split; [exact E1|].
    eapply Forall_impl; [exact F1|]. intros e He. by left. }
  destruct Hacts as (t1 & E1 & F1).
  destruct (match actions fl with
            | Some (a :: rest) => _
            | _ => _
            end) as [[thrown log1] tr1].
  simpl in E1. subst tr1.
  destruct thrown as [e|].
  { rewrite fail_and_return_effects. by exists t1. }
  assert (Hsend : exists t2,
    (match flow_sendToBackend fl with
     | Some false => (Ok tt, effects w ++ t1)
     | _ => sendToBackend host rd fl eventPayload log1 (effects w ++ t1)
     end).2 = effects w ++ t1 ++ t2 /\ Forall P t2).
  { destruct (decide (flow_sendToBackend fl = Some false)) as [Hs|Hs].
    - rewrite Hs. exists []. by rewrite !app_nil_r.
    - destruct (sendToBackend_emits host rd fl eventPayload log1
                  (effects w ++ t1)) as (t2 & E2 & F2).
      exists t2. split.
      + rewrite app_assoc, <- E2.
        by destruct (flow_sendToBackend fl) as [[|]|].
      + eapply Forall_impl; [exact F2|]. intros e He. by right. }
  destruct Hsend as (t2 & E2 & F2).
  destruct (match flow_sendToBackend fl with
            | Some false => _
            | _ => _
            end) as [sent tr2].
  simpl in E2. subst tr2.
  destruct sent; [|rewrite fail_and_return_effects];
    simpl; exists (t1 ++ t2); split; auto using Forall_app_2.
Qed.

Lemma record_and_return_returns executionLog history t :
  exists outcome w',
    record_and_return executionLog history t = (Ok outcome, w')
    /\ forall reason, outcome <> Refused reason.
Proof. by eexists _, _. Qed.

(** An enabled flow run on an event that has a payload returns, and
    what it returns is no refusal. *)
Lemma executeFlow_returns host rd fl eventPayload context w :
  enabled fl = true -> is_nullish eventPayload = false ->
  exists outcome w',
    executeFlow host rd (Some fl) eventPayload context w = (Ok outcome, w')
    /\ forall reason, outcome <> Refused reason.
Proof.
  intros Hen Hn.
  destruct (executeFlow_spec host rd fl eventPayload context w Hen Hn)
    as (et & _ & Hspec).
  destruct (evaluateConditions (conditions fl) eventPayload context)
    as [[|]|e].
  - destruct Hspec as (thrown & log1 & t1 & _ & Hspec).
    destruct thrown as [e|]; [|destruct Hspec as [t2 Hspec]];
      rewrite Hspec; apply record_and_return_returns.
  - rewrite Hspec. by eexists _, _.
  - rewrite Hspec. apply record_and_return_returns.
Qed.

(** X1. executeFlow throws exactly when the flow is enabled and the
    event payload is null or undefined (eventPayload.eventType is read
    for the record outside every try); the exception is a TypeError and
    nothing is recorded. A refusal always has the error 'Flow disabled
    or not found', comes only from a missing or disabled flow, and
    records nothing either. *)
Theorem executeFlow_throws_only_without_payload host rd flow eventPayload
    context w :
  let out := executeFlow host rd flow eventPayload context w in
  ((exists e, out.1 = Throw e) <->
   (exists fl, flow = Some fl /\ enabled fl = true
               /\ is_nullish eventPayload = true))
  /\ (forall e, out.1 = Throw e ->
        (exists message, e = type_error message) /\ out.2 = w)
  /\ (forall reason, out.1 = Ok (Refused reason) ->
        reason = "Flow disabled or not found" /\ out.2 = w
        /\ forall fl, flow = Some fl -> enabled fl = false).
Proof.
  destruct flow as [fl|].
  2:{ cbn. split; [|split]; [split | |].
      - by intros [e ?].
      - by intros (fl & ? & _).
      - done.
      - intros reason [= <-]. by repeat split. }
  destruct (enabled fl) eqn:Hen.
  2:{ unfold executeFlow. rewrite Hen. cbn.
      split; [|split]; [split | |].
      - by intros [e ?].
      - by intros (fl' & [= <-] & ? & _); congruence.
      - done.
      - intros reason [= <-]. repeat split. by intros ? [= <-]. }
  destruct (is_nullish eventPayload) eqn:Hn.
  - unfold executeFlow. rewrite Hen. cbn [negb].
    assert (exists message,
              get_field eventPayload "eventType" = Throw (type_error message))
      as (message & ->).
    { unfold get_field. rewrite Hn. by eexists. }
    cbn. split; [|split]; [split | |].
    + intros _. by exists fl.
    + intros _. by eexists.
    + intros e' [= <-]. split; [by exists message|done].
    + done.
  - destruct (executeFlow_returns host rd fl eventPayload context w Hen Hn)
      as (outcome & w' & Hrun & Hnr).
    cbn zeta. rewrite Hrun. cbn. split; [|split]; [split | |].
    + by intros [e ?].
    + by intros (fl' & _ & _ & ?).
    + done.
    + intros reason [= ->]. by destruct (Hnr reason).
Qed.

(** X2. An enabled flow run on a payload that is neither null nor
    undefined never throws and makes exactly one record, carrying the
    returned execution id, the flow's id and name and the payload's
    eventType. If evaluating the conditions throws, the record is
    'failed', without actions, and its one error is the one pushed by
    the outer catch, without actionIndex. If the conditions fail the
    record is 'skipped', without actions or errors, and is put in front
    of the log, which is not trimmed. Otherwise the actions run, up to
    the first one that throws what its handler cannot record (null or
    undefined, say): if there is one, the record is 'failed' and the
    TypeError of the action's handler is its last error, without
    actionIndex; if there is none, the status is
    'completed' when no action threw and 'completed_with_errors'
    otherwise, and the duration is the difference of the two clock
    readings. A failed record has no duration. Unless the record is
    'skipped' the returned counts are the record's, success means status
    'completed', and the log is the record followed by the older ones,
    cut at 100. *)
Theorem executeFlow_records_once host rd fl eventPayload context w :
  enabled fl = true -> is_nullish eventPayload = false ->
  let acts := default [] (actions fl) in
  let outs := outcomes host acts eventPayload context (effects w) in
  let out := executeFlow host rd (Some fl) eventPayload context w in
  exists outcome executionLog,
    out.1 = Ok outcome
    /\ id executionLog
       = "exec-" +:+ number_text (id_ms rd) +:+ "-" +:+ id_random rd
    /\ flowId executionLog = flow_id fl
    /\ flowName executionLog = flow_name fl
    /\ get_field eventPayload "eventType" = Ok (eventType executionLog)
    /\ match evaluateConditions (conditions fl) eventPayload context with
       | Throw e =>
           status executionLog = failed
           /\ actionsPerformed executionLog = []
           /\ errors executionLog
              = [{| actionIndex := None; error := caught_text e |}]
           /\ duration executionLog = None
       | Ok false =>
           status executionLog = skipped
           /\ reason executionLog = Some "Conditions not met"
           /\ actionsPerformed executionLog = []
           /\ errors executionLog = []
           /\ duration executionLog = None
       | Ok true =>
           actionsPerformed executionLog
           = performed_of 0 acts (attempted outs)
           /\ match uncaught outs with
              | Some e =>
                  exists message,
                    error_text e = Throw (type_error message)
                    /\ status executionLog = failed
                    /\ errors executionLog
                       = errors_of 0 (attempted outs)
                         ++ [{| actionIndex := None;
                                error := caught_text (type_error message) |}]
                    /\ duration executionLog = None
              | None =>
                  errors executionLog = errors_of 0 outs
                  /\ status executionLog
                     = (if is_nil (errors_of 0 outs)
                        then completed else completed_with_errors)
                  /\ duration executionLog
                     = Some (end_ms rd - start_ms rd)%Z
              end
       end
    /\ match outcome with
       | Refused _ => False
       | NotMet why executionId =>
           why = "Conditions not met"
           /\ executionId = id executionLog
           /\ status executionLog = skipped
           /\ out.2 = {| flowExecutionHistory :=
                           executionLog :: flowExecutionHistory w;
                         effects := effects w |}
       | Executed success executionId performed errs =>
           executionId = id executionLog
           /\ performed = length (actionsPerformed executionLog)
           /\ errs = errors executionLog
           /\ success = Status_eqb (status executionLog) completed
           /\ status executionLog <> skipped
           /\ flowExecutionHistory out.2
              = take 100 (executionLog :: flowExecutionHistory w)
       end.
Proof.
  intros Hen Hn acts outs out.
  destruct (executeFlow_spec host rd fl eventPayload context w Hen Hn)
    as (et & Het & Hspec). fold acts in Hspec. subst out.
  destruct (evaluateConditions (conditions fl) eventPayload context)
    as [[|]|e].
  - destruct Hspec as (thrown & log1 & t1 & Hrun & Hspec).
    destruct (forEach_action_run host eventPayload context acts 0
                (fresh_log rd fl et) (effects w))
      as (thrown' & log1' & t1' & Hrun' & Hth & Hp & He & Hid & Hfid & Hfn
          & Hety & Hst & Hre & Hdu).
    rewrite Hrun in Hrun'. injection Hrun' as <- <- <-.
    fold outs in Hth, Hp, He. cbn in Hp, He, Hid, Hfid, Hfn, Hety, Hst, Hdu.
    destruct (uncaught outs) as [e|] eqn:Hun.
    + destruct Hth as (message & Hm & ->). rewrite Hspec.
      unfold record_and_return. rewrite take_if_longer.
      eexists _, (failed_log (type_error message) log1).
      split; [reflexivity|]. cbn. rewrite Hid, Hfid, Hfn, Hety, Hp, He, Hdu.
      do 4 (split; [done|]). split; [|by repeat split].
      split; [done|]. by exists message.
    + subst thrown. destruct Hspec as [t2 Hspec]. rewrite Hspec.
      assert (attempted outs = outs) as Hatt
        by by apply attempted_all, uncaught_all.
      rewrite Hatt in Hp, He.
      unfold record_and_return. rewrite take_if_longer.
      eexists _, (set_duration _ (set_status _ log1)).
      split; [reflexivity|]. cbn. rewrite Hid, Hfid, Hfn, Hety, Hp, He, Hatt.
      do 4 (split; [done|]).
      repeat split; by destruct (errors_of 0 outs).
  - rewrite Hspec.
    eexists _, (set_reason "Conditions not met"
                  (set_status skipped (fresh_log rd fl et))).
    split; [reflexivity|]. by repeat split.
  - rewrite Hspec. unfold record_and_return. rewrite take_if_longer.
    eexists _, (failed_log e (fresh_log rd fl et)).
    split; [reflexivity|]. by repeat split.
Qed.

(** X3. executeFlow only adds to what the outside sees, and every effect
    it adds is either one an action may cause (a notification, a console
    line, a call of a callback the context has) or, unless
    flow.sendToBackend is false, one of the relay to the backend.
    Without context.runCommand no command is dispatched, without
    context.addAiSystemMessage no message is posted, and with
    sendToBackend === false nothing is sent to the backend. *)
Theorem executeFlow_effects_are_licensed host rd fl eventPayload context w :
  exists added,
    effects (executeFlow host rd (Some fl) eventPayload context w).2
    = effects w ++ added
    /\ Forall (fun e => action_effect context e
                        \/ relay_effect e /\ flow_sendToBackend fl <> Some false)
         added
    /\ (context_runCommand context = None ->
        forall command, ECommand command ∉ added)
    /\ (addAiSystemMessage context = None ->
        forall text, EAiSystemMessage text ∉ added)
    /\ (flow_sendToBackend fl = Some false ->
        forall message, EBackendSend message ∉ added).
Proof.
  destruct (executeFlow_trace host rd fl eventPayload context w)
    as (added & E & F).
  exists added. split; [done|]. split; [done|].
  rewrite Forall_forall in F.
  repeat split; intros H x Hx; apply F in Hx; simpl in Hx;
    destruct Hx as [Hx | [Hx Hs]]; done.
Qed.


(** X4. After an execution that runs the actions, the log is the new
    record followed by the first 99 older ones, so it holds min(n + 1,
    100) records. getExecutionHistory() then returns the new record and
    the first 49 older ones, and getExecutionHistory(limit), for limit
    >= 0, the first limit records of the log, never more than 100. *)
Theorem firing_execution_bounds_the_log host rd fl eventPayload context w :
  fires fl eventPayload context ->
  exists executionLog,
    let log := flowExecutionHistory w in
    let w' := (executeFlow host rd (Some fl) eventPayload context w).2 in
    flowExecutionHistory w' = executionLog :: take 99 log
    /\ id executionLog = "exec-" +:+ number_text (id_ms rd) +:+ "-" +:+ id_random rd
    /\ length (flowExecutionHistory w') = (S (length log)) `min` 100
    /\ getExecutionHistory None w' = executionLog :: take 49 log
    /\ (forall limit, (0 <= limit)%Z ->
          getExecutionHistory (Some limit) w'
          = take (Z.to_nat limit) (executionLog :: take 99 log))
    /\ (forall limit, (0 <= limit)%Z ->
          (length (getExecutionHistory (Some limit) w')
           <= Z.to_nat limit `min` 100)%nat).
Proof.
  intros Hf.
  destruct (executeFlow_fires_front host rd fl eventPayload context w Hf)
    as (executionLog & E & Hid).
  exists executionLog. cbn zeta. rewrite E. split; [done|]. split; [done|].
  split; [cbn [length]; rewrite length_take; lia|].
  unfold getExecutionHistory. rewrite E.
  cbv [default from_option Datatypes.id].
  split; [|split].
  - change (50 <? 0)%Z with false. change (Z.to_nat 50) with 50%nat.
    cbn [firstn]. rewrite take_take. by change (49 `min` 99)%nat with 49%nat.
  - intros limit Hl. destruct (Z.ltb_spec limit 0); [lia | done].
  - intros limit Hl. destruct (Z.ltb_spec limit 0); [lia|].
    rewrite length_take. cbn [length]. rewrite length_take. lia.
Qed.

Lemma executeAction_with_client host client action eventPayload context :
  executeAction (with_client host client) action eventPayload context
  = executeAction host action eventPayload context.
Proof. reflexivity. Qed.

Lemma forEach_action_with_client host client eventPayload context actions :
  forall index executionLog t,
    forEach_action (with_client host client) actions index eventPayload context
      executionLog t
    = forEach_action host actions index eventPayload context executionLog t.
Proof.
  induction actions as [|a rest IH]; intros index executionLog t; [done|].
  cbn [forEach_action]. rewrite executeAction_with_client.
  destruct (executeAction host a eventPayload context t) as [[res|e] t'];
    [apply IH|].
  destruct (error_text e); [apply IH|done].
Qed.

(** X5. Whether window.flowClient exists, and whether its send throws,
    changes neither what executeFlow returns (or throws) nor the
    execution log: the relay's failure is caught and only reported on
    the console. *)
Theorem backend_client_does_not_change_the_outcome host client rd flow
    eventPayload context w :
  let out := executeFlow host rd flow eventPayload context w in
  let out' := executeFlow (with_client host client) rd flow eventPayload
                context w in
  out'.1 = out.1
  /\ flowExecutionHistory out'.2 = flowExecutionHistory out.2.
Proof.
  unfold executeFlow.
  destruct flow as [fl|]; [|done].
  destruct (enabled fl); cbn [negb]; [|done].
  destruct (get_field eventPayload "eventType") as [et|e] eqn:Het; [|done].
  assert (Hn : is_nullish eventPayload = false).
  { by destruct eventPayload. }
  set (log0 := {| id := _ |}).
  destruct (match conditions fl with
            | Some (c :: cs) =>
                evaluateConditions (Some (c :: cs)) eventPayload context
            | _ => Ok true
            end) as [[|]|e]; [| done | done].
  assert (Hacts :
    match actions fl with
    | Some (a :: rest) =>
        forEach_action (with_client host client) (a :: rest) 0 eventPayload
          context log0 (effects w)
    | _ => (None, log0, effects w)
    end
    = match actions fl with
      | Some (a :: rest) =>
          forEach_action host (a :: rest) 0 eventPayload context log0 (effects w)
      | _ => (None, log0, effects w)
      end).
  { destruct (actions fl) as [[|a rest]|]; try done.
    apply forEach_action_with_client. }
  rewrite Hacts. clear Hacts.
  destruct (match actions fl with
            | Some (a :: rest) => _
            | _ => _
            end) as [[thrown log1] t1].
  destruct thrown as [e|]; [done|].
  assert (exists t2,
    match flow_sendToBackend fl with
    | Some false => (Ok tt, t1)
    | _ => sendToBackend host rd fl eventPayload log1 t1
    end = (Ok tt, t2)) as [t2 ->].
  { destruct (flow_sendToBackend fl) as [[|]|]; eauto;
      apply sendToBackend_returns; done. }
  assert (exists t2',
    match flow_sendToBackend fl with
    | Some false => (Ok tt, t1)
    | _ => sendToBackend (with_client host client) rd fl eventPayload log1 t1
    end = (Ok tt, t2')) as [t2' ->].
  { destruct (flow_sendToBackend fl) as [[|]|]; eauto;
      apply sendToBackend_returns; done. }
  done.
Qed.

End FlowEngineCoverage.

Section FlowEngineCoverageExamples.
Import FlowEngine.
#[local] Existing Instance sample_realm.

(** The three actions against the broken dispatcher: the second action
    throws an [Error] and the record is [completed_with_errors]. *)
Lemma executeFlow_records_once_witness :
  enabled three_actions = true
  /\ is_nullish task_dropped = false
  /\ exists executionLog,
       (executeFlow console_host sample_readings (Some three_actions)
          task_dropped broken_dispatcher empty_world).1
       = Ok (Executed false "exec-1700000000000-9f3a" 2
               [{| actionIndex := Some 1%nat;
                   error := VStr "dispatcher unavailable" |}])
       /\ status executionLog = completed_with_errors
       /\ duration executionLog = Some 2%Z
       /\ flowExecutionHistory
            (executeFlow console_host sample_readings (Some three_actions)
               task_dropped broken_dispatcher empty_world).2
          = take 100 [executionLog].
Proof.
  split; [reflexivity|]. split; [reflexivity|].
  destruct (executeFlow_records_once console_host sample_readings
              three_actions task_dropped broken_dispatcher empty_world
              eq_refl eq_refl)
    as (outcome & executionLog & Hrun & _ & _ & _ & _ & Hcase & Hout).
  change (evaluateConditions (conditions three_actions) task_dropped
            broken_dispatcher) with (Ok true) in Hcase.
  destruct Hcase as (_ & Hcase).
  change (uncaught _) with (@None exn) in Hcase.
  destruct Hcase as (_ & Hst & Hdu).
  exists executionLog. split; [reflexivity|]. split; [exact Hst|].
  split; [exact Hdu|].
  pose proof (eq_trans (eq_sym Hrun)
                (eq_refl
                   (Ok (Executed false "exec-1700000000000-9f3a" 2
                          [{| actionIndex := Some 1%nat;
                              error := VStr "dispatcher unavailable" |}]))))
    as Heq.
  injection Heq as ->. apply Hout.
Defined.

Lemma firing_execution_bounds_the_log_witness :
  fires three_actions task_dropped bare_context
  /\ length (flowExecutionHistory
               (executeFlow console_host sample_readings (Some three_actions)
                  task_dropped bare_context empty_world).2) = 1%nat.
Proof.
  assert (Hf : fires three_actions task_dropped bare_context)
    by (repeat split; reflexivity).
  split; [exact Hf|].
  pose proof (firing_execution_bounds_the_log console_host sample_readings
                three_actions task_dropped bare_context empty_world Hf) as H.
  cbv zeta in H. destruct H as (executionLog & _ & _ & H & _). exact H.
Defined.

End FlowEngineCoverageExamples.

(** * Templates, conditions and the executors *)

Section InterpolationFacts.
Import FlowEngine.
Context {realm : Realm}.

Lemma append_nil_l (s : string) : "" +:+ s = s.
Proof. reflexivity. Qed.

Lemma append_cons (c : ascii) (a b : string) :
  String c a +:+ b = String c (a +:+ b).
Proof. reflexivity. Qed.

Local Ltac unfold_append := rewrite ?append_cons, ?append_nil_l.

Lemma append_assoc (a b c : string) : (a +:+ b) +:+ c = a +:+ (b +:+ c).
Proof.
  induction a as [|x a IH]; unfold_append; [done | by rewrite IH].
Qed.

Lemma length_append (a b : string) :
  String.length (a +:+ b) = (String.length a + String.length b)%nat.
Proof.
  induction a as [|x a IH]; unfold_append; simpl; [done | by rewrite IH].
Qed.

Lemma span_no_brace_spec p r :
  lacks "}" p = true ->
  span_no_brace (p +:+ String "}" r) = (p, String "}" r).
Proof.
  induction p as [|c p IH]; unfold_append; cbn [lacks span_no_brace]; [done|].
  intros [Hc Hp]%andb_prop. apply negb_true_iff in Hc.
  rewrite Ascii.eqb_sym in Hc. by rewrite Hc, (IH Hp).
Qed.

Lemma span_no_brace_inv s :
  forall p r, span_no_brace s = (p, r) ->
    s = p +:+ r /\ lacks "}" p = true.
Proof.
  induction s as [|c s IH]; simpl; intros p r.
  - by intros [= <- <-].
  - destruct (Ascii.eqb c "}") eqn:E.
    + by intros [= <- <-].
    + destruct (span_no_brace s) as [p' r'].
      intros [= <- <-]. destruct (IH _ _ eq_refl) as [-> Hp].
      split; [done|]. cbn [lacks]. rewrite Hp.
      by rewrite Ascii.eqb_sym, E.
Qed.

Lemma match_token_spec p r :
  p <> "" -> lacks "}" p = true ->
  match_token ("{{" +:+ p +:+ "}}" +:+ r) = Some p.
Proof.
  intros Hne Hp. unfold_append. unfold match_token.
  rewrite (span_no_brace_spec p (String "}" r) Hp).
  by destruct p.
Qed.

Lemma match_token_inv s p :
  match_token s = Some p ->
  exists r, s = "{{" +:+ p +:+ "}}" +:+ r /\ p <> "" /\ lacks "}" p = true.
Proof.
  unfold match_token.
  destruct s as [|c1 s]; [done|].
  destruct c1 as [[] [] [] [] [] [] [] []]; try done.
  destruct s as [|c2 s]; [done|].
  destruct c2 as [[] [] [] [] [] [] [] []]; try done.
  destruct (span_no_brace s) as [q r] eqn:E.
  apply span_no_brace_inv in E as [-> Hq].
  destruct q as [|c q]; [done|].
  destruct r as [|d1 r]; [done|].
  destruct d1 as [[] [] [] [] [] [] [] []]; try done.
  destruct r as [|d2 r]; [done|].
  destruct d2 as [[] [] [] [] [] [] [] []]; try done.
  intros [= <-]. exists r. by unfold_append.
Qed.

Lemma match_token_literal c s :
  Ascii.eqb "{" c = false -> match_token (String c s) = None.
Proof.
  intros H. unfold match_token.
  destruct c as [[] [] [] [] [] [] [] []]; try done.
Qed.

Lemma replace_tokens_skip f pre :
  forall s k,
    replace_tokens f (String.length pre + k) (pre +:+ s) = replace_tokens f k s.
Proof.
  induction pre as [|c pre IH]; intros s k; unfold_append; simpl; [done|].
  apply IH.
Qed.

Lemma replace_tokens_literal f lit :
  lacks "{" lit = true ->
  forall s,
    replace_tokens f 0 (lit +:+ s)
    = let? r := replace_tokens f 0 s in Ok (lit +:+ r).
Proof.
  induction lit as [|c lit IH]; intros Hl s.
  - unfold_append. by destruct (replace_tokens f 0 s).
  - cbn [lacks] in Hl. apply andb_prop in Hl as [Hc Hl].
    apply negb_true_iff in Hc.
    unfold_append. cbn [replace_tokens].
    rewrite (match_token_literal _ _ Hc), (IH Hl).
    by destruct (replace_tokens f 0 s).
Qed.

Lemma replace_tokens_token f p s :
  p <> "" -> lacks "}" p = true ->
  replace_tokens f 0 ("{{" +:+ p +:+ "}}" +:+ s)
  = let? r := f ("{{" +:+ p +:+ "}}") p in
    let? rest := replace_tokens f 0 s in
    Ok (r +:+ rest).
Proof.
  intros Hne Hp.
  pose proof (match_token_spec p s Hne Hp) as Hm.
  rewrite (append_cons "{" "{" (p +:+ "}}" +:+ s)) in *.
  cbn [replace_tokens]. rewrite Hm.
  replace (String.length p + 3)%nat
    with (String.length ("{" +:+ p +:+ "}}") + 0)%nat.
  2:{ rewrite !length_append. simpl. lia. }
  replace ("{" +:+ p +:+ "}}" +:+ s) with (("{" +:+ p +:+ "}}") +:+ s).
  2:{ by rewrite !append_assoc. }
  by rewrite replace_tokens_skip.
Qed.

(** X6. interpolateVariables works through a string from left to right:
    text without '{' is copied as it is, and a token {{path}} (path not
    empty and without '}') is replaced by what the callback answers for
    it, which is the token itself when the value at the path (in the
    payload or, when that is falsy, in the snapshot) is undefined and
    String(value) otherwise; the inserted text is not scanned for tokens
    again. When the lookup of a token or the conversion throws, the
    interpolation throws the same exception and the rest of the string
    is not looked at. A value that is not a string is returned as it
    is. *)
Theorem interpolateVariables_compositional eventPayload context :
  (forall lit rest,
     lacks "{" lit = true ->
     interpolateVariables (VStr (lit +:+ rest)) eventPayload context
     = match interpolateVariables (VStr rest) eventPayload context with
       | Ok (VStr r) => Ok (VStr (lit +:+ r))
       | other => other
       end)
  /\ (forall path rest,
        path <> "" -> lacks "}" path = true ->
        interpolateVariables (VStr ("{{" +:+ path +:+ "}}" +:+ rest))
          eventPayload context
        = match substitute eventPayload context ("{{" +:+ path +:+ "}}") path
          with
          | Throw e => Throw e
          | Ok text =>
              match interpolateVariables (VStr rest) eventPayload context with
              | Ok (VStr r) => Ok (VStr (text +:+ r))
              | other => other
              end
          end)
  /\ (forall match_ path,
        substitute eventPayload context match_ path
        = match payload_or_snapshot eventPayload context path with
          | Throw e => Throw e
          | Ok v => if is_undefined_js v then Ok match_ else to_text v
          end)
  /\ (forall v,
        (forall s, v <> VStr s) ->
        interpolateVariables v eventPayload context = Ok v).
Proof.
  split; [|split; [|split]].
  - intros lit rest Hl. cbn [interpolateVariables].
    rewrite (replace_tokens_literal _ lit Hl).
    by destruct (replace_tokens _ 0 rest).
  - intros path rest Hne Hp. cbn [interpolateVariables].
    rewrite (replace_tokens_token _ path rest Hne Hp).
    destruct (substitute _ _ _ _); [|done]. cbn.
    by destruct (replace_tokens _ 0 rest).
  - intros match_ path. unfold substitute.
    by destruct (payload_or_snapshot _ _ _).
  - intros v Hv. destruct v; try done. by destruct (Hv s).
Qed.

(** X7. A string without '{' is returned by interpolateVariables as it
    is, whatever the payload and the snapshot are: nothing is looked up.
    The numbers a token inserts are written as String(number) writes
    them: 1e21 becomes '1e+21', and 2^53 + 2, a number of 16 digits,
    '9007199254740994'. *)
Theorem template_without_token_is_verbatim eventPayload context :
  (forall s, lacks "{" s = true ->
     interpolateVariables (VStr s) eventPayload context = Ok (VStr s))
  /\ interpolateVariables (VStr "{{estimate}} points")
       (VObj [("estimate", VNum (10 ^ 21))]) context
     = Ok (VStr "1e+21 points")
  /\ interpolateVariables (VStr "{{estimate}} points")
       (VObj [("estimate", VNum (2 ^ 53 + 2))]) context
     = Ok (VStr "9007199254740994 points").
Proof.
  split; [|split; [|]]; [|vm_compute; reflexivity..].
  intros s Hs. cbn [interpolateVariables].
  assert (replace_tokens (substitute eventPayload context) 0 s = Ok s) as ->;
    [|done].
  induction s as [|c s IH]; [done|].
  cbn [lacks] in Hs. apply andb_prop in Hs as [Hc Hs].
  apply negb_true_iff in Hc.
  cbn [replace_tokens]. by rewrite (match_token_literal _ _ Hc), (IH Hs).
Qed.

End InterpolationFacts.

Section ConditionFacts.
Import FlowEngine.
Context {realm : Realm}.

Lemma evaluateConditions_cons eventPayload context c cs :
  evaluateConditions (Some (c :: cs)) eventPayload context
  = let? b := holds eventPayload context c in
    if b then evaluateConditions (Some cs) eventPayload context else Ok false.
Proof.
  cbn [evaluateConditions every].
  destruct (holds eventPayload context c) as [[|]|e]; [|done..].
  by destruct cs.
Qed.

Lemma evaluateConditions_true eventPayload context cs :
  evaluateConditions (Some cs) eventPayload context = Ok true
  <-> forall c, c ∈ cs -> holds eventPayload context c = Ok true.
Proof.
  induction cs as [|c cs IH].
  - split; [by intros _ c ?%elem_of_nil | done].
  - rewrite evaluateConditions_cons.
    destruct (holds eventPayload context c) as [[|]|e] eqn:Hb;
      cbn [result_bind].
    + rewrite IH. split.
      * intros H x [->|Hx]%elem_of_cons; auto.
      * intros H x Hx. apply H. by right.
    + split; [done|]. intros H.
      specialize (H c (list_elem_of_here _ _)). congruence.
    + split; [done|]. intros H.
      specialize (H c (list_elem_of_here _ _)). congruence.
Qed.

(** The evaluation ends with [r], which is not [true], exactly at the
    first condition that does not hold. *)
Lemma evaluateConditions_stops eventPayload context cs r :
  r <> Ok true ->
  evaluateConditions (Some cs) eventPayload context = r
  <-> exists before c after,
        cs = before ++ c :: after
        /\ (forall x, x ∈ before -> holds eventPayload context x = Ok true)
        /\ holds eventPayload context c = r.
Proof.
  intros Hr. induction cs as [|c cs IH].
  - split; [by intros <-|]. intros (before & c & after & E & _).
    by destruct before.
  - rewrite evaluateConditions_cons.
    destruct (holds eventPayload context c) as [[|]|e] eqn:Hb;
      cbn [result_bind].
    + rewrite IH. split.
      * intros (before & x & after & -> & Hbefore & Hx).
        exists (c :: before), x, after. split; [done|]. split; [|done].
        intros y [->|Hy]%elem_of_cons; auto.
      * intros (before & x & after & E & Hbefore & Hx).
        destruct before as [|b before]; injection E as -> ->;
          [congruence|].
        exists before, x, after. split; [done|]. split; [|done].
        intros y Hy. apply Hbefore. by right.
    + split.
      * intros <-. exists [], c, cs. split; [done|]. split; [|done].
        by intros x ?%elem_of_nil.
      * intros (before & x & after & E & Hbefore & Hx).
        destruct before as [|b before]; injection E as -> ->;
          [congruence|].
        specialize (Hbefore b (list_elem_of_here _ _)). congruence.
    + split.
      * intros <-. exists [], c, cs. split; [done|]. split; [|done].
        by intros x ?%elem_of_nil.
      * intros (before & x & after & E & Hbefore & Hx).
        destruct before as [|b before]; injection E as -> ->;
          [congruence|].
        specialize (Hbefore b (list_elem_of_here _ _)). congruence.
Qed.

Lemma evaluateConditions_false eventPayload context cs :
  (forall c, c ∈ cs -> exists b, holds eventPayload context c = Ok b) ->
  evaluateConditions (Some cs) eventPayload context = Ok false
  <-> exists c, c ∈ cs /\ holds eventPayload context c = Ok false.
Proof.
  intros Hret. induction cs as [|c cs IH].
  - split; [done|]. by intros (c & ?%elem_of_nil & _).
  - rewrite evaluateConditions_cons.
    destruct (Hret c (list_elem_of_here _ _)) as [b Hb]. rewrite Hb.
    cbn [result_bind]. destruct b.
    + rewrite IH by (intros x Hx; apply Hret; by right). split.
      * intros (x & Hx & Hh). exists x. split; [by right | done].
      * intros (x & [->|Hx]%elem_of_cons & Hh); [congruence | eauto].
    + split; [|done]. intros _. exists c. split; [left | done].
Qed.

Lemma evaluateConditions_permutation eventPayload context cs cs' :
  (forall c, c ∈ cs -> exists b, holds eventPayload context c = Ok b) ->
  cs ≡ₚ cs' ->
  evaluateConditions (Some cs') eventPayload context
  = evaluateConditions (Some cs) eventPayload context.
Proof.
  intros Hret Hp.
  assert (Hret' : forall c, c ∈ cs' ->
                    exists b, holds eventPayload context c = Ok b).
  { intros c Hc. apply Hret. by rewrite Hp. }
  assert (exists b, evaluateConditions (Some cs) eventPayload context = Ok b)
    as [b Hb].
  { clear Hp Hret'. induction cs as [|c cs IH]; [by eexists|].
    rewrite evaluateConditions_cons.
    destruct (Hret c (list_elem_of_here _ _)) as [b ->]. cbn.
    destruct b; [|by eexists]. apply IH. intros x Hx. apply Hret. by right. }
  rewrite Hb. destruct b.
  - apply evaluateConditions_true. intros c Hc.
    rewrite <- Hp in Hc. revert c Hc. by apply evaluateConditions_true.
  - apply evaluateConditions_false; [done|].
    apply evaluateConditions_false in Hb as (c & Hc & Hh); [|done].
    exists c. by rewrite <- Hp.
Qed.

Lemma holds_unknown_operator eventPayload context c v :
  payload_or_snapshot eventPayload context (field c) = Ok v ->
  operator c ∉ known_operators -> holds eventPayload context c = Ok false.
Proof.
  intros Hv Hop. unfold holds. rewrite Hv.
  cbn [result_bind]. unfold known_operators in Hop.
  repeat match goal with
         | |- context [String.eqb (operator c) ?k] =>
             destruct (String.eqb_spec (operator c) k) as [E|_];
             [exfalso; apply Hop; rewrite E, !elem_of_cons; naive_solver|]
         end.
  done.
Qed.

Lemma holds_lookup_throws eventPayload context c e :
  payload_or_snapshot eventPayload context (field c) = Throw e ->
  holds eventPayload context c = Throw e.
Proof. intros Hv. unfold holds. by rewrite Hv. Qed.

(** X8. evaluateConditions on a list of conditions returns true exactly
    when every condition of the list holds on its own. It stops at the
    first condition that does not hold: it returns false exactly when
    that condition is false, and throws exactly when the evaluation of
    that condition throws, with the same exception; the conditions after
    it are not evaluated. When no condition of the list throws, the
    order of the conditions does not change the result. *)
Theorem conditions_are_a_conjunction eventPayload context cs :
  (evaluateConditions (Some cs) eventPayload context = Ok true
   <-> forall c, c ∈ cs -> holds eventPayload context c = Ok true)
  /\ (evaluateConditions (Some cs) eventPayload context = Ok false
      <-> exists before c after,
            cs = before ++ c :: after
            /\ (forall x, x ∈ before -> holds eventPayload context x = Ok true)
            /\ holds eventPayload context c = Ok false)
  /\ (forall e,
        evaluateConditions (Some cs) eventPayload context = Throw e
        <-> exists before c after,
              cs = before ++ c :: after
              /\ (forall x, x ∈ before ->
                    holds eventPayload context x = Ok true)
              /\ holds eventPayload context c = Throw e)
  /\ ((forall c, c ∈ cs -> exists b, holds eventPayload context c = Ok b) ->
      forall cs', cs ≡ₚ cs' ->
        evaluateConditions (Some cs') eventPayload context
        = evaluateConditions (Some cs) eventPayload context).
Proof.
  split; [apply evaluateConditions_true|].
  split; [by apply evaluateConditions_stops|].
  split; [intros e; by apply evaluateConditions_stops|].
  intros Hret cs'. by apply evaluateConditions_permutation.
Qed.

(** X9. A condition reads its field before it looks at its operator:
    when the lookup throws, the condition throws the same exception
    whatever the operator is. When the lookup returns, equals is the
    strict equality with the expected value and not_equals its negation,
    exists says that the value is neither undefined nor null and
    not_exists is its negation, a condition whose operator is none of
    the seven the engine knows is false, and, for a value and an
    expected value that convert to an integer or to NaN (integers,
    booleans, null, undefined, integer numerals, plain objects),
    greater_than and less_than never hold together. *)
Theorem operator_laws eventPayload context (path : string)
    (expectedValue : value) :
  let test op :=
    holds eventPayload context
      {| field := path; operator := op; expected := expectedValue |} in
  (forall e, payload_or_snapshot eventPayload context path = Throw e ->
     forall op, test op = Throw e)
  /\ (forall v, payload_or_snapshot eventPayload context path = Ok v ->
        test "equals" = Ok (strict_eq_js v expectedValue)
        /\ test "not_equals" = Ok (negb (strict_eq_js v expectedValue))
        /\ test "exists" = Ok (negb (is_nullish_js v))
        /\ test "not_exists" = Ok (is_nullish_js v)
        /\ (forall op, op ∉ known_operators -> test op = Ok false)
        /\ (forall d,
              v = Data d -> to_number d <> Unmodelled ->
              to_number expectedValue <> Unmodelled ->
              ~ (test "greater_than" = Ok true
                 /\ test "less_than" = Ok true))).
Proof.
  cbn zeta. split.
  - intros e He op. by apply holds_lookup_throws.
  - intros v Hv.
    do 4 (split; [unfold holds; cbn [field operator expected];
                  by rewrite Hv|]).
    split; [intros op Hop; by apply (holds_unknown_operator _ _ _ v)|].
    intros d -> Hd He [H1 H2]. unfold holds in H1, H2.
    cbn [field operator expected] in H1, H2. rewrite Hv in H1, H2.
    cbn in H1, H2. unfold number_lt in H1, H2.
    destruct (to_number d), (to_number expectedValue); try done.
    injection H1 as H1. injection H2 as H2. lia.
Qed.

(** X10. An enabled flow one of whose conditions has an operator the
    engine does not know (a misspelt one, say) never runs its actions:
    the conditions are not true, the record put in front of the log has
    no action, and nothing is printed, notified or dispatched. When the
    conditions are false, executeFlow returns 'Conditions not met' and
    the record is 'skipped'; when their evaluation throws, it returns
    the exception as the one error, with zero actions, and the record is
    'failed'. The conditions are false as soon as none of them
    throws. *)
Theorem unknown_operator_blocks_the_flow host rd fl eventPayload context w
    cs c :
  enabled fl = true -> is_nullish eventPayload = false ->
  conditions fl = Some cs -> c ∈ cs -> operator c ∉ known_operators ->
  let out := executeFlow host rd (Some fl) eventPayload context w in
  exists executionLog,
    head (flowExecutionHistory out.2) = Some executionLog
    /\ actionsPerformed executionLog = []
    /\ effects out.2 = effects w
    /\ match evaluateConditions (Some cs) eventPayload context with
       | Ok true => False
       | Ok false =>
           out = (Ok (NotMet "Conditions not met" (id executionLog)),
                  {| flowExecutionHistory :=
                       executionLog :: flowExecutionHistory w;
                     effects := effects w |})
           /\ status executionLog = skipped
           /\ errors executionLog = []
       | Throw e =>
           out.1 = Ok (Executed false (id executionLog) 0
                         [{| actionIndex := None; error := caught_text e |}])
           /\ status executionLog = failed
           /\ errors executionLog
              = [{| actionIndex := None; error := caught_text e |}]
           /\ flowExecutionHistory out.2
              = take 100 (executionLog :: flowExecutionHistory w)
       end
    /\ ((forall x, x ∈ cs -> exists b, holds eventPayload context x = Ok b) ->
        evaluateConditions (Some cs) eventPayload context = Ok false).
Proof.
  intros Hen Hn Hcs Hc Hop out.
  assert (Hnot : evaluateConditions (Some cs) eventPayload context <> Ok true).
  { intros Ht. rewrite evaluateConditions_true in Ht. specialize (Ht c Hc).
    destruct (payload_or_snapshot eventPayload context (field c)) as [v|e]
      eqn:Hv.
    - rewrite (holds_unknown_operator _ _ _ v Hv Hop) in Ht. discriminate.
    - rewrite (holds_lookup_throws _ _ _ e Hv) in Ht. discriminate. }
  assert (Hfalse :
    (forall x, x ∈ cs -> exists b, holds eventPayload context x = Ok b) ->
    evaluateConditions (Some cs) eventPayload context = Ok false).
  { intros Hret. apply evaluateConditions_false; [done|].
    exists c. split; [done|]. destruct (Hret c Hc) as [b Hb].
    destruct (payload_or_snapshot eventPayload context (field c)) as [v|e]
      eqn:Hv.
    - by apply (holds_unknown_operator _ _ _ v).
    - rewrite (holds_lookup_throws _ _ _ e Hv) in Hb. discriminate. }
  destruct (executeFlow_spec host rd fl eventPayload context w Hen Hn)
    as (et & _ & Hspec). rewrite Hcs in Hspec. subst out.
  destruct (evaluateConditions (Some cs) eventPayload context) as [[|]|e].
  - done.
  - rewrite Hspec.
    eexists. split; [reflexivity|]. by repeat split.
  - rewrite Hspec. unfold record_and_return. rewrite take_if_longer.
    eexists. split; [reflexivity|]. by repeat split.
Qed.

End ConditionFacts.

Section ExecutorFacts.
Import FlowEngine.
Context {realm : Realm}.

Lemma assoc_None_keys {A} k (props : list (string * A)) :
  assoc k props = None <-> k ∉ props.*1.
Proof.
  induction props as [|[k' v] props IH]; simpl.
  - split; [intros _ ?%elem_of_nil | ]; done.
  - rewrite not_elem_of_cons, <- IH.
    destruct (String.eqb_spec k k'); split; try done; try tauto.
Qed.





Lemma spread_assoc (props : list (string * value)) :
  forall target k,
    NoDup props.*1 ->
    assoc k (spread target props)
    = match assoc k props with
      | Some v => Some v
      | None => assoc k target
      end.
Proof.
  unfold spread.
  induction props as [|[k0 v0] rest IH]; intros target k Hnd; [done|].
  apply NoDup_cons in Hnd as [Hk Hnd]. cbn [fst] in Hk.
  cbn [fold_left assoc fst snd]. rewrite (IH _ _ Hnd).
  destruct (String.eqb_spec k k0) as [->|Hne].
  - apply assoc_None_keys in Hk. by rewrite Hk, assoc_set_assoc_eq.
  - rewrite assoc_set_assoc_ne; [done | congruence].
Qed.


(** X12. The update_field executor interpolates config.targetId, then
    config.value; when one of the two throws, the executor throws the
    same exception and nothing is dispatched. When both return, it
    dispatches only when targetType === 'task' and the context has
    runCommand: it then dispatches { type: 'UpdateTaskField', taskId,
    field, value } with the interpolated targetId and value, returns
    success when the dispatcher returns and throws what it throws.
    Otherwise nothing is dispatched and the result is { success: false,
    reason: 'Unsupported target type: ' + targetType }, also when the
    type is 'task' and only the dispatcher is missing; when targetType
    is an object that cannot be converted to a string, the concatenation
    throws. *)
Theorem updateField_dispatches_only_for_tasks config eventPayload context t
    targetType fld tid v :
  get_field config "targetType" = Ok targetType ->
  get_field config "field" = Ok fld ->
  get_field config "targetId" = Ok tid ->
  get_field config "value" = Ok v ->
  (forall e,
     interpolateVariables tid eventPayload context = Throw e ->
     updateField config eventPayload context t = (Throw e, t))
  /\ (forall targetId e,
        interpolateVariables tid eventPayload context = Ok targetId ->
        interpolateVariables v eventPayload context = Throw e ->
        updateField config eventPayload context t = (Throw e, t))
  /\ (forall targetId val,
        interpolateVariables tid eventPayload context = Ok targetId ->
        interpolateVariables v eventPayload context = Ok val ->
        let command :=
          VObj [("type", VStr "UpdateTaskField"); ("taskId", targetId);
                ("field", fld); ("value", val)] in
        let unsupported :=
          (match text_of targetType with
           | Ok text =>
               Ok (result_object false
                     [("reason", VStr ("Unsupported target type: " +:+ text))])
           | Throw e => Throw e
           end, t) in
        match context_runCommand context with
        | Some dispatch =>
            if strict_eq targetType (VStr "task") then
              (updateField config eventPayload context t).2
              = t ++ [ECommand command]
              /\ (dispatch command = None ->
                  (updateField config eventPayload context t).1
                  = Ok (result_object true
                          [("updated",
                            VObj [("targetId", targetId); ("field", fld);
                                  ("value", val)])]))
              /\ (forall e, dispatch command = Some e ->
                    (updateField config eventPayload context t).1 = Throw e)
            else updateField config eventPayload context t = unsupported
        | None => updateField config eventPayload context t = unsupported
        end).
Proof.
  intros Ht Hf Hi Hv.
  unfold updateField, bind, lift, call, emit, ret, throw.
  rewrite Ht, Hf, Hi, Hv.
  split; [by intros e ->|]. split; [by intros targetId e -> ->|].
  intros targetId val -> ->. cbn zeta.
  destruct (context_runCommand context) as [dispatch|];
    destruct (strict_eq targetType (VStr "task"));
    try (by destruct (text_of targetType)).
  repeat split.
  - by destruct (dispatch _).
  - by intros ->.
  - by intros e ->.
Qed.

End ExecutorFacts.

Section CoverageFlowExamples.
Import FlowEngine.
#[local] Existing Instance sample_realm.

Lemma unknown_operator_blocks_the_flow_witness :
  ("matches" ∉ known_operators)
  /\ executeFlow console_host sample_readings (Some when_matches)
       task_dropped bare_context empty_world
     = (Ok (NotMet "Conditions not met" "exec-1700000000000-9f3a"),
        (executeFlow console_host sample_readings (Some when_matches)
           task_dropped bare_context empty_world).2)
  /\ exists executionLog,
       flowExecutionHistory
         (executeFlow console_host sample_readings (Some when_matches)
            task_dropped bare_context empty_world).2 = [executionLog]
       /\ status executionLog = skipped
       /\ actionsPerformed executionLog = [].
Proof.
  assert (H : "matches" ∉ known_operators).
  { unfold known_operators. rewrite !elem_of_cons, elem_of_nil.
    intros [?|[?|[?|[?|[?|[?|[?|[]]]]]]]]; discriminate. }
  split; [exact H|]. split; [reflexivity|].
  destruct (unknown_operator_blocks_the_flow console_host sample_readings
              when_matches task_dropped bare_context empty_world
              [{| field := "toStatus"; operator := "matches";
                  expected := VStr "In.*" |}]
              {| field := "toStatus"; operator := "matches";
                 expected := VStr "In.*" |}
              eq_refl eq_refl eq_refl (list_elem_of_here _ _) H)
    as (executionLog & _ & Hp & _ & Hcase & _).
  change (evaluateConditions _ task_dropped bare_context)
    with (Ok false) in Hcase.
  destruct Hcase as (Hrun & Hst & _).
  exists executionLog. split; [by rewrite Hrun|]. by split.
Defined.


Lemma updateField_dispatches_only_for_tasks_witness :
  get_field set_status_config "targetType" = Ok (VStr "task")
  /\ (updateField set_status_config task_dropped dispatching_context []).2
     = [ECommand (VObj [("type", VStr "UpdateTaskField");
                        ("taskId", VStr "T-101");
                        ("field", VStr "status");
                        ("value", VStr "In Progress")])].
Proof.
  split; [reflexivity|].
  destruct (updateField_dispatches_only_for_tasks set_status_config
              task_dropped dispatching_context [] (VStr "task")
              (VStr "status") (VStr "{{taskId}}") (VStr "{{toStatus}}")
              eq_refl eq_refl eq_refl eq_refl) as (_ & _ & H).
  destruct (H (VStr "T-101") (VStr "In Progress") eq_refl eq_refl) as [H' _].
  exact H'.
Defined.

End CoverageFlowExamples.

(** * Navigating the history *)

Section HistoryNavigation.
Import Heap History.
Open Scope Z_scope.

Lemma board_well_positioned : well_positioned (state board).
Proof.
  repeat split; vm_compute; discriminate.
Qed.

Lemma next_board_well_positioned : well_positioned (state next_board).
Proof.
  repeat split; vm_compute; discriminate.
Qed.

Lemma moved_to_same e : moved_to e (currentIndex (state e)) = e.
Proof. by destruct e as [σ [h ci cm]]. Qed.

Lemma moved_to_moved_to e a b : moved_to (moved_to e a) b = moved_to e b.
Proof. done. Qed.

Lemma step_Undo e :
  step e Undo =
  if canUndo (state e) then moved_to e (currentIndex (state e) - 1) else e.
Proof.
  destruct e as [σ [h ci cm]]. unfold step, undo, canUndo, moved_to. cbn.
  by destruct (cm <? ci).
Qed.

Lemma step_Redo e :
  step e Redo =
  if canRedo (state e) then moved_to e (currentIndex (state e) + 1) else e.
Proof.
  destruct e as [σ [h ci cm]]. unfold step, redo, canRedo, moved_to. cbn.
  by destruct (ci <? Z.of_nat (length h) - 1).
Qed.

Lemma step_Jump e index :
  step e (Jump index) =
  if (index <? commitIndex (state e)) || (index <? 0)
     || (Z.of_nat (length (history (state e))) <=? index)
  then e else moved_to e index.
Proof.
  destruct e as [σ [h ci cm]]. unfold step, jump, moved_to. cbn.
  by destruct (_ || _ || _).
Qed.

Lemma run_undos e k :
  well_positioned (state e) ->
  run e (replicate k Undo)
  = moved_to e (Z.max (commitIndex (state e))
                  (currentIndex (state e) - Z.of_nat k)).
Proof.
  revert e. induction k as [|k IH]; intros e He.
  - cbn [replicate run fold_left]. destruct He as (? & ? & ?).
    rewrite Z.max_r by lia. rewrite Z.sub_0_r. by rewrite moved_to_same.
  - cbn [replicate run fold_left]. fold (run (step e Undo) (replicate k Undo)).
    rewrite IH by (by apply step_positioned).
    rewrite step_Undo. unfold canUndo.
    destruct He as (? & ? & ?).
    destruct (Z.ltb_spec (commitIndex (state e)) (currentIndex (state e))).
    + rewrite moved_to_moved_to. cbn [moved_to state commitIndex currentIndex].
      f_equal. lia.
    + f_equal. lia.
Qed.

Lemma run_redos e k :
  well_positioned (state e) ->
  run e (replicate k Redo)
  = moved_to e (Z.min (Z.of_nat (length (history (state e))) - 1)
                  (currentIndex (state e) + Z.of_nat k)).
Proof.
  revert e. induction k as [|k IH]; intros e He.
  - cbn [replicate run fold_left]. destruct He as (? & ? & ?).
    rewrite Z.min_r by lia. rewrite Z.add_0_r. by rewrite moved_to_same.
  - cbn [replicate run fold_left]. fold (run (step e Redo) (replicate k Redo)).
    rewrite IH by (by apply step_positioned).
    rewrite step_Redo. unfold canRedo.
    destruct He as (? & ? & ?).
    destruct (Z.ltb_spec (currentIndex (state e))
                (Z.of_nat (length (history (state e))) - 1)).
    + rewrite moved_to_moved_to.
      cbn [moved_to state commitIndex currentIndex history].
      f_equal. lia.
    + f_equal. lia.
Qed.

Lemma run_commitIndex ops :
  forall e, well_positioned (state e) ->
    commitIndex (state e) <= commitIndex (state (run e ops)).
Proof.
  induction ops as [|op ops IH]; intros e He; [done|].
  cbn [run fold_left]. fold (run (step e op) ops).
  etrans; [apply (step_commitIndex e op He) |].
  apply IH. by apply step_positioned.
Qed.

Lemma undos_in_one_render (r : State) (k : nat) :
  canUndo r = true ->
  Nat.iter k (undo r) r
  = {| history := history r; currentIndex := currentIndex r - Z.of_nat k;
       commitIndex := commitIndex r |}.
Proof.
  intros Hc. induction k as [|k IH].
  - destruct r as [h ci cm]. cbn. f_equal. lia.
  - change (Nat.iter (S k) (undo r) r) with (undo r (Nat.iter k (undo r) r)).
    rewrite IH. unfold undo. rewrite Hc. cbn. f_equal. lia.
Qed.

(** X13. On a state within its bounds, with each call made from the
    render that follows the previous one, undo followed by redo (when
    undo is possible) and redo followed by undo (when redo is possible)
    give back the state they started from. Called by one event handler,
    from one and the same render, the second call is decided by the
    guard of that render: at the last snapshot, undo() followed by
    redo() leaves the state undo() leaves, and at the commit point
    redo() followed by undo() leaves the state redo() leaves. *)
Theorem undo_redo_round_trip e :
  well_positioned (state e) ->
  (canUndo (state e) = true -> step (step e Undo) Redo = e)
  /\ (canRedo (state e) = true -> step (step e Redo) Undo = e)
  /\ (canRedo (state e) = false ->
      redo (state e) (undo (state e) (state e))
      = undo (state e) (state e))
  /\ (canUndo (state e) = false ->
      undo (state e) (redo (state e) (state e))
      = redo (state e) (state e)).
Proof.
  intros (H0 & H1 & H2).
  split; [|split; [|split;
    [intros Hc; unfold redo at 1; by rewrite Hc
    |intros Hc; unfold undo at 1; by rewrite Hc]]]; intros Hc.
  - rewrite (step_Undo e), Hc, step_Redo.
    unfold canUndo, canRedo in *.
    cbn [moved_to state currentIndex history commitIndex].
    apply Z.ltb_lt in Hc.
    destruct (Z.ltb_spec (currentIndex (state e) - 1)
                (Z.of_nat (length (history (state e))) - 1)); [|lia].
    rewrite moved_to_moved_to.
    transitivity (moved_to e (currentIndex (state e)));
      [f_equal; lia | apply moved_to_same].
  - rewrite (step_Redo e), Hc, step_Undo.
    unfold canUndo, canRedo in *.
    cbn [moved_to state currentIndex history commitIndex].
    apply Z.ltb_lt in Hc.
    destruct (Z.ltb_spec (commitIndex (state e))
                (currentIndex (state e) + 1)); [|lia].
    rewrite moved_to_moved_to.
    transitivity (moved_to e (currentIndex (state e)));
      [f_equal; lia | apply moved_to_same].
Qed.

Lemma undo_redo_round_trip_witness :
  well_positioned (state next_board)
  /\ canUndo (state next_board) = true
  /\ step (step next_board Undo) Redo = next_board
  /\ canRedo (state next_board) = false
  /\ currentIndex
       (redo (state next_board) (undo (state next_board) (state next_board)))
     = 1.
Proof.
  split; [exact next_board_well_positioned|]. split; [reflexivity|].
  destruct (undo_redo_round_trip next_board next_board_well_positioned)
    as (Hu & _ & Hr & _).
  split; [by apply Hu|]. split; [reflexivity|].
  by rewrite (Hr eq_refl).
Defined.

(** X14. With each call made from the render that follows the previous
    one, k calls of undo move currentIndex to max(commitIndex,
    currentIndex - k) and k calls of redo move it to min(history.length
    - 1, currentIndex + k), and change nothing else: repeated undo stops
    at the commit point, repeated redo at the last snapshot. Made by one
    event handler, from one render in which undo is possible, k calls of
    undo move currentIndex to currentIndex - k, whatever commitIndex
    is. *)
Theorem undo_and_redo_saturate e k :
  well_positioned (state e) ->
  run e (replicate k Undo)
  = moved_to e (Z.max (commitIndex (state e))
                  (currentIndex (state e) - Z.of_nat k))
  /\ run e (replicate k Redo)
     = moved_to e (Z.min (Z.of_nat (length (history (state e))) - 1)
                     (currentIndex (state e) + Z.of_nat k))
  /\ (canUndo (state e) = true ->
      Nat.iter k (undo (state e)) (state e)
      = state (moved_to e (currentIndex (state e) - Z.of_nat k))).
Proof.
  intros He. split; [by apply run_undos|]. split; [by apply run_redos|].
  apply undos_in_one_render.
Qed.

Lemma undo_and_redo_saturate_witness :
  well_positioned (state next_board)
  /\ run next_board (replicate 5 Undo) = moved_to next_board 1
  /\ currentIndex (Nat.iter 5 (undo (state next_board)) (state next_board))
     = -3.
Proof.
  split; [exact next_board_well_positioned|].
  destruct (undo_and_redo_saturate next_board 5 next_board_well_positioned)
    as (Hu & _ & Hone).
  split; [exact Hu|]. by rewrite (Hone eq_refl).
Defined.

(** X15. In the render that follows a commit nothing can be undone:
    canUndo is false, uncommittedSteps is 0, undo and a jump to an
    earlier index change nothing; and whatever operations follow, each
    called from the render that follows the previous one, commitIndex
    and currentIndex stay at or above the committed index. An undo()
    called by the event handler that called commit(), from the same
    render, is decided by the guard of that render: when undo was
    possible there, currentIndex ends one below the new commitIndex. *)
Theorem commit_is_a_floor e ops :
  well_positioned (state e) ->
  let e' := step e Commit in
  canUndo (state e') = false
  /\ uncommittedSteps (state e') = 0
  /\ step e' Undo = e'
  /\ (forall index, index < currentIndex (state e) ->
        step e' (Jump index) = e')
  /\ currentIndex (state e) <= commitIndex (state (run e' ops))
  /\ currentIndex (state e) <= currentIndex (state (run e' ops))
  /\ (canUndo (state e) = true ->
      let s := undo (state e) (state e') in
      commitIndex s = currentIndex (state e)
      /\ currentIndex s = currentIndex (state e) - 1).
Proof.
  intros He. cbn zeta.
  assert (Hone : canUndo (state e) = true ->
    commitIndex (undo (state e) (state (step e Commit)))
    = currentIndex (state e)
    /\ currentIndex (undo (state e) (state (step e Commit)))
       = currentIndex (state e) - 1).
  { intros Hc. unfold undo. rewrite Hc. cbn.
    destruct e as [σ s]. cbn [step state heap].
    destruct (commit s σ s) as [σ' s'] eqn:E.
    pose proof (commit_indices s σ) as [? ?]. rewrite E in *. cbn in *.
    split; congruence. }
  pose proof (step_positioned e Commit He) as He'.
  assert (Hc : commitIndex (state (step e Commit)) = currentIndex (state e)
               /\ currentIndex (state (step e Commit)) = currentIndex (state e)).
  { destruct e as [σ s]. cbn [step state heap].
    destruct (commit s σ s) as [σ' s'] eqn:E.
    pose proof (commit_indices s σ) as [? ?]. rewrite E in *. by cbn in *. }
  destruct Hc as [Hcm Hci].
  assert (Hu : canUndo (state (step e Commit)) = false).
  { unfold canUndo. rewrite Hcm, Hci. apply Z.ltb_irrefl. }
  split; [done|]. split; [unfold uncommittedSteps; lia|].
  split; [by rewrite step_Undo, Hu|].
  split.
  - intros index Hi. rewrite step_Jump, Hcm.
    by destruct (Z.ltb_spec index (currentIndex (state e))); [|lia].
  - pose proof (run_commitIndex ops _ He') as Hm.
    pose proof (run_positioned _ ops He') as (? & ? & ?).
    split; [lia|]. split; [lia|]. exact Hone.
Qed.

Lemma commit_is_a_floor_witness :
  well_positioned (state next_board)
  /\ 2 <= currentIndex (state (run (step next_board Commit)
                                 [Undo; Jump 0; Undo])).
Proof.
  split; [exact next_board_well_positioned|].
  pose proof (commit_is_a_floor next_board [Undo; Jump 0; Undo]
                next_board_well_positioned) as H.
  cbv zeta in H. destruct H as (_ & _ & _ & _ & _ & H & _). exact H.
Defined.

(** X16. jump(index) does nothing for an index below commitIndex or not
    below history.length; otherwise it leaves the state that
    currentIndex - index calls of undo, or index - currentIndex calls of
    redo, leave. *)
Theorem jump_is_repeated_undo_or_redo e index :
  well_positioned (state e) ->
  step e (Jump index)
  = if (index <? commitIndex (state e))
       || (Z.of_nat (length (history (state e))) <=? index)
    then e
    else if index <=? currentIndex (state e)
    then run e (replicate (Z.to_nat (currentIndex (state e) - index)) Undo)
    else run e (replicate (Z.to_nat (index - currentIndex (state e))) Redo).
Proof.
  intros He. rewrite step_Jump, run_undos, run_redos by done.
  destruct He as (H0 & H1 & H2).
  destruct (Z.ltb_spec index (commitIndex (state e)));
    destruct (Z.ltb_spec index 0);
    destruct (Z.leb_spec (Z.of_nat (length (history (state e)))) index);
    cbn [orb]; try done; try lia.
  destruct (Z.leb_spec index (currentIndex (state e))); f_equal; lia.
Qed.

Lemma jump_is_repeated_undo_or_redo_witness :
  well_positioned (state next_board)
  /\ step next_board (Jump 1) = run next_board [Undo].
Proof.
  split; [exact next_board_well_positioned|].
  exact (jump_is_repeated_undo_or_redo next_board 1
           next_board_well_positioned).
Defined.

(** X17. The history panel lets an entry be jumped to only when 0 <= idx
    <= commitIndex, and the hook's jump refuses idx < commitIndex:
    through the panel, handleJump moves to the commit index and nowhere
    else, although jump itself would move to every later entry.
    handleUndo and handleRedo do what undo and redo do; at a commit
    point past index 0 the panel's canUndo is true while undo does
    nothing. *)
Theorem panel_jumps_only_to_the_commit_point (s : State) (idx : Z) :
  well_positioned s ->
  HistoryPanel.handleJump s idx s
  = (if idx =? commitIndex s
     then {| history := history s; currentIndex := commitIndex s;
             commitIndex := commitIndex s |}
     else s)
  /\ (commitIndex s < idx < Z.of_nat (length (history s)) ->
      HistoryPanel.canJumpTo s idx = false
      /\ currentIndex (jump s idx s) = idx)
  /\ HistoryPanel.handleUndo s s = undo s s
  /\ HistoryPanel.handleRedo s s = redo s s
  /\ (0 < currentIndex s -> currentIndex s = commitIndex s ->
      HistoryPanel.canUndo s = true /\ HistoryPanel.handleUndo s s = s).
Proof.
  intros (H0 & H1 & H2).
  unfold HistoryPanel.handleJump, HistoryPanel.canJumpTo,
    HistoryPanel.handleUndo, HistoryPanel.handleRedo, HistoryPanel.canUndo,
    HistoryPanel.canRedo, jump, undo, redo, canUndo, canRedo.
  repeat split.
  - destruct (Z.eqb_spec idx (commitIndex s)) as [->|Hne].
    + destruct (Z.leb_spec 0 (commitIndex s)); [|lia].
      rewrite Z.leb_refl, Z.ltb_irrefl. cbn [andb orb].
      destruct (Z.ltb_spec (commitIndex s) 0); [lia|].
      by destruct (Z.leb_spec (Z.of_nat (length (history s))) (commitIndex s));
        [lia|].
    + destruct (Z.leb_spec 0 idx); [|done].
      destruct (Z.leb_spec idx (commitIndex s)); [|done].
      cbn [andb]. by destruct (Z.ltb_spec idx (commitIndex s)); [|lia].
  - destruct (Z.leb_spec idx (commitIndex s)); [lia|]. apply andb_false_r.
  - destruct (Z.ltb_spec idx (commitIndex s)); [lia|].
    destruct (Z.ltb_spec idx 0); [lia|].
    by destruct (Z.leb_spec (Z.of_nat (length (history s))) idx); [lia|].
  - destruct (Z.ltb_spec 0 (currentIndex s)); [done|].
    by destruct (Z.ltb_spec (commitIndex s) (currentIndex s)); [lia|].
  - by destruct (_ <? _).
  - by apply Z.ltb_lt.
  - destruct (Z.ltb_spec 0 (currentIndex s)); [|done].
    by destruct (Z.ltb_spec (commitIndex s) (currentIndex s)); [lia|].
Qed.

Lemma panel_jumps_only_to_the_commit_point_witness :
  well_positioned (state next_board)
  /\ HistoryPanel.handleJump (state next_board) 2 (state next_board)
     = state next_board
  /\ HistoryPanel.canJumpTo (state next_board) 2 = false.
Proof.
  split; [exact next_board_well_positioned|].
  destruct (panel_jumps_only_to_the_commit_point (state next_board) 2
              next_board_well_positioned) as (H & H2 & _).
  split; [exact H|]. apply H2. split; reflexivity.
Defined.

End HistoryNavigation.

(** * Commits and changes *)

Section HistoryChanges.
Import Heap History.
Open Scope Z_scope.





Lemma stringify_primitive fuel σ stack v :
  is_primitive v ->
  exists t, stringify_value fuel σ stack v = Ok t /\ is_structure t = false.
Proof. destruct v, fuel; try done; by eexists. Qed.

Lemma parse_primitive t σ :
  is_structure t = false -> is_primitive (parse_value t σ).1.
Proof. by destruct t. Qed.

Lemma applyChange_throw_keeps_state r label mutator now σ p :
  (applyChange r label mutator now σ p).1.1 <> Ok tt ->
  (applyChange r label mutator now σ p).2 = p.
Proof.
  destruct (applyChange_cases r label mutator now σ p)
    as [(e & σ' & ->) | (clone & σ' & ->)]; done.
Qed.

(** X19. applyChange returns only when the current snapshot is an object
    or an array. On a primitive snapshot it throws and leaves the state
    as it was; when currentSnapshot is undefined (currentIndex outside
    the list) it throws the SyntaxError of JSON.parse(undefined) before
    anything is touched. *)
Theorem applyChange_needs_an_object_snapshot e label mutator now :
  let out := applyChange (state e) label mutator now (heap e) (state e) in
  (applies e label mutator now ->
   exists l c, currentSnapshot (state e) = HRef l /\ heap e !! l = Some c)
  /\ (is_primitive (currentSnapshot (state e)) ->
      (exists err, out.1.1 = Throw err)
      /\ out.2 = state e
      /\ step e (ApplyChange label mutator now)
         = {| heap := out.1.2; state := state e |})
  /\ (currentSnapshot (state e) = HUndefined ->
      out = (Throw (JsError "SyntaxError"
                      "Unexpected token u in JSON at position 0"),
             heap e, state e)).
Proof.
  cbn zeta. split; [|split].
  - intros (text & Hs & Hst & _)%applies_iff.
    unfold JSON_stringify in Hs.
    destruct (currentSnapshot (state e)) as [| | | | |l] eqn:E;
      try (destruct (length (heap e)); simpl in Hs;
           injection Hs as <-; done).
    destruct (heap e !! l) as [c|] eqn:El; [by eauto|].
    destruct (length (heap e)); simpl in Hs; by rewrite El in Hs.
  - intros Hp.
    assert (Hno : ~ applies e label mutator now).
    { intros (text & Hs & Hst & _)%applies_iff.
      destruct (stringify_primitive (length (heap e)) (heap e) []
                  _ Hp) as (t & Ht & Hnt).
      unfold JSON_stringify in Hs. congruence. }
    unfold applies in Hno.
    pose proof (applyChange_throw_keeps_state _ _ _ _ _ _ Hno) as Hk.
    split; [|split; [done|]].
    + destruct (applyChange_cases (state e) label mutator now (heap e)
                  (state e)) as [(err & σ' & E) | (clone & σ' & E)];
        rewrite E in *; [by eexists | done].
    + unfold step.
      destruct (applyChange _ _ _ _ _ _) as [[res σ'] s']. cbn in *.
      by subst.
  - intros E. unfold applyChange, JSON_stringify. rewrite E.
    by destruct (length (heap e)).
Qed.

(** X20. Two calls of applyChange made from the same render (both
    returning) read the same list and the same index: the second
    snapshot, stamped with the render's history.length as its id, takes
    the place of the first instead of following it, while currentIndex
    is incremented twice and ends at history.length, one past the end.
    currentSnapshot is then undefined and every further applyChange
    throws a SyntaxError. *)
Theorem applyChange_twice_from_one_render (r : State) (σ : store)
    label1 mutator1 now1 label2 mutator2 now2 :
  well_positioned r ->
  let first := applyChange r label1 mutator1 now1 σ r in
  let second := applyChange r label2 mutator2 now2 first.1.2 first.2 in
  first.1.1 = Ok tt -> second.1.1 = Ok tt ->
  exists clone1 clone2,
    history first.2
    = take (Z.to_nat (currentIndex r + 1)) (history r) ++ [clone1]
    /\ history second.2
       = take (Z.to_nat (currentIndex r + 1)) (history r) ++ [clone2]
    /\ read_named second.1.2 clone2 "id"
       = Ok (HNum (Z.of_nat (length (history r))))
    /\ currentIndex second.2 = currentIndex r + 2
    /\ currentIndex second.2 = Z.of_nat (length (history second.2))
    /\ currentSnapshot second.2 = HUndefined
    /\ ~ well_positioned second.2
    /\ forall label mutator now,
         applyChange second.2 label mutator now second.1.2 second.2
         = (Throw (JsError "SyntaxError"
                     "Unexpected token u in JSON at position 0"),
            second.1.2, second.2).
Proof.
  intros He. cbn zeta. intros H1 H2.
  destruct (applyChange r label1 mutator1 now1 σ r) as [[res1 σ1] s1] eqn:E1.
  cbn [fst snd] in *. subst res1.
  destruct (applyChange r label2 mutator2 now2 σ1 s1) as [[res2 σ2] s2] eqn:E2.
  cbn [fst snd] in *. subst res2.
  apply applyChange_returns_inv in E1
    as (text1 & clone1 & σa & ops1 & σb & σc & _ & _ & _ & _ & _ & _ & ->).
  apply applyChange_returns_inv in E2
    as (text2 & clone2 & σa2 & ops2 & σb2 & σc2 & _ & _ & _ & Hid & Hlab & Hts
        & ->).
  destruct He as (H0 & Hcm & Hlen).
  cbn [history currentIndex commitIndex].
  rewrite !slice0_take by lia.
  assert (Hk : (Z.to_nat (currentIndex r + 1) <= length (history r))%nat)
    by lia.
  assert (Htake : take (Z.to_nat (currentIndex r + 1))
                    (take (Z.to_nat (currentIndex r + 1)) (history r)
                     ++ [clone1])
                  = take (Z.to_nat (currentIndex r + 1)) (history r)).
  { rewrite take_app_le by (rewrite length_take; lia).
    rewrite take_take. f_equal. lia. }
  rewrite Htake.
  set (h2 := take _ (history r) ++ [clone2]).
  assert (Hl2 : Z.of_nat (length h2) = currentIndex r + 2).
  { unfold h2. rewrite length_app, length_take. cbn [length]. lia. }
  exists clone1, clone2. split; [done|]. split; [done|].
  split.
  { rewrite (assign_named_read_other _ _ _ _ _ _ Hts) by done.
    rewrite (assign_named_read_other _ _ _ _ _ _ Hlab) by done.
    by rewrite (assign_named_read _ _ _ _ _ Hid). }
  split; [lia|]. split; [lia|].
  assert (Hund : currentSnapshot
                   {| history := h2; currentIndex := currentIndex r + 1 + 1;
                      commitIndex := commitIndex r |} = HUndefined).
  { unfold currentSnapshot, at_index. cbn [history currentIndex].
    destruct (Z.ltb_spec (currentIndex r + 1 + 1) 0); [done|].
    rewrite lookup_ge_None_2; [done | lia]. }
  split; [done|]. split.
  - intros (_ & _ & Hb). cbn [history currentIndex] in Hb. lia.
  - intros label mutator now. unfold applyChange, JSON_stringify.
    rewrite Hund. by destruct (length σ2).
Qed.

Lemma applyChange_twice_from_one_render_witness :
  well_positioned (state board)
  /\ currentSnapshot
       (applyChange (state board) "Update T-101" None "10:00:01"
          (applyChange (state board) "Move T-101" None "10:00:00"
             (heap board) (state board)).1.2
          (applyChange (state board) "Move T-101" None "10:00:00"
             (heap board) (state board)).2).2
     = HUndefined.
Proof.
  split; [exact board_well_positioned|].
  pose proof (applyChange_twice_from_one_render (state board) (heap board)
                "Move T-101" None "10:00:00" "Update T-101" None "10:00:01"
                board_well_positioned) as H.
  cbv zeta in H.
  destruct (H eq_refl eq_refl)
    as (clone1 & clone2 & _ & _ & _ & _ & _ & H' & _).
  exact H'.
Defined.

End HistoryChanges.

(** * The deep copy *)

Section DeepCopy.
Import Heap History.

Lemma is_json_obj props :
  is_json (VObj props) = forallb (fun kv => is_json kv.2) props.
Proof.
  induction props as [|[k x] r IH]; [done|].
  cbn [is_json forallb snd] in *. by rewrite IH.
Qed.

Lemma stringify_props_json (f : hval -> result value) props ts :
  (forall v t, f v = Ok t -> t = VUndefined \/ is_json t = true) ->
  stringify_props f props = Ok ts ->
  forallb (fun kv => is_json kv.2) ts = true.
Proof.
  intros Hf. revert ts.
  induction props as [|[k v] r IH]; intros ts; cbn [stringify_props].
  - by intros [= <-].
  - destruct (f v) as [t|] eqn:E; [|done]. cbn [result_bind].
    destruct (stringify_props f r) as [ts'|]; [|done]. cbn [result_bind].
    intros [= <-]. specialize (IH _ eq_refl).
    destruct (Hf _ _ E) as [->|Hj]; [done|].
    destruct t; try done; cbn [is_undefined forallb snd]; by rewrite Hj, IH.
Qed.

Lemma stringify_elems_json (f : hval -> result value) elems ts :
  (forall v t, f v = Ok t -> t = VUndefined \/ is_json t = true) ->
  stringify_elems f elems = Ok ts -> forallb is_json ts = true.
Proof.
  intros Hf. revert ts.
  induction elems as [|v r IH]; intros ts; cbn [stringify_elems].
  - by intros [= <-].
  - destruct (f v) as [t|] eqn:E; [|done]. cbn [result_bind].
    destruct (stringify_elems f r) as [ts'|]; [|done]. cbn [result_bind].
    intros [= <-]. specialize (IH _ eq_refl).
    destruct (Hf _ _ E) as [->|Hj]; [done|].
    destruct t; try done; cbn [is_undefined forallb]; by rewrite Hj, IH.
Qed.

Lemma stringify_value_json fuel :
  forall σ stack v t,
    stringify_value fuel σ stack v = Ok t ->
    t = VUndefined \/ is_json t = true.
Proof.
  induction fuel as [|fuel IH]; intros σ stack v t.
  - destruct v; cbn [stringify_value]; try (intros [= <-]; auto; fail).
    destruct (bool_decide _); [done|]. by destruct (σ !! l) as [[]|].
  - destruct v; cbn [stringify_value]; try (intros [= <-]; auto; fail).
    destruct (bool_decide _); [done|].
    destruct (σ !! l) as [[props|elems extra]|]; [| |done].
    + destruct (stringify_props _ props) as [ps|] eqn:E; [|done].
      intros [= <-]. right. rewrite is_json_obj.
      eapply stringify_props_json; [|exact E]. intros v t'. apply IH.
    + destruct (stringify_elems _ elems) as [xs|] eqn:E; [|done].
      intros [= <-]. right. cbn [is_json].
      eapply stringify_elems_json; [|exact E]. intros v t'. apply IH.
Qed.

Lemma parse_value_extends t σ :
  exists new, (parse_value t σ).2 = σ ++ new.
Proof.
  pose proof (parse_value_fresh t σ) as H.
  destruct (parse_value t σ) as [h σ1]. by destruct H as (H & _).
Qed.

Lemma parse_members_extends props :
  forall σ, exists new, (parse_members props σ).2 = σ ++ new.
Proof.
  induction props as [|[k x] r IH]; intros σ; cbn [parse_members].
  - exists []. by rewrite app_nil_r.
  - destruct (parse_value_extends x σ) as [n1 E1].
    destruct (parse_value x σ) as [h σ1]. cbn [snd] in E1. subst σ1.
    destruct (IH (σ ++ n1)) as [n2 E2].
    destruct (parse_members r (σ ++ n1)) as [hs σ2]. cbn [snd] in *. subst σ2.
    exists (n1 ++ n2). by rewrite app_assoc.
Qed.

Lemma parse_elems_extends xs :
  forall σ, exists new, (parse_elems xs σ).2 = σ ++ new.
Proof.
  induction xs as [|x r IH]; intros σ; cbn [parse_elems].
  - exists []. by rewrite app_nil_r.
  - destruct (parse_value_extends x σ) as [n1 E1].
    destruct (parse_value x σ) as [h σ1]. cbn [snd] in E1. subst σ1.
    destruct (IH (σ ++ n1)) as [n2 E2].
    destruct (parse_elems r (σ ++ n1)) as [hs σ2]. cbn [snd] in *. subst σ2.
    exists (n1 ++ n2). by rewrite app_assoc.
Qed.

Lemma members_round_trip props :
  Forall (fun kv => round_trip kv.2) props ->
  forallb (fun kv => is_json kv.2) props = true ->
  forall σ σ1 stack fuel,
    (length (parse_members props σ).2 <= length σ1)%nat ->
    (forall l, (l < length (parse_members props σ).2)%nat ->
       σ1 !! l = (parse_members props σ).2 !! l) ->
    (forall l, l ∈ stack ->
       (l < length σ \/ length (parse_members props σ).2 <= l)%nat) ->
    (length (parse_members props σ).2 - length σ <= fuel)%nat ->
    stringify_props (stringify_value fuel σ1 stack) (parse_members props σ).1
    = Ok props.
Proof.
  induction 1 as [|[k x] r Hx Hr IH]; intros Hj σ σ1 stack fuel; [done|].
  cbn [forallb snd] in Hj. apply andb_prop in Hj as [Hjx Hjr].
  cbn [parse_members].
  pose proof (Hx Hjx σ stack fuel) as Hrt. cbn [snd] in Hrt.
  destruct (parse_value_extends x σ) as [n1 E1].
  destruct (parse_value x σ) as [h σa]. cbn [fst snd] in *. subst σa.
  specialize (IH Hjr (σ ++ n1) σ1 stack fuel).
  destruct (parse_members_extends r (σ ++ n1)) as [n2 E2].
  destruct (parse_members r (σ ++ n1)) as [hs σm]. cbn [fst snd] in *.
  subst σm. intros Hlen Hag Hst Hfuel.
  rewrite !length_app in *.
  cbn [stringify_props].
  rewrite (stringify_value_stable fuel fuel (σ ++ n1) σ1 stack h x).
  - cbn [result_bind]. rewrite IH; try done; try lia.
    + cbn [result_bind]. by destruct x.
    + intros l Hl. destruct (Hst l Hl); lia.
  - done.
  - intros l Hl. rewrite Hag by (rewrite length_app in Hl; lia).
    by rewrite lookup_app_l.
  - apply Hrt; [|lia]. intros l Hl. destruct (Hst l Hl); lia.
Qed.

Lemma elems_round_trip xs :
  Forall round_trip xs ->
  forallb is_json xs = true ->
  forall σ σ1 stack fuel,
    (length (parse_elems xs σ).2 <= length σ1)%nat ->
    (forall l, (l < length (parse_elems xs σ).2)%nat ->
       σ1 !! l = (parse_elems xs σ).2 !! l) ->
    (forall l, l ∈ stack ->
       (l < length σ \/ length (parse_elems xs σ).2 <= l)%nat) ->
    (length (parse_elems xs σ).2 - length σ <= fuel)%nat ->
    stringify_elems (stringify_value fuel σ1 stack) (parse_elems xs σ).1
    = Ok xs.
Proof.
  induction 1 as [|x r Hx Hr IH]; intros Hj σ σ1 stack fuel; [done|].
  cbn [forallb] in Hj. apply andb_prop in Hj as [Hjx Hjr].
  cbn [parse_elems].
  pose proof (Hx Hjx σ stack fuel) as Hrt.
  destruct (parse_value_extends x σ) as [n1 E1].
  destruct (parse_value x σ) as [h σa]. cbn [fst snd] in *. subst σa.
  specialize (IH Hjr (σ ++ n1) σ1 stack fuel).
  destruct (parse_elems_extends r (σ ++ n1)) as [n2 E2].
  destruct (parse_elems r (σ ++ n1)) as [hs σm]. cbn [fst snd] in *.
  subst σm. intros Hlen Hag Hst Hfuel.
  rewrite !length_app in *.
  cbn [stringify_elems].
  rewrite (stringify_value_stable fuel fuel (σ ++ n1) σ1 stack h x).
  - cbn [result_bind]. rewrite IH; try done; try lia.
    + cbn [result_bind]. by destruct x.
    + intros l Hl. destruct (Hst l Hl); lia.
  - done.
  - intros l Hl. rewrite Hag by (rewrite length_app in Hl; lia).
    by rewrite lookup_app_l.
  - apply Hrt; [|lia]. intros l Hl. destruct (Hst l Hl); lia.
Qed.

Lemma parse_stringify t : round_trip t.
Proof.
  induction t as [| | | | |xs IH|props IH] using value_ind_nested;
    intros Hj σ stack fuel Hst Hfuel; try done;
    try (by destruct fuel).
  - rewrite parse_value_arr in *.
    pose proof (elems_round_trip xs IH Hj σ) as Hin.
    destruct (parse_elems_extends xs σ) as [n E].
    destruct (parse_elems xs σ) as [hs σm]. cbn [fst snd] in *. subst σm.
    rewrite !length_app in *. cbn [length] in *.
    destruct fuel as [|fuel]; [lia|].
    cbn [stringify_value].
    rewrite bool_decide_eq_false_2.
    2:{ intros Hl. destruct (Hst _ Hl); rewrite ?length_app in *; lia. }
    rewrite lookup_app_r, length_app, Nat.sub_diag by (rewrite length_app; lia).
    cbn [lookup list_lookup].
    rewrite Hin.
    + done.
    + rewrite !length_app. cbn [length]. lia.
    + intros l Hl. rewrite lookup_app_l; [done | rewrite length_app; lia].
    + intros l [->|Hl]%elem_of_cons; [lia|].
      destruct (Hst l Hl); lia.
    + lia.
  - rewrite parse_value_obj in *. rewrite is_json_obj in Hj.
    pose proof (members_round_trip props IH Hj σ) as Hin.
    destruct (parse_members_extends props σ) as [n E].
    destruct (parse_members props σ) as [hps σm]. cbn [fst snd] in *. subst σm.
    rewrite !length_app in *. cbn [length] in *.
    destruct fuel as [|fuel]; [lia|].
    cbn [stringify_value].
    rewrite bool_decide_eq_false_2.
    2:{ intros Hl. destruct (Hst _ Hl); rewrite ?length_app in *; lia. }
    rewrite lookup_app_r, length_app, Nat.sub_diag by (rewrite length_app; lia).
    cbn [lookup list_lookup].
    rewrite Hin.
    + done.
    + rewrite !length_app. cbn [length]. lia.
    + intros l Hl. rewrite lookup_app_l; [done | rewrite length_app; lia].
    + intros l [->|Hl]%elem_of_cons; [lia|].
      destruct (Hst l Hl); lia.
    + lia.
Qed.

Lemma JSON_round_trip σ v text clone σ1 :
  JSON_stringify σ v = Ok text ->
  JSON_parse text σ = Ok (clone, σ1) ->
  JSON_stringify σ1 clone = Ok text.
Proof.
  intros Hs Hp. unfold JSON_stringify in *.
  destruct (stringify_value_json _ _ _ _ _ Hs) as [->|Hj]; [by cbn in Hp|].
  assert (E : parse_value text σ = (clone, σ1)).
  { unfold JSON_parse in Hp. destruct text; congruence. }
  pose proof (parse_stringify text Hj σ [] (length σ1)) as H.
  rewrite E in H. cbn [fst snd] in H. apply H; [|lia].
  by intros l ?%elem_of_nil.
Qed.

(** X21. JSON.parse(JSON.stringify(snapshot)), when it succeeds, gives a
    value that serializes to the same text as the snapshot, consists of
    newly allocated objects only, and leaves every existing object, and
    so the snapshot's own serialization, unchanged. *)
Theorem clone_is_a_faithful_copy σ v text clone σ1 :
  JSON_stringify σ v = Ok text ->
  JSON_parse text σ = Ok (clone, σ1) ->
  JSON_stringify σ1 clone = Ok text
  /\ JSON_stringify σ1 v = Ok text
  /\ (forall l, (l < length σ)%nat -> σ1 !! l = σ !! l)
  /\ (forall l, reach σ1 clone l -> (length σ <= l < length σ1)%nat).
Proof.
  intros Hs Hp.
  pose proof (JSON_round_trip _ _ _ _ _ Hs Hp) as Hrt.
  destruct (JSON_parse_extends _ _ _ _ Hp) as (Hlen & Hag & Hcl & Hva).
  split; [done|].
  split; [by apply (JSON_stringify_stable σ)|].
  split; [done|].
  intros l Hl. by apply (reach_above _ _ clone).
Qed.

Lemma clone_is_a_faithful_copy_witness :
  JSON_stringify board_store (HRef 0%nat) = Ok (VObj board_text)
  /\ JSON_stringify (parse_value (VObj board_text) board_store).2
       (parse_value (VObj board_text) board_store).1
     = Ok (VObj board_text)
  /\ JSON_stringify (parse_value (VObj board_text) board_store).2 (HRef 0%nat)
     = Ok (VObj board_text).
Proof.
  split; [reflexivity|].
  destruct (clone_is_a_faithful_copy board_store (HRef 0%nat)
              (VObj board_text)
              (parse_value (VObj board_text) board_store).1
              (parse_value (VObj board_text) board_store).2
              eq_refl eq_refl) as (H1 & H2 & _).
  split; [exact H1 | exact H2].
Defined.

Lemma assign_named_last σm props key v :
  assign_named (HRef (length σm)) key v (σm ++ [CObj props])
  = Ok (σm ++ [CObj (set_assoc key v props)]).
Proof.
  unfold assign_named. rewrite lookup_app_r, Nat.sub_diag by lia.
  cbn [lookup list_lookup]. f_equal.
  rewrite insert_app_r_alt, Nat.sub_diag by lia. done.
Qed.

Lemma stringify_props_length (f : hval -> result value) props :
  forall ps, stringify_props f props = Ok ps ->
    (length ps <= length props)%nat.
Proof.
  induction props as [|[k v] r IH]; intros ps; cbn [stringify_props].
  - by intros [= <-].
  - destruct (f v) as [t|]; [|done]. cbn [result_bind].
    destruct (stringify_props f r) as [ts|]; [|done]. cbn [result_bind].
    specialize (IH _ eq_refl).
    intros [= <-]. destruct (is_undefined t); cbn [length]; lia.
Qed.

Lemma stringify_props_all (f : hval -> result value) props :
  forall ps, stringify_props f props = Ok ps -> length ps = length props ->
    Forall2 (serializes f) props ps.
Proof.
  induction props as [|[k v] r IH]; intros ps; cbn [stringify_props].
  - intros [= <-] _. constructor.
  - destruct (f v) as [t|] eqn:Ef; [|done]. cbn [result_bind].
    destruct (stringify_props f r) as [ts|] eqn:Er; [|done]. cbn [result_bind].
    pose proof (stringify_props_length f r ts Er).
    intros [= <-]. destruct (is_undefined t) eqn:Eu; cbn [length]; [lia|].
    intros [= Hl]. constructor; [done | by apply IH].
Qed.

Lemma serializes_stringify (f : hval -> result value) props ps :
  Forall2 (serializes f) props ps -> stringify_props f props = Ok ps.
Proof.
  induction 1 as [|[k v] [k' t] r ts (Hk & Hf & Hu) _ IH]; [done|].
  cbn [fst snd] in *. subst k'. cbn [stringify_props].
  by rewrite Hf, IH; cbn [result_bind]; rewrite Hu.
Qed.

Lemma serializes_set_assoc (f : hval -> result value) k v t props ps :
  f v = Ok t -> is_undefined t = false ->
  Forall2 (serializes f) props ps ->
  Forall2 (serializes f) (set_assoc k v props) (set_assoc k t ps).
Proof.
  intros Hf Hu. induction 1 as [|[k1 v1] [k2 t2] r ts (Hk & Hf1 & Hu1) Hr IH].
  - by repeat constructor.
  - cbn [fst snd] in *. subst k2. cbn [set_assoc].
    destruct (String.eqb k k1); by repeat constructor.
Qed.

Lemma parse_members_length props :
  forall σ, length (parse_members props σ).1 = length props.
Proof.
  induction props as [|[k x] r IH]; intros σ; [done|].
  cbn [parse_members]. destruct (parse_value x σ) as [h σ1].
  specialize (IH σ1). destruct (parse_members r σ1) as [hs σ2].
  cbn [fst length] in *. by rewrite IH.
Qed.

Lemma applyChange_copy e label mutator now props :
  well_positioned (state e) ->
  JSON_stringify (heap e) (currentSnapshot (state e)) = Ok (VObj props) ->
  (forall clone σ1,
     JSON_parse (VObj props) (heap e) = Ok (clone, σ1) ->
     mutation mutator clone σ1 = ([], None)) ->
  let e' := step e (ApplyChange label mutator now) in
  JSON_stringify (heap e') (currentSnapshot (state e'))
  = Ok (stamped (Z.of_nat (length (history (state e)))) label now props)
  /\ JSON_stringify (heap e') (currentSnapshot (state e)) = Ok (VObj props)
  /\ currentIndex (state e') = (currentIndex (state e) + 1)%Z
  /\ (length (history (state e')) = Z.to_nat (currentIndex (state e) + 2))%nat.
Proof.
  intros He Hs Hmut. cbn zeta.
  destruct (stringify_value_json _ _ _ _ _ Hs) as [|Hj]; [done|].
  rewrite is_json_obj in Hj.
  destruct e as [σ s]. cbn [heap state] in *.
  unfold step. cbn [heap state]. unfold applyChange. rewrite Hs.
  cbn [JSON_parse] in *. rewrite parse_value_obj in *.
  pose proof (parse_members_length props σ) as Hlen.
  destruct (parse_members_extends props σ) as [new Hnew].
  pose proof (fun H σ1 stack fuel =>
                members_round_trip props H Hj σ σ1 stack fuel) as Hrt.
  destruct (parse_members props σ) as [hps σm]. cbn [fst snd] in *. subst σm.
  specialize (Hmut _ _ eq_refl). unfold mutation in Hmut. rewrite Hmut.
  cbn [apply_ops fold_left].
  rewrite !assign_named_last. cbn [heap state].
  set (hps' := set_assoc "timestamp" _ _).
  destruct He as (H0 & H1 & H2).
  rewrite slice0_take by lia.
  assert (Hcur : currentSnapshot
                   {| history := take (Z.to_nat (currentIndex s + 1)) (history s)
                                 ++ [HRef (length (σ ++ new))];
                      currentIndex := (currentIndex s + 1)%Z;
                      commitIndex := commitIndex s |}
                 = HRef (length (σ ++ new))).
  { unfold currentSnapshot, at_index. cbn [history currentIndex].
    destruct (Z.ltb_spec (currentIndex s + 1) 0); [lia|].
    rewrite lookup_app_r by (rewrite length_take; lia).
    rewrite length_take.
    replace (Z.to_nat (currentIndex s + 1)
             - Z.to_nat (currentIndex s + 1) `min` length (history s))%nat
      with 0%nat by lia. done. }
  rewrite Hcur. split; [|split; [|split]].
  - unfold JSON_stringify. rewrite length_app at 1. cbn [length].
    rewrite Nat.add_1_r. cbn [stringify_value].
    rewrite bool_decide_eq_false_2 by (by intros ?%elem_of_nil).
    rewrite lookup_app_r, Nat.sub_diag by lia. cbn [lookup list_lookup].
    set (f := stringify_value _ _ _).
    assert (Hall : Forall2 (serializes f) hps props).
    { apply stringify_props_all; [|lia]. apply Hrt.
      - clear. induction props as [|[k x] r IH]; constructor; [|done].
        apply parse_stringify.
      - rewrite !length_app. cbn [length]. lia.
      - intros l Hl. by rewrite lookup_app_l.
      - intros l ->%list_elem_of_singleton. right. lia.
      - rewrite !length_app. lia. }
    rewrite (serializes_stringify f hps'
               (set_assoc "timestamp" (VStr now)
                  (set_assoc "label" (VStr label)
                     (set_assoc "id"
                        (VNum (Z.of_nat (length (history s)))) props)))).
    + done.
    + unfold hps', f.
      repeat (apply serializes_set_assoc;
              [by destruct (length (σ ++ new)) | done |]).
      done.
  - apply (JSON_stringify_stable σ); [rewrite !length_app; lia | | done].
    intros l Hl. by rewrite <- app_assoc, lookup_app_l.
  - done.
  - cbn [history]. rewrite length_app, length_take. cbn [length]. lia.
Qed.

(** X22. applyChange(label) without a mutator function, on a snapshot
    that serializes to an object, appends a snapshot that serializes to
    the current one's text with id = history.length, label and timestamp
    set and every other property unchanged. The previous snapshot
    serializes as before, currentIndex advances by one and the history
    has currentIndex + 2 entries. *)
Theorem applyChange_without_mutator_copies_the_snapshot e label now props :
  well_positioned (state e) ->
  JSON_stringify (heap e) (currentSnapshot (state e)) = Ok (VObj props) ->
  let e' := step e (ApplyChange label None now) in
  JSON_stringify (heap e') (currentSnapshot (state e'))
  = Ok (stamped (Z.of_nat (length (history (state e)))) label now props)
  /\ JSON_stringify (heap e') (currentSnapshot (state e)) = Ok (VObj props)
  /\ currentIndex (state e') = (currentIndex (state e) + 1)%Z
  /\ (length (history (state e')) = Z.to_nat (currentIndex (state e) + 2))%nat.
Proof. intros He Hs. by apply applyChange_copy. Qed.

Lemma applyChange_without_mutator_copies_the_snapshot_witness :
  well_positioned (state board)
  /\ JSON_stringify (heap board) (currentSnapshot (state board))
     = Ok (VObj board_text)
  /\ JSON_stringify
       (heap (step board (ApplyChange "Rename the sprint" None "10:00:00")))
       (currentSnapshot
          (state (step board (ApplyChange "Rename the sprint" None "10:00:00"))))
     = Ok (stamped 1 "Rename the sprint" "10:00:00" board_text).
Proof.
  split; [exact board_well_positioned|]. split; [reflexivity|].
  pose proof (applyChange_without_mutator_copies_the_snapshot board
                "Rename the sprint" "10:00:00" board_text
                board_well_positioned eq_refl) as H.
  cbv zeta in H. destruct H as (H & _). exact H.
Defined.

End DeepCopy.

(** * The flow bindings *)

Section UseFlowsFacts.
Import FlowEngine.
Import UseFlows.

Lemma well_bound_empty : well_bound (∅ : gmap string (list Binding)).
Proof.
  intros k arr H. by rewrite lookup_empty in H.
Qed.

Lemma findIndex_id_Some library flowDef fid :
  get_field flowDef "id" = Ok fid ->
  forall i k,
    findIndex_id library flowDef i = Ok (Some k) ->
    exists j, k = (i + j)%nat /\ first_listed library fid j.
Proof.
  intros Hd. induction library as [|f rest IH]; intros i k; [done|].
  cbn [findIndex_id]. destruct (get_field f "id") as [x|] eqn:Ef; [|done].
  cbn [result_bind]. rewrite Hd. cbn [result_bind].
  destruct (strict_eq x fid) eqn:Ex.
  - intros [= <-]. exists 0%nat. split; [lia|]. split; [constructor|].
    by exists f, x.
  - intros (j & -> & Hu & Hm)%IH. exists (S j). split; [lia|].
    split; [|done]. constructor; [by exists x | done].
Qed.

Lemma findIndex_id_None library flowDef fid :
  get_field flowDef "id" = Ok fid ->
  forall i, findIndex_id library flowDef i = Ok None -> unlisted library fid.
Proof.
  intros Hd. induction library as [|f rest IH]; intros i; [constructor|].
  cbn [findIndex_id]. destruct (get_field f "id") as [x|] eqn:Ef; [|done].
  cbn [result_bind]. rewrite Hd. cbn [result_bind].
  destruct (strict_eq x fid) eqn:Ex; [done|].
  intros H%IH. constructor; [by exists x | done].
Qed.

Lemma first_listed_findIndex library flowDef fid j :
  get_field flowDef "id" = Ok fid ->
  first_listed library fid j ->
  forall i, findIndex_id library flowDef i = Ok (Some (i + j)%nat).
Proof.
  intros Hd. revert j.
  induction library as [|f rest IH]; intros j [Hu (g & x & Hj & Hg & Hx)] i.
  - done.
  - cbn [findIndex_id]. destruct j as [|j].
    + injection Hj as <-. rewrite Hg. cbn [result_bind]. rewrite Hd.
      cbn [result_bind]. rewrite Hx. do 2 f_equal. lia.
    + cbn [take] in Hu. apply Forall_cons in Hu as [(y & Hy & Hyx) Hu].
      rewrite Hy. cbn [result_bind]. rewrite Hd. cbn [result_bind].
      rewrite Hyx. rewrite (IH j); [do 2 f_equal; lia|].
      split; [done|]. by exists g, x.
Qed.

Lemma first_listed_find library fid j f :
  first_listed library fid j -> library !! j = Some f ->
  find_flow library fid = Ok (Some f).
Proof.
  revert j. induction library as [|g rest IH];
    intros j [Hu (g' & x & Hj & Hg & Hx)] Hf; [done|].
  cbn [find_flow]. destruct j as [|j].
  - injection Hj as <-. injection Hf as <-. by rewrite Hg; cbn; rewrite Hx.
  - cbn [take] in Hu. apply Forall_cons in Hu as [(y & Hy & Hyx) Hu].
    rewrite Hy. cbn [result_bind]. rewrite Hyx. apply (IH j); [|done].
    split; [done|]. by exists g', x.
Qed.

Lemma unlisted_find library fid :
  unlisted library fid -> find_flow library fid = Ok None.
Proof.
  induction 1 as [|f r (x & Hx & Hxf) _ IH]; [done|].
  cbn [find_flow]. rewrite Hx. cbn [result_bind]. by rewrite Hxf.
Qed.

Lemma saveFlow_listed flowDef fid p p' :
  get_field flowDef "id" = Ok fid -> strict_eq fid fid = true ->
  saveFlow flowDef p = Ok p' ->
  exists j,
    first_listed (flowLibrary p') fid j
    /\ flowLibrary p' !! j = Some flowDef
    /\ (flowLibrary p' = <[j := flowDef]> (flowLibrary p)
        /\ first_listed (flowLibrary p) fid j
        \/ flowLibrary p' = flowLibrary p ++ [flowDef]
           /\ j = length (flowLibrary p)
           /\ unlisted (flowLibrary p) fid).
Proof.
  intros Hd Hrefl. unfold saveFlow.
  destruct (findIndex_id (flowLibrary p) flowDef 0) as [[k|]|] eqn:E; [| |done].
  - cbn [result_bind]. intros [= <-]. cbn [flowLibrary].
    destruct (findIndex_id_Some _ _ _ Hd _ _ E) as (j & -> & Hfl).
    pose proof Hfl as (Hu & g & x & Hj & _).
    cbn [Nat.add]. pose proof (lookup_lt_Some _ _ _ Hj) as Hlt.
    exists j. split; [|split; [by rewrite list_lookup_insert_eq | left; done]].
    split.
    + by rewrite take_insert_ge.
    + exists flowDef, fid. by rewrite list_lookup_insert_eq.
  - cbn [result_bind]. intros [= <-]. cbn [flowLibrary].
    pose proof (findIndex_id_None _ _ _ Hd _ E) as Hu.
    exists (length (flowLibrary p)).
    split; [|split; [by rewrite lookup_app_r, Nat.sub_diag | right; done]].
    split.
    + by rewrite take_app_length.
    + exists flowDef, fid. by rewrite lookup_app_r, Nat.sub_diag.
Qed.

(** X23. After saveFlow(flowDef), looking the library up by flowDef.id
    finds flowDef. The library is one longer exactly when no flow had
    that id (otherwise the first flow with the id is replaced in its
    place), saving the same definition again changes nothing, and
    bindings, flow mode and selected target are untouched. *)
Theorem saveFlow_then_find flowDef fid p p' :
  get_field flowDef "id" = Ok fid -> strict_eq fid fid = true ->
  saveFlow flowDef p = Ok p' ->
  find_flow (flowLibrary p') fid = Ok (Some flowDef)
  /\ length (flowLibrary p')
     = match find_flow (flowLibrary p) fid with
       | Ok None => S (length (flowLibrary p))
       | _ => length (flowLibrary p)
       end
  /\ saveFlow flowDef p' = Ok p'
  /\ flowBindings p' = flowBindings p
  /\ flowMode p' = flowMode p
  /\ selectedFlowTarget p' = selectedFlowTarget p.
Proof.
  intros Hd Hrefl Hs.
  destruct (saveFlow_listed _ _ _ _ Hd Hrefl Hs) as (j & Hl & Hj & Hcase).
  split; [by apply (first_listed_find _ _ j)|].
  split.
  { destruct Hcase as [[-> Hfl] | (-> & -> & Hu)].
    - rewrite length_insert. pose proof Hfl as (_ & g & x & Hg & _).
      by rewrite (first_listed_find _ fid j g).
    - rewrite length_app, (unlisted_find _ _ Hu). cbn [length]. lia. }
  split.
  { unfold saveFlow.
    rewrite (first_listed_findIndex _ _ _ j Hd Hl 0). cbn [result_bind Nat.add].
    rewrite list_insert_id by done. by destruct p'. }
  unfold saveFlow in Hs.
  destruct (findIndex_id (flowLibrary p) flowDef 0); [|done].
  by injection Hs as <-.
Qed.

Lemma saveFlow_then_find_witness :
  saveFlow notify_flow (useFlows []) = Ok (useFlows [notify_flow])
  /\ find_flow (flowLibrary (useFlows [notify_flow])) (VStr "flow-notify")
     = Ok (Some notify_flow)
  /\ saveFlow notify_flow (useFlows [notify_flow])
     = Ok (useFlows [notify_flow]).
Proof.
  split; [reflexivity|].
  destruct (saveFlow_then_find notify_flow (VStr "flow-notify") (useFlows [])
              (useFlows [notify_flow]) eq_refl eq_refl eq_refl)
    as (H1 & _ & H2 & _).
  split; [exact H1 | exact H2].
Defined.

Lemma bindings_copy_Ok m key arr :
  well_bound m -> bindings_copy m key = Ok arr ->
  (key ∉ Object_prototype_members)
  /\ (m !! key = Some arr \/ m !! key = None /\ arr = []).
Proof.
  intros Hm. unfold bindings_copy, get_property.
  destruct (m !! key) as [a|] eqn:E.
  - intros [= <-]. split; [by apply (Hm key a) | by left].
  - destruct (bool_decide_reflect (key ∈ Object_prototype_members));
      [done|]. intros [= <-]. split; [done | by right].
Qed.






(** X25. attachFlow appends to the list of the selected target one
    binding { id, flowId, eventType }, with eventType 'task.dropped'
    when none is given, and touches no other key; when no binding of the
    target has the new id already, detachFlow with that id gives back
    exactly the state before the attachment (the key is deleted again
    when its list becomes empty). *)
Theorem attach_then_detach r r' flowId eventType ms random p p1 :
  well_bound (flowBindings p) ->
  selectedFlowTarget r' = selectedFlowTarget r ->
  attachFlow r flowId eventType ms random p = Ok p1 ->
  let key := target_key (selectedFlowTarget r) in
  let bid := "binding-" +:+ number_text ms +:+ "-" +:+ random in
  (forall b, b ∈ default [] (flowBindings p !! key) -> binding_id b <> bid) ->
  no_target (selectedFlowTarget r) = false ->
  (exists binding,
     flowBindings p1 !! key
     = Some (default [] (flowBindings p !! key) ++ [binding])
     /\ binding_id binding = bid
     /\ binding_flowId binding = flowId
     /\ binding_eventType binding
        = (if is_undefined eventType then VStr "task.dropped" else eventType))
  /\ (forall k, k <> key -> flowBindings p1 !! k = flowBindings p !! k)
  /\ detachFlow r' (VStr bid) p1 = Ok p.
Proof.
  intros Hm Hr Ha. cbn zeta. intros Hfresh Hnt.
  unfold attachFlow in Ha. rewrite Hnt in Ha.
  destruct (bindings_copy _ _) as [arr|] eqn:E; [|done].
  cbn [result_bind] in Ha. injection Ha as <-.
  cbn [with_bindings flowBindings].
  destruct (bindings_copy_Ok _ _ _ Hm E) as [Hk Hcase].
  set (key := target_key (selectedFlowTarget r)) in *.
  set (binding := {| binding_id := _ |}).
  assert (Harr : default [] (flowBindings p !! key) = arr).
  { by destruct Hcase as [-> | [-> ->]]. }
  rewrite Harr in *.
  split; [|split].
  - exists binding. by rewrite lookup_insert_eq.
  - intros k Hne. by rewrite lookup_insert_ne.
  - unfold detachFlow. rewrite Hr, Hnt. fold key.
    cbn [with_bindings flowBindings flowLibrary flowMode selectedFlowTarget].
    unfold bindings_copy, get_property. rewrite lookup_insert_eq.
    cbn [result_bind].
    assert (Hf : filter (fun b => strict_eq (VStr (binding_id b))
                                    (VStr ("binding-" +:+ number_text ms +:+ "-"
                                           +:+ random)) = false)
                   (arr ++ [binding]) = arr).
    { rewrite filter_app, filter_cons_False, filter_nil, app_nil_r.
      2:{ cbn [strict_eq binding binding_id]. by rewrite String.eqb_refl. }
      clear -Hfresh. induction arr as [|b l IH]; [done|].
      rewrite filter_cons_True.
      - f_equal. apply IH. intros b' Hb'. apply Hfresh. by right.
      - cbn [strict_eq]. apply String.eqb_neq. apply Hfresh. by left. }
    rewrite Hf. f_equal.
    destruct p as [lib m fm sel]. cbn [flowBindings] in *.
    unfold with_bindings. cbn. f_equal.
    destruct Hcase as [Hs | [Hn ->]].
    + destruct arr as [|b l]; [by destruct (Hm key [] Hs)|].
      rewrite insert_insert_eq. by apply insert_id.
    + by apply delete_insert_id.
Qed.

Lemma attach_then_detach_witness :
  attachFlow selecting (VStr "flow-notify") VUndefined 1700000000000 "k3x9"
    selecting = Ok attached
  /\ no_target (selectedFlowTarget selecting) = false
  /\ detachFlow selecting (VStr "binding-1700000000000-k3x9") attached
     = Ok selecting.
Proof.
  split; [reflexivity|]. split; [reflexivity|].
  pose proof (attach_then_detach selecting selecting (VStr "flow-notify")
                VUndefined 1700000000000 "k3x9" selecting attached
                well_bound_empty eq_refl eq_refl) as H.
  cbv zeta in H. destruct H as (_ & _ & H); [|reflexivity|exact H].
  intros b Hb. vm_compute in Hb. inversion Hb.
Defined.

Lemma find_flow_returns library flowId :
  Forall (fun f => is_nullish f = false) library ->
  exists found, find_flow library flowId = Ok found.
Proof.
  induction 1 as [|f r Hf _ [found IH]]; [by eexists|].
  cbn [find_flow]. destruct (get_field_defined f "id" Hf) as [x ->].
  cbn [result_bind]. destruct (strict_eq x flowId); eauto.
Qed.

Lemma truthy_not_nullish v : truthy v = true -> is_nullish v = false.
Proof. by destruct v. Qed.

Lemma forEach_binding_spec library eventType safePayload callback bindings :
  Forall (fun f => is_nullish f = false) library ->
  (forall c flow, callback = Some c -> c flow safePayload = None) ->
  forall t,
    forEach_binding library eventType safePayload callback bindings t
    = (Ok tt,
       t ++ flat_map (fired library eventType safePayload
                        (bool_decide (callback <> None)))
              (filter (fun b => answers eventType b = true) bindings)).
Proof.
  intros Hlib Hc. induction bindings as [|b rest IH]; intros t.
  - cbn. by rewrite app_nil_r.
  - cbn [forEach_binding]. unfold answers at 1.
    destruct (truthy (binding_eventType b)
              && negb (strict_eq (binding_eventType b) eventType)) eqn:Em.
    + rewrite filter_cons_False by (unfold answers; by rewrite Em).
      apply IH.
    + rewrite filter_cons_True by (unfold answers; by rewrite Em).
      cbn [flat_map].
      remember (flat_map _ (filter _ rest)) as later eqn:El.
      unfold fired.
      destruct (find_flow_returns library (binding_flowId b) Hlib)
        as [found ->].
      destruct found as [flow|]; cbn [default from_option].
      2:{ cbn [truthy negb]. by rewrite IH, app_assoc. }
      change (Datatypes.id flow) with flow.
      destruct (truthy flow) eqn:Et; cbn [negb].
      2:{ by rewrite IH, app_assoc. }
      destruct callback as [c|].
      * rewrite bool_decide_eq_true_2 by done.
        by rewrite (Hc c flow eq_refl), IH, app_assoc.
      * destruct (get_field_defined flow "name"
                    (truthy_not_nullish _ Et)) as [n ->].
        rewrite bool_decide_eq_false_2 by (by intros []).
        by rewrite IH, app_assoc.
Qed.

Lemma forEach_binding_no_callback library eventType safePayload bindings :
  forall t,
    exists added,
      (forEach_binding library eventType safePayload None bindings t).2
      = t ++ added
      /\ forall flow pl, Execute flow pl ∉ added.
Proof.
  induction bindings as [|b rest IH]; intros t.
  - exists []. split; [by rewrite app_nil_r | by intros ? ? ?%elem_of_nil].
  - cbn [forEach_binding].
    assert (Hstep : forall x, (forall flow pl, x <> Execute flow pl) ->
      exists added,
        (forEach_binding library eventType safePayload None rest
           (t ++ [x])).2 = t ++ added
        /\ forall flow pl, Execute flow pl ∉ added).
    { intros x Hx. destruct (IH (t ++ [x])) as (a & Ea & Ha).
      exists (x :: a). split; [by rewrite Ea, <- app_assoc|].
      intros flow pl [E|Hin]%elem_of_cons; [by destruct (Hx flow pl)|].
      by destruct (Ha flow pl). }
    assert (Hnil : exists added, t = t ++ added
                     /\ forall flow pl, Execute flow pl ∉ added).
    { exists []. split; [by rewrite app_nil_r | by intros ? ? ?%elem_of_nil]. }
    destruct (_ && _); [apply IH|].
    destruct (find_flow _ _) as [found|]; [|done].
    destruct (negb _); [by apply Hstep|].
    destruct (get_field _ _); [by apply Hstep | done].
Qed.

(** X26. An event whose payload has neither a truthy targetKey nor a
    truthy taskId fires nothing, and neither does a falsy event type;
    and when the third argument is not a function no flow is executed,
    whatever is bound: the flows are only written to the console. *)
Theorem fireFlowsForEvent_needs_a_target_and_a_function s eventType props t
    callback :
  NoDup props.*1 ->
  let targetKey := default VUndefined (assoc "targetKey" props) in
  let taskId := default VUndefined (assoc "taskId" props) in
  (truthy targetKey = false -> truthy taskId = false ->
   fireFlowsForEvent s eventType (VObj props) callback t = (Ok tt, t))
  /\ (truthy eventType = false ->
      forall payload,
        fireFlowsForEvent s eventType payload callback t = (Ok tt, t))
  /\ exists added,
       (fireFlowsForEvent s eventType (VObj props) None t).2 = t ++ added
       /\ forall flow pl, Execute flow pl ∉ added.
Proof.
  intros Hnd. cbn zeta.
  assert (Hsp : forall k, k <> "eventType" ->
    assoc k (safe_props eventType (VObj props)) = assoc k props).
  { intros k Hk. unfold safe_props. cbn [is_undefined own_entries].
    rewrite assoc_set_assoc_ne by done.
    rewrite spread_assoc by done. by destruct (assoc k props). }
  assert (Hnil : exists added, t = t ++ added
                   /\ forall flow pl, Execute flow pl ∉ added).
  { exists []. split; [by rewrite app_nil_r | by intros ? ? ?%elem_of_nil]. }
  split; [|split].
  - intros Hk Hi. unfold fireFlowsForEvent.
    destruct (truthy eventType); [|done]. cbn [negb].
    rewrite !Hsp by done. unfold js_or. rewrite Hk, Hi. done.
  - intros He payload. unfold fireFlowsForEvent. by rewrite He.
  - unfold fireFlowsForEvent.
    destruct (negb (truthy eventType)); [done|].
    destruct (negb (truthy _)); [done|].
    destruct (getFlowBindingsForTarget _ _) as [[|b l]|name]; [done| |].
    + apply forEach_binding_no_callback.
    + by destruct (inherited_length name) as [[|]|].
Qed.

Lemma fireFlowsForEvent_needs_a_target_and_a_function_witness :
  NoDup [("timestamp", VStr "2023-11-14T22:13:20.000Z")].*1
  /\ fireFlowsForEvent attached (VStr "workspace.committed")
       (VObj [("timestamp", VStr "2023-11-14T22:13:20.000Z")]) None []
     = (Ok tt, []).
Proof.
  assert (H : NoDup [("timestamp", VStr "2023-11-14T22:13:20.000Z")].*1)
    by apply NoDup_singleton.
  split; [exact H|].
  pose proof (fireFlowsForEvent_needs_a_target_and_a_function attached
                (VStr "workspace.committed")
                [("timestamp", VStr "2023-11-14T22:13:20.000Z")] [] None H)
    as H'.
  cbv zeta in H'. destruct H' as (H' & _). apply H'; reflexivity.
Defined.

(** X27. For an event with a string targetKey (no inherited name) and a
    callback that returns, fireFlowsForEvent goes through the bindings
    of the target in order, skips those whose eventType is truthy and
    differs from the event's, and for each of the others hands the
    callback the first flow of the library with the binding's flowId, or
    warns when there is none. The payload handed over is the event's
    with eventType set and all else unchanged. *)
Theorem fireFlowsForEvent_executes_the_answering_bindings s eventType props
    key callback t :
  truthy eventType = true ->
  NoDup props.*1 ->
  assoc "targetKey" props = Some (VStr key) -> key <> "" ->
  key ∉ Object_prototype_members ->
  Forall (fun f => is_nullish f = false) (flowLibrary s) ->
  (forall flow pl, callback flow pl = None) ->
  let safePayload := VObj (safe_props eventType (VObj props)) in
  fireFlowsForEvent s eventType (VObj props) (Some callback) t
  = (Ok tt,
     t ++ flat_map (fired (flowLibrary s) eventType safePayload true)
            (filter (fun b => answers eventType b = true)
               (default [] (flowBindings s !! key))))
  /\ own_member safePayload "eventType" = Some eventType
  /\ (forall k, k <> "eventType" ->
        own_member safePayload k = own_member (VObj props) k).
Proof.
  intros He Hnd Hk Hne Hplain Hlib Hc. cbn zeta.
  assert (Hsp : forall k, k <> "eventType" ->
    assoc k (safe_props eventType (VObj props)) = assoc k props).
  { intros k Hk'. unfold safe_props. cbn [is_undefined own_entries].
    rewrite assoc_set_assoc_ne by done.
    rewrite spread_assoc by done. by destruct (assoc k props). }
  split; [|split].
  - unfold fireFlowsForEvent. rewrite He. cbn [negb].
    rewrite !Hsp by done. rewrite Hk. cbn [default from_option].
    unfold js_or. change (Datatypes.id (VStr key)) with (VStr key).
    assert (Ht : truthy (VStr key) = true).
    { cbn. apply negb_true_iff. by apply String.eqb_neq. }
    rewrite Ht. cbn [negb to_string]. rewrite ?Ht. cbn [negb to_string].
    unfold getFlowBindingsForTarget, get_property.
    destruct (flowBindings s !! key) as [arr|] eqn:E.
    + cbn [default from_option]. change (Datatypes.id arr) with arr.
      destruct arr as [|b l]; [by rewrite app_nil_r|].
      rewrite (forEach_binding_spec _ _ _ (Some callback)); [|done|].
      * by rewrite bool_decide_eq_true_2.
      * by intros c flow [= <-].
    + rewrite bool_decide_eq_false_2 by done. cbn. by rewrite app_nil_r.
  - cbn [own_member]. unfold safe_props. by rewrite assoc_set_assoc_eq.
  - intros k Hk'. cbn [own_member]. by rewrite Hsp.
Qed.

Lemma fireFlowsForEvent_executes_the_answering_bindings_witness :
  ("task:T-101" ∉ Object_prototype_members)
  /\ fireFlowsForEvent attached (VStr "task.dropped") task_dropped
       (Some (fun _ _ => None)) []
     = (Ok tt, [Execute notify_flow task_dropped]).
Proof.
  assert (Hk : "task:T-101" ∉ Object_prototype_members).
  { unfold Object_prototype_members. rewrite !elem_of_cons, elem_of_nil.
    intros [?|[?|[?|[?|[?|[?|[?|[?|[?|[?|[?|[?|[]]]]]]]]]]]]]; discriminate. }
  split; [exact Hk|].
  assert (Hn : NoDup [("eventType", VStr "task.dropped");
                      ("taskId", VStr "T-101");
                      ("toStatus", VStr "In Progress");
                      ("targetKey", VStr "task:T-101")].*1).
  { cbn. repeat (apply NoDup_cons; split;
                 [rewrite ?elem_of_cons, elem_of_nil; intuition discriminate|]).
    apply NoDup_nil. done. }
  pose proof (fireFlowsForEvent_executes_the_answering_bindings attached
                (VStr "task.dropped")
                [("eventType", VStr "task.dropped"); ("taskId", VStr "T-101");
                 ("toStatus", VStr "In Progress");
                 ("targetKey", VStr "task:T-101")]
                "task:T-101" (fun _ _ => None) [] eq_refl Hn eq_refl) as H.
  cbv zeta in H. destruct H as (H & _).
  - discriminate.
  - exact Hk.
  - repeat constructor.
  - reflexivity.
  - exact H.
Defined.

End UseFlowsFacts.

(** * Roles and permissions *)

Section RoleFacts.








End RoleFacts.

(** * The theme *)

Section ThemeFacts.
Import FlowEngine.
Import ConfigContext.

Lemma appearance_theme_returns props :
  exists theme, appearance_theme (VObj props) = Ok theme.
Proof.
  unfold appearance_theme, get_field at 1. cbn [is_nullish result_bind].
  destruct (is_nullish _) eqn:E; [by eexists|].
  by apply get_field_defined.
Qed.

Lemma toggleTheme_spec props theme :
  appearance_theme (VObj props) = Ok theme ->
  exists props',
    toggleTheme (VObj props) = Ok (VObj props')
    /\ appearance_theme (VObj props') = Ok (VStr (flipped theme))
    /\ props'
       = set_assoc "appearance"
           (VObj (set_assoc "theme" (VStr (flipped theme))
                    (spread []
                       (own_entries
                          (default VUndefined (assoc "appearance" props))))))
           (spread [] props).
Proof.
  intros Ht. unfold toggleTheme. rewrite Ht.
  unfold get_field at 1. cbn [is_nullish own_member result_bind own_entries].
  eexists. split; [reflexivity|]. split.
  - unfold appearance_theme, get_field. cbn [is_nullish own_member].
    rewrite assoc_set_assoc_eq. cbn [default from_option result_bind].
    cbn [Datatypes.id is_nullish own_member].
    rewrite assoc_set_assoc_eq. unfold flipped.
    by destruct (strict_eq _ _).
  - unfold flipped. by destruct (strict_eq _ _).
Qed.

(** X29. toggleTheme sets appearance.theme to 'light' when the theme is
    'dark' or missing (or any falsy value) and to 'dark' for every other
    value, and leaves the other top-level properties of the
    configuration as they are; toggling twice gives back a theme that
    was 'dark' or 'light'. *)
Theorem toggleTheme_flips_the_theme props :
  NoDup props.*1 ->
  exists theme next,
    appearance_theme (VObj props) = Ok theme
    /\ toggleTheme (VObj props) = Ok next
    /\ appearance_theme next = Ok (VStr (flipped theme))
    /\ (flipped theme = "light" <->
        truthy theme = false \/ theme = VStr "dark")
    /\ (flipped theme = "dark" \/ flipped theme = "light")
    /\ (forall key, key <> "appearance" ->
          own_member next key = own_member (VObj props) key)
    /\ exists again,
         toggleTheme next = Ok again
         /\ appearance_theme again = Ok (VStr (flipped (VStr (flipped theme))))
         /\ (theme = VStr "dark" \/ theme = VStr "light" ->
             appearance_theme again = Ok theme).
Proof.
  intros Hnd.
  destruct (appearance_theme_returns props) as [theme Ht].
  destruct (toggleTheme_spec props theme Ht) as (props' & Hn & Hth & Hp).
  exists theme, (VObj props'). split; [done|]. split; [done|]. split; [done|].
  split.
  { unfold flipped, js_or. destruct (truthy theme) eqn:E.
    - destruct theme; try (split; [done | by intros [|]]).
      cbn [strict_eq]. destruct (String.eqb_spec s "dark") as [->|Hne].
      + split; auto.
      + split; [done|]. intros [|[= ->]]; done.
    - cbn. split; auto. }
  split; [unfold flipped; destruct (strict_eq _ _); auto|].
  split.
  { intros key Hk. cbn [own_member]. rewrite Hp.
    rewrite assoc_set_assoc_ne by done. rewrite spread_assoc by done.
    by destruct (assoc key props). }
  destruct (toggleTheme_spec props' _ Hth) as (props'' & Hn2 & Hth2 & _).
  exists (VObj props''). split; [done|]. split; [done|].
  intros [->| ->]; by rewrite Hth2.
Qed.

Lemma toggleTheme_flips_the_theme_witness :
  NoDup dark_config.*1
  /\ exists next,
       toggleTheme (VObj dark_config) = Ok next
       /\ appearance_theme next = Ok (VStr "light").
Proof.
  assert (H : NoDup dark_config.*1).
  { cbn. repeat (apply NoDup_cons; split;
                 [rewrite ?elem_of_cons, elem_of_nil; intuition discriminate|]).
    apply NoDup_nil. done. }
  split; [exact H|].
  destruct (toggleTheme_flips_the_theme dark_config H)
    as (theme & next & H1 & H2 & H3 & _).
  exists next. split; [exact H2|].
  rewrite H3. cbn in H1. injection H1 as <-. reflexivity.
Defined.

End ThemeFacts.

(** * Dropping a task on the board *)

Section BoardFacts.
Import Heap History.
Import App BoardView.
Open Scope Z_scope.

Lemma assoc_in_values {A} (k : string) (props : list (string * A)) v :
  assoc k props = Some v -> v ∈ props.*2.
Proof.
  induction props as [|[k' x] rest IH]; [done|]. cbn.
  destruct (String.eqb k k'); [intros [= ->]; left | right; auto].
Qed.

(** What a cell at or above [n] of a closed store holds under a name is
    no reference below [n]. *)
Lemma read_named_above n σ v key x :
  closed_above n σ -> val_above n σ v ->
  read_named σ v key = Ok x -> val_above n σ x.
Proof.
  intros Hc Hv Hr l ->.
  destruct v as [| | | | |lv]; try done.
  destruct (Hv lv eq_refl) as [Hn Hlt].
  cbn in Hr. destruct (σ !! lv) as [[props|elems extra]|] eqn:E; [| |done].
  - injection Hr as Hr. destruct (assoc key props) as [y|] eqn:Ea; [|done].
    cbn in Hr. subst y. apply (Hc lv _ l Hn E). cbn.
    by apply (assoc_in_values key).
  - injection Hr as Hr. destruct (assoc key extra) as [y|] eqn:Ea; [|done].
    cbn in Hr. subst y. apply (Hc lv _ l Hn E). cbn.
    apply elem_of_app. right. by apply (assoc_in_values key).
Qed.

Lemma parsed_from_mono σ new t h :
  parsed_from σ t h -> parsed_from (σ ++ new) t h.
Proof.
  destruct t; try done; cbn.
  - intros (l & hs & -> & Hl & Hall). exists l, hs.
    split; [done|]. split; [|done]. by apply lookup_app_l_Some.
  - intros (l & ps & -> & Hl). exists l, ps.
    split; [done|]. by apply lookup_app_l_Some.
Qed.

Lemma parse_elems_nullish xs :
  forall σ,
    Forall2 (fun x h' => h_nullish h' = is_nullish x) xs (parse_elems xs σ).1.
Proof.
  induction xs as [|x r IH]; intros σ; cbn [parse_elems]; [constructor|].
  destruct (parse_value x σ) as [h σ1] eqn:E.
  specialize (IH σ1). destruct (parse_elems r σ1) as [hs σ2].
  constructor; [|done].
  destruct x; try (injection E as <- _; done).
  - rewrite parse_value_arr in E. destruct (parse_elems xs σ).
    by injection E as <- _.
  - rewrite parse_value_obj in E. destruct (parse_members props σ).
    by injection E as <- _.
Qed.

Lemma parse_value_parsed_from t σ :
  parsed_from (parse_value t σ).2 t (parse_value t σ).1.
Proof.
  destruct t as [| |b|n|s|xs|props]; try done.
  - rewrite parse_value_arr.
    pose proof (parse_elems_nullish xs σ) as Hn.
    destruct (parse_elems xs σ) as [hs σ1]. cbn.
    exists (length σ1), hs. split; [done|]. split; [|done].
    by rewrite lookup_app_r, Nat.sub_diag.
  - rewrite parse_value_obj. destruct (parse_members props σ) as [hps σ1].
    cbn. exists (length σ1), hps. split; [done|].
    by rewrite lookup_app_r, Nat.sub_diag.
Qed.

Lemma parse_members_assoc key props :
  forall σ,
    match assoc key props with
    | None => assoc key (parse_members props σ).1 = None
    | Some x =>
        exists h, assoc key (parse_members props σ).1 = Some h
                  /\ parsed_from (parse_members props σ).2 x h
    end.
Proof.
  induction props as [|[k x] r IH]; intros σ; [done|].
  cbn [parse_members assoc].
  pose proof (parse_value_parsed_from x σ) as Hx.
  destruct (parse_value x σ) as [h σ1].
  specialize (IH σ1).
  destruct (parse_members_extends r σ1) as [new Hnew].
  destruct (parse_members r σ1) as [hs σ2]. cbn [fst snd assoc] in *.
  destruct (String.eqb key k); [|done].
  exists h. split; [done|]. subst σ2. by apply parsed_from_mono.
Qed.

(** Looking among values made by the copy for a task whose id is an
    object made before it: none is found, and the search throws at
    [null]. *)
Lemma find_task_below n σ cmd a elems :
  closed_above n σ -> Forall (val_above n σ) elems ->
  read_named σ cmd "taskId" = Ok (HRef a) -> (a < n)%nat ->
  if existsb h_nullish elems
  then exists e, find_task σ cmd elems = Throw e
  else find_task σ cmd elems = Ok HUndefined.
Proof.
  intros Hc Hall Hcmd Ha.
  induction Hall as [|t rest Ht Hrest IH]; [done|].
  cbn [find_task existsb].
  destruct (h_nullish t) eqn:Hnull.
  { destruct t; try done; by eexists. }
  cbn [orb].
  assert (exists id, read_named σ t "id" = Ok id) as [id Eid].
  { destruct t as [| | | | |l]; try done; try by eexists.
    destruct (Ht l eq_refl) as [_ Hl].
    apply lookup_lt_is_Some_2 in Hl as [c Hl]. cbn. rewrite Hl.
    destruct c; by eexists. }
  rewrite Eid, Hcmd. cbn.
  pose proof (read_named_above n σ t "id" id Hc Ht Eid) as Hid.
  assert (strict_equal id (HRef a) = false) as ->; [|exact IH].
  destruct id as [| | | | |l]; try done. cbn.
  destruct (Hid l eq_refl) as [Hl _].
  destruct (Nat.eqb_spec l a); [lia | done].
Qed.

Lemma existsb_Forall2 {A B} (f : A -> bool) (g : B -> bool) xs ys :
  Forall2 (fun x y => g y = f x) xs ys -> existsb g ys = existsb f xs.
Proof. induction 1 as [|x y xs ys H _ IH]; [done|]. cbn. by rewrite H, IH. Qed.

(** What the mutator of the drop does on the copy of a snapshot. *)
Lemma MoveTask_mutator_on_copy σ props clone σ1 cmd a :
  JSON_parse (VObj props) σ = Ok (clone, σ1) ->
  read_named σ1 cmd "taskId" = Ok (HRef a) ->
  (a < length σ)%nat ->
  if drop_throws props
  then exists e, MoveTask_mutator cmd clone σ1 = ([], Some e)
  else MoveTask_mutator cmd clone σ1 = ([], None).
Proof.
  intros Hp Hcmd Ha.
  destruct (JSON_parse_extends _ _ _ _ Hp) as (Hle & Hsame & Hc & Hv).
  pose proof (parse_members_assoc "tasks" props σ) as Htasks.
  unfold JSON_parse in Hp. rewrite parse_value_obj in Hp.
  destruct (parse_members props σ) as [hps σm]. cbn [fst snd] in *.
  injection Hp as <- <-.
  assert (Hcell : (σm ++ [CObj hps]) !! length σm = Some (CObj hps)).
  { by rewrite lookup_app_r, Nat.sub_diag. }
  destruct (Hv _ eq_refl) as [Hroot _].
  unfold MoveTask_mutator, drop_throws.
  cbn [read_named]. rewrite Hcell.
  destruct (assoc "tasks" props) as [x|].
  2:{ by rewrite Htasks. }
  destruct Htasks as (h & Hassoc & Hh). rewrite Hassoc.
  cbn [default from_option Datatypes.id].
  apply (parsed_from_mono _ [CObj hps]) in Hh.
  destruct x as [| |b|n|s|xs|ps]; cbn in Hh; try (subst h; cbn; eauto; fail).
  - destruct Hh as (l & hs & -> & Hl & Hall). cbn [tasks_find]. rewrite Hl.
    cbn [assoc].
    assert (length σ <= l)%nat as Hn.
    { apply (Hc (length σm) (CObj hps) l Hroot Hcell). cbn.
      by apply (assoc_in_values "tasks"). }
    assert (Forall (val_above (length σ) (σm ++ [CObj hps])) hs) as Hhs.
    { apply Forall_forall. intros t Hin l' ->.
      apply (Hc l _ l' Hn Hl). cbn. apply elem_of_app. by left. }
    pose proof (find_task_below _ _ cmd a hs Hc Hhs Hcmd Ha) as Hfind.
    rewrite (existsb_Forall2 is_nullish h_nullish xs hs Hall) in Hfind.
    destruct (existsb is_nullish xs).
    + destruct Hfind as [e ->]. by exists e.
    + by rewrite Hfind.
  - destruct Hh as (l & ps' & -> & Hl). cbn [tasks_find]. rewrite Hl.
    by eexists.
Qed.

Lemma applyChange_mutator_throws r label mutator now σ p text clone σ1 ops err :
  JSON_stringify σ (currentSnapshot r) = Ok text ->
  JSON_parse text σ = Ok (clone, σ1) ->
  mutation mutator clone σ1 = (ops, Some err) ->
  applyChange r label mutator now σ p = (Throw err, apply_ops σ1 ops, p).
Proof.
  intros Hs Hp Hm. unfold applyChange. rewrite Hs, Hp.
  unfold mutation in Hm. by rewrite Hm.
Qed.

(** X30. Dropping a task on a column of the board does not move it:
    handleDrop calls onMoveTask with one object { taskId, toStatus },
    which App's handleMoveTask(taskId, fromStatus, toStatus) takes for
    the task id. The change is labelled 'Move [object Object] to
    undefined' and no task has that id. When the tasks of the current
    snapshot are an array without null, or are missing or null, the
    snapshot appended is the current one with a new id, label and
    timestamp only, and currentIndex advances to it. When the tasks are
    anything else the mutator throws (find is not a function, or the id
    of null is read) and the state of the history is what it was. *)
Theorem board_drop_moves_no_task e draggingTaskId status now props :
  well_positioned (state e) ->
  h_truthy draggingTaskId = true ->
  JSON_stringify (heap e) (currentSnapshot (state e)) = Ok (VObj props) ->
  let e' := handleDrop draggingTaskId status now e in
  if drop_throws props then state e' = state e
  else
    JSON_stringify (heap e') (currentSnapshot (state e'))
    = Ok (stamped (Z.of_nat (length (history (state e))))
            "Move [object Object] to undefined" now props)
    /\ JSON_stringify (heap e') (currentSnapshot (state e)) = Ok (VObj props)
    /\ currentIndex (state e') = currentIndex (state e) + 1.
Proof.
  intros He Hd Hs. cbn zeta. unfold handleDrop. rewrite Hd. cbn [negb].
  unfold handleMoveTask, runCommand_MoveTask. cbn [heap state].
  set (argument := CObj [("taskId", draggingTaskId); ("toStatus", status)]).
  set (cmd := CObj _).
  set (σb := (heap e ++ [argument]) ++ [cmd]).
  assert (Hlen : length σb = S (S (length (heap e)))).
  { unfold σb. rewrite !length_app. cbn. lia. }
  assert (Hcmdcell : σb !! length (heap e ++ [argument]) = Some cmd).
  { unfold σb. by rewrite lookup_app_r, Nat.sub_diag. }
  assert (Hargcell : σb !! length (heap e) = Some argument).
  { unfold σb. rewrite <- app_assoc. by rewrite lookup_app_r, Nat.sub_diag. }
  assert (Hlabel : MoveTask_label σb (HRef (length (heap e ++ [argument])))
                   = Ok "Move [object Object] to undefined").
  { unfold MoveTask_label. cbn [read_named]. rewrite Hcmdcell.
    cbn. by rewrite Hargcell. }
  rewrite Hlabel.
  assert (Hs' : JSON_stringify σb (currentSnapshot (state e)) = Ok (VObj props)).
  { apply (JSON_stringify_stable (heap e)); [lia| |done].
    intros l Hl. unfold σb. by rewrite <- app_assoc, lookup_app_l. }
  set (e1 := {| heap := σb; state := state e |}).
  destruct (JSON_parse (VObj props) σb) as [[clone σ1]|err] eqn:Hp; [|done].
  destruct (JSON_parse_extends _ _ _ _ Hp) as (Hle & Hsame & Hc & Hv).
  assert (Hcmd : read_named σ1 (HRef (length (heap e ++ [argument]))) "taskId"
                 = Ok (HRef (length (heap e)))).
  { cbn [read_named]. rewrite Hsame by (rewrite length_app; cbn; lia).
    by rewrite Hcmdcell. }
  pose proof (MoveTask_mutator_on_copy σb props clone σ1 _ _ Hp Hcmd) as Hm.
  destruct (drop_throws props).
  - destruct Hm as [err Hm]; [lia|].
    unfold step. cbn [heap state e1].
    rewrite (applyChange_mutator_throws (state e) _
               (Some (MoveTask_mutator (HRef (length (heap e ++ [argument])))))
               now σb (state e) _ clone σ1 [] err Hs' Hp Hm).
    done.
  - specialize (Hm ltac:(lia)).
    destruct (applyChange_copy e1 "Move [object Object] to undefined"
                (Some (MoveTask_mutator (HRef (length (heap e ++ [argument])))))
                now props He Hs') as (H1 & H2 & H3 & _).
    { intros clone' σ1' Hp'. cbn [heap e1] in Hp'.
      rewrite Hp in Hp'. injection Hp' as <- <-. done. }
    done.
Qed.

Lemma board_drop_moves_no_task_witness :
  well_positioned (state board)
  /\ h_truthy (HStr "T-101") = true
  /\ JSON_stringify
       (heap (BoardView.handleDrop (HStr "T-101") (HStr "Done") "10:00:00"
                board))
       (currentSnapshot
          (state (BoardView.handleDrop (HStr "T-101") (HStr "Done")
                    "10:00:00" board)))
     = Ok (stamped 1 "Move [object Object] to undefined" "10:00:00"
             board_text)
  /\ currentIndex
       (state (BoardView.handleDrop (HStr "T-101") (HStr "Done") "10:00:00"
                 board)) = 1.
Proof.
  split; [exact board_well_positioned|]. split; [reflexivity|].
  pose proof (board_drop_moves_no_task board (HStr "T-101") (HStr "Done")
                "10:00:00" board_text board_well_positioned eq_refl eq_refl)
    as H.
  cbv zeta in H. change (drop_throws board_text) with false in H.
  destruct H as (H1 & _ & H3). split; [exact H1|exact H3].
Defined.

End BoardFacts.
